(** * kpulse: the caching and request-coordination layer

    A shallow embedding of three classes of the repository and the
    properties the specification states about them:

    - [RateLimiter]         (src/lib/rateLimiter.ts)
    - [ArtistMappingCache]  (the artist id mapping cache)
    - [SWRCache]            (the stale-while-revalidate cache)

    Conventions.  JavaScript numbers that hold counters and millisecond
    timestamps are integers far below 2^53 and are modelled by [Z].  Every
    call of [Date.now()] is an explicit argument of the function that makes
    it.  A [Map<string, _>] whose iteration order is never observed is a
    [gmap string _]; the one that is scanned in insertion order is an
    association list.  An optional field [f?: T] is an [option T]. *)

From Stdlib Require Import ZArith Lia Bool List.
From stdpp Require Import gmap strings list fin_maps.

Open Scope Z_scope.

(** ** JavaScript helpers *)

(** [Math.ceil(x / d)] for integers [x] and [d > 0]. *)
Definition ceilDiv (x d : Z) : Z := - ((- x) / d).

(** Truthiness of an optional number: [undefined] and [0] are falsy. *)
Definition truthyNum (o : option Z) : bool :=
  match o with
  | Some n => negb (n =? 0)
  | None => false
  end.

(** Truthiness of an optional string: [undefined] and the empty string
    are falsy. *)
Definition truthyStr (o : option string) : bool :=
  match o with
  | Some s => negb (String.eqb s "")
  | None => false
  end.

(** [a || b] on optional strings. *)
Definition orStr (a b : option string) : option string :=
  if truthyStr a then a else b.

(** ** The rate limiter *)

Module RateLimiter.

Record RateLimitEntry := {
  count : Z;
  resetTime : Z;
  blocked : bool;
  blockUntil : option Z;
  burstCount : Z;
  lastBurstReset : Z
}.

(** The string literal union accepted by [checkLimit]. *)
Inductive Endpoint :=
  | ArtistDetail | ArtistSearch | ArtistImage
  | SpotifyTracks | SpotifyAlbums | SpotifyRelated
  | TrendingArtists | YoutubeVideos | ArtistNews.

Definition endpointKey (e : Endpoint) : string :=
  match e with
  | ArtistDetail => "artist-detail"
  | ArtistSearch => "artist-search"
  | ArtistImage => "artist-image"
  | SpotifyTracks => "spotify-tracks"
  | SpotifyAlbums => "spotify-albums"
  | SpotifyRelated => "spotify-related"
  | TrendingArtists => "trending-artists"
  | YoutubeVideos => "youtube-videos"
  | ArtistNews => "artist-news"
  end.

Definition endpoints : list Endpoint :=
  [ArtistDetail; ArtistSearch; ArtistImage; SpotifyTracks; SpotifyAlbums;
   SpotifyRelated; TrendingArtists; YoutubeVideos; ArtistNews].

Record Limit := { max : Z; window : Z }.

(** The object-valued members of [LIMITS]. *)
Definition LIMITS (e : Endpoint) : Limit :=
  match e with
  | ArtistDetail => {| max := 500; window := 60000 |}
  | ArtistSearch => {| max := 500; window := 60000 |}
  | ArtistImage => {| max := 1000; window := 60000 |}
  | SpotifyTracks => {| max := 100; window := 300000 |}
  | SpotifyAlbums => {| max := 50; window := 300000 |}
  | SpotifyRelated => {| max := 100; window := 300000 |}
  | TrendingArtists => {| max := 100; window := 600000 |}
  | YoutubeVideos => {| max := 50; window := 3600000 |}
  | ArtistNews => {| max := 200; window := 3600000 |}
  end.

Definition LIMITS_global : Limit := {| max := 2000; window := 60000 |}.

(** The number-valued members of [LIMITS]. *)
Definition blockDuration : Z := 30000.
Definition burstWindow : Z := 60000.
Definition burstMax : Z := 300.

Definition endpointOfKey (key : string) : option Endpoint :=
  List.find (fun e => String.eqb (endpointKey e) key) endpoints.

(** The local helper of [getOrCreateEntry]: the window of an object-valued
    member of [LIMITS], 60000 for every other key. *)
Definition getWindow (key : string) : Z :=
  match endpointOfKey key with
  | Some e => window (LIMITS e)
  | None => if String.eqb key "global" then window LIMITS_global else 60000
  end.

Definition newEntry (key : string) (now : Z) : RateLimitEntry :=
  {| count := 0;
     resetTime := now + getWindow key;
     blocked := false;
     blockUntil := None;
     burstCount := 0;
     lastBurstReset := now |}.

(** "Reset counter if window expired" *)
Definition resetWindow (key : string) (now : Z) (entry : RateLimitEntry)
  : RateLimitEntry :=
  if now >? resetTime entry then
    {| count := 0;
       resetTime := now + getWindow key;
       blocked := false;
       blockUntil := None;
       burstCount := burstCount entry;
       lastBurstReset := lastBurstReset entry |}
  else entry.

(** "Reset burst counter if burst window expired" *)
Definition resetBurst (now : Z) (entry : RateLimitEntry) : RateLimitEntry :=
  if now >? lastBurstReset entry + burstWindow then
    {| count := count entry;
       resetTime := resetTime entry;
       blocked := blocked entry;
       blockUntil := blockUntil entry;
       burstCount := 0;
       lastBurstReset := now |}
  else entry.

(** [now < entry.blockUntil] when [blockUntil] is a number. *)
Definition ltBlockUntil (now : Z) (entry : RateLimitEntry) : bool :=
  match blockUntil entry with
  | Some b => now <? b
  | None => false
  end.

Definition geBlockUntil (now : Z) (entry : RateLimitEntry) : bool :=
  match blockUntil entry with
  | Some b => now >=? b
  | None => false
  end.

(** "Check if still blocked" / "Unblock" *)
Definition unblockIfDue (now : Z) (entry : RateLimitEntry) : RateLimitEntry :=
  if blocked entry && truthyNum (blockUntil entry) && ltBlockUntil now entry
  then entry
  else if blocked entry && truthyNum (blockUntil entry)
          && geBlockUntil now entry
  then
    {| count := 0;
       resetTime := resetTime entry;
       blocked := false;
       blockUntil := None;
       burstCount := 0;
       lastBurstReset := lastBurstReset entry |}
  else entry.

(** [getOrCreateEntry(key)].  The entry is an object stored in the map by
    reference and mutated in place: the result is the entry after the
    mutations together with the map that holds it under [key]. *)
Definition getOrCreateEntry (key : string) (now : Z)
    (limits : gmap string RateLimitEntry)
  : RateLimitEntry * gmap string RateLimitEntry :=
  let entry :=
    match limits !! key with
    | Some entry => entry
    | None => newEntry key now
    end in
  let entry := unblockIfDue now (resetBurst now (resetWindow key now entry)) in
  (entry, <[key := entry]> limits).

(** The template strings of the [message] field, by shape. *)
Inductive Message :=
  | MsgEndpointBlocked (endpoint : Endpoint) (resetIn : option Z)
  | MsgGlobalBlocked (resetIn : option Z)
  | MsgExceeded (resetIn : Z)
  | MsgSlowDown (burstResetIn : Z)
  | MsgCacheHit.

(** The object returned by [checkLimit]; [resetIn = None] stands for the
    [NaN] that arithmetic on an undefined [blockUntil] produces. *)
Record Result := {
  allowed : bool;
  remaining : Z;
  resetIn : option Z;
  message : option Message
}.

Definition block (now : Z) (entry : RateLimitEntry) : RateLimitEntry :=
  {| count := count entry;
     resetTime := resetTime entry;
     blocked := true;
     blockUntil := Some (now + blockDuration);
     burstCount := burstCount entry;
     lastBurstReset := lastBurstReset entry |}.

Definition incrCount (entry : RateLimitEntry) : RateLimitEntry :=
  {| count := count entry + 1;
     resetTime := resetTime entry;
     blocked := blocked entry;
     blockUntil := blockUntil entry;
     burstCount := burstCount entry;
     lastBurstReset := lastBurstReset entry |}.

Definition incrBurst (entry : RateLimitEntry) : RateLimitEntry :=
  {| count := count entry;
     resetTime := resetTime entry;
     blocked := blocked entry;
     blockUntil := blockUntil entry;
     burstCount := burstCount entry + 1;
     lastBurstReset := lastBurstReset entry |}.

(** [Math.ceil((entry.blockUntil! - now) / 1000)] *)
Definition blockResetIn (now : Z) (entry : RateLimitEntry) : option Z :=
  match blockUntil entry with
  | Some b => Some (ceilDiv (b - now) 1000)
  | None => None
  end.

(** [checkLimit(endpoint)].  [isDevelopment] is
    [process.env.NODE_ENV === "development"]; [now], [nowE] and [nowG] are
    the readings of [Date.now()] in [checkLimit] itself and in the two calls
    of [getOrCreateEntry].  [endpointEntry] and [globalEntry] are distinct
    objects (no endpoint is named "global"), so a mutation through either
    reference is written back under its own key. *)
Definition checkLimit (isDevelopment : bool) (endpoint : Endpoint)
    (now nowE nowG : Z) (limits : gmap string RateLimitEntry)
  : Result * gmap string RateLimitEntry :=
  let '(endpointEntry, limits) :=
    getOrCreateEntry (endpointKey endpoint) nowE limits in
  let endpointLimit := LIMITS endpoint in
  let '(globalEntry, limits) := getOrCreateEntry "global" nowG limits in
  let globalLimit := LIMITS_global in
  if blocked endpointEntry then
    let resetIn := blockResetIn now endpointEntry in
    ({| allowed := false; remaining := 0; resetIn := resetIn;
        message := Some (MsgEndpointBlocked endpoint resetIn) |}, limits)
  else if blocked globalEntry then
    let resetIn := blockResetIn now globalEntry in
    ({| allowed := false; remaining := 0; resetIn := resetIn;
        message := Some (MsgGlobalBlocked resetIn) |}, limits)
  else
    let wouldExceedEndpoint := count endpointEntry >=? max endpointLimit in
    let wouldExceedGlobal := count globalEntry >=? max globalLimit in
    if wouldExceedEndpoint || wouldExceedGlobal then
      let limits :=
        if wouldExceedEndpoint
        then <[endpointKey endpoint := block now endpointEntry]> limits
        else limits in
      let limits :=
        if wouldExceedGlobal
        then <["global" := block now globalEntry]> limits
        else limits in
      let resetIn := ceilDiv blockDuration 1000 in
      ({| allowed := false; remaining := 0; resetIn := Some resetIn;
          message := Some (MsgExceeded resetIn) |}, limits)
    else
      let burstResetIn :=
        ceilDiv (lastBurstReset globalEntry + burstWindow - now) 1000 in
      if negb isDevelopment
         && (burstCount globalEntry >=? burstMax)
         && (burstResetIn <=? 3)
      then
        ({| allowed := false; remaining := 0; resetIn := Some burstResetIn;
            message := Some (MsgSlowDown burstResetIn) |}, limits)
      else
        let endpointEntry := incrCount endpointEntry in
        let globalEntry := incrCount globalEntry in
        let globalEntry :=
          if negb isDevelopment then incrBurst globalEntry else globalEntry in
        let limits :=
          <["global" := globalEntry]>
            (<[endpointKey endpoint := endpointEntry]> limits) in
        ({| allowed := true;
            remaining := Z.min (max endpointLimit - count endpointEntry)
                               (max globalLimit - count globalEntry);
            resetIn := Some (ceilDiv (Z.min (resetTime endpointEntry - now)
                                            (resetTime globalEntry - now))
                                     1000);
            message := None |}, limits).

(** [checkLimitWithoutIncrement(endpoint)], with the same three clock
    readings. *)
Definition checkLimitWithoutIncrement (endpoint : Endpoint)
    (now nowE nowG : Z) (limits : gmap string RateLimitEntry)
  : Result * gmap string RateLimitEntry :=
  let '(endpointEntry, limits) :=
    getOrCreateEntry (endpointKey endpoint) nowE limits in
  let '(globalEntry, limits) := getOrCreateEntry "global" nowG limits in
  if blocked endpointEntry || blocked globalEntry then
    ({| allowed := false; remaining := 0;
        resetIn := Some (ceilDiv blockDuration 1000);
        message := Some MsgCacheHit |}, limits)
  else
    ({| allowed := true;
        remaining := Z.min (max (LIMITS endpoint) - count endpointEntry)
                           (max LIMITS_global - count globalEntry);
        resetIn := Some (ceilDiv (resetTime endpointEntry - now) 1000);
        message := None |}, limits).

(** The map after the two calls of [getOrCreateEntry] that open both
    [checkLimit] and [checkLimitWithoutIncrement]. *)
Definition prepared (endpoint : Endpoint) (nowE nowG : Z)
    (limits : gmap string RateLimitEntry) : gmap string RateLimitEntry :=
  snd (getOrCreateEntry "global" nowG
         (snd (getOrCreateEntry (endpointKey endpoint) nowE limits))).

(** A call of [checkLimit] with its three clock readings. *)
Record Call := {
  cEndpoint : Endpoint;
  cNow : Z;
  cNowE : Z;
  cNowG : Z
}.

(** A call that reads the same instant three times. *)
Definition callAt (endpoint : Endpoint) (now : Z) : Call :=
  {| cEndpoint := endpoint; cNow := now; cNowE := now; cNowG := now |}.

(** A sequence of [checkLimit] calls on one limiter: the results in order
    and the final map. *)
Fixpoint checkLimits (isDevelopment : bool) (calls : list Call)
    (limits : gmap string RateLimitEntry)
  : list Result * gmap string RateLimitEntry :=
  match calls with
  | [] => ([], limits)
  | c :: rest =>
      let '(r, limits) :=
        checkLimit isDevelopment (cEndpoint c) (cNow c) (cNowE c) (cNowG c)
                   limits in
      let '(rs, limits) := checkLimits isDevelopment rest limits in
      (r :: rs, limits)
  end.

(** Whether a call reads or writes the counter stored under [key]: every
    call does so for "global", and for the key of its own endpoint. *)
Definition touches (key : string) (c : Call) : bool :=
  String.eqb key "global" || String.eqb key (endpointKey (cEndpoint c)).

(** The clock reading of the [getOrCreateEntry] call that handles [key]. *)
Definition readingFor (key : string) (c : Call) : Z :=
  if String.eqb key "global" then cNowG c else cNowE c.

(** The object-valued member of [LIMITS] under [key], if there is one. *)
Definition limitOfKey (key : string) : option Limit :=
  match endpointOfKey key with
  | Some e => Some (LIMITS e)
  | None => if String.eqb key "global" then Some LIMITS_global else None
  end.

(** One property of the object [getStatus] returns. *)
Record Status := {
  sCount : Z;
  sMax : Z;
  sRemaining : Z;
  sResetIn : Z;
  sBlocked : bool;
  sBlockUntil : option Z
}.

(** [getStatus()]: one property per key of the map that names an
    object-valued member of [LIMITS]. *)
Definition getStatus (now : Z) (limits : gmap string RateLimitEntry)
  : gmap string Status :=
  map_imap
    (λ key entry,
       (λ limit,
          {| sCount := count entry;
             sMax := max limit;
             sRemaining := Z.max 0 (max limit - count entry);
             sResetIn := ceilDiv (resetTime entry - now) 1000;
             sBlocked := blocked entry;
             sBlockUntil :=
               if truthyNum (blockUntil entry)
               then (λ b, ceilDiv (b - now) 1000) <$> blockUntil entry
               else None |}) <$> limitOfKey key)
    limits.

(** [reset()] *)
Definition reset (limits : gmap string RateLimitEntry)
  : gmap string RateLimitEntry := ∅.

(** [resetEndpoint(endpoint)] *)
Definition resetEndpoint (endpoint : string)
    (limits : gmap string RateLimitEntry) : gmap string RateLimitEntry :=
  delete "global" (delete endpoint limits).

(** The calls that change the limiter. *)
Inductive Op :=
  | OpCheckLimit (isDevelopment : bool) (c : Call)
  | OpCheckLimitWithoutIncrement (c : Call)
  | OpReset
  | OpResetEndpoint (endpoint : string).

Definition applyOp (limits : gmap string RateLimitEntry) (op : Op)
  : gmap string RateLimitEntry :=
  match op with
  | OpCheckLimit isDevelopment c =>
      snd (checkLimit isDevelopment (cEndpoint c) (cNow c) (cNowE c)
                      (cNowG c) limits)
  | OpCheckLimitWithoutIncrement c =>
      snd (checkLimitWithoutIncrement (cEndpoint c) (cNow c) (cNowE c)
                                      (cNowG c) limits)
  | OpReset => reset limits
  | OpResetEndpoint endpoint => resetEndpoint endpoint limits
  end.

(** The maps a limiter can hold: those that calls produce from the empty
    map it is constructed with. *)
Definition reachable (limits : gmap string RateLimitEntry) : Prop :=
  ∃ ops, limits = fold_left applyOp ops ∅.

(** What the calls maintain about every entry: it is stored under a key
    that has a limit, its counters are not negative, its [count] is within
    the limit, and it has a [blockUntil] exactly when it is blocked. *)
Definition soundEntry (key : string) (entry : RateLimitEntry) : Prop :=
  (∃ limit, limitOfKey key = Some limit ∧ count entry <= max limit)
  ∧ 0 <= count entry
  ∧ 0 <= burstCount entry
  ∧ (blocked entry = true → is_Some (blockUntil entry))
  ∧ (blocked entry = false → blockUntil entry = None).

Definition sound (limits : gmap string RateLimitEntry) : Prop :=
  ∀ key entry, limits !! key = Some entry → soundEntry key entry.

(** The counter under [key] starts afresh when [getOrCreateEntry] handles
    it at [now]: there is no entry yet, or its window has elapsed, or it is
    blocked and its cooldown has elapsed. *)
Definition restarts (key : string) (now : Z)
    (limits : gmap string RateLimitEntry) : Prop :=
  match limits !! key with
  | None => True
  | Some entry =>
      now > resetTime entry
      ∨ (blocked entry = true
         ∧ ∃ until, blockUntil entry = Some until ∧ until ≠ 0 ∧ now >= until)
  end.

(** The burst throttle cannot fire: the mode is development, or the global
    counter has no entry, or its [burstCount] is below [burstMax]. *)
Definition burstQuiet (isDevelopment : bool)
    (limits : gmap string RateLimitEntry) : Prop :=
  isDevelopment = true
  ∨ match limits !! "global" with
    | None => True
    | Some entry => burstCount entry < burstMax
    end.

End RateLimiter.

(** ** The artist id mapping cache *)

Module ArtistMappingCache.

Record ArtistMapping := {
  spotifyId : option string;
  spotifyName : option string;
  lastFmName : option string;
  unifiedId : string;
  lastUpdated : Z
}.

(** The argument object of [setMapping]. *)
Record MappingData := {
  dUnifiedId : string;
  dSpotifyId : option string;
  dSpotifyName : option string;
  dLastFmName : option string
}.

Definition TTL : Z := 24 * 60 * 60 * 1000.

(** [Map<string, ArtistMapping>]: the entries in insertion order, which is
    the order the [for ... of] scans follow.  Keys are pairwise distinct. *)
Definition Table := list (string * ArtistMapping).

Definition keysDistinct (cache : Table) : Prop := NoDup (map fst cache).

(** [Map.prototype.get] *)
Fixpoint tableGet (key : string) (cache : Table) : option ArtistMapping :=
  match cache with
  | [] => None
  | (k, m) :: rest => if String.eqb k key then Some m else tableGet key rest
  end.

(** [Map.prototype.set]: an existing key keeps its position, a new key
    goes to the end. *)
Fixpoint tableSet (key : string) (m : ArtistMapping) (cache : Table) : Table :=
  match cache with
  | [] => [(key, m)]
  | (k, m') :: rest =>
      if String.eqb k key then (k, m) :: rest
      else (k, m') :: tableSet key m rest
  end.

(** [Map.prototype.delete] *)
Definition tableDelete (key : string) (cache : Table) : Table :=
  List.filter (fun km => negb (String.eqb (fst km) key)) cache.

(** Every read returns its result together with the table it leaves. *)

Definition getByUnifiedId (unifiedId : string) (now : Z) (cache : Table)
  : option ArtistMapping * Table :=
  match tableGet unifiedId cache with
  | None => (None, cache)
  | Some mapping =>
      if now - lastUpdated mapping >? TTL
      then (None, tableDelete unifiedId cache)
      else (Some mapping, cache)
  end.

Definition eqOptStr (o : option string) (s : string) : bool :=
  match o with
  | Some s' => String.eqb s' s
  | None => false
  end.

(** The two scans are synchronous loops; the readings of [Date.now()]
    taken inside one scan are one instant [now].  The first entry that
    satisfies the condition of the [if] is returned; the table is not
    written. *)
Definition getBySpotifyId (spotifyId' : string) (now : Z) (cache : Table)
  : option ArtistMapping * Table :=
  (snd <$> List.find
     (fun km => eqOptStr (spotifyId (snd km)) spotifyId'
                && (now - lastUpdated (snd km) <=? TTL)) cache,
   cache).

Section LowerCase.

(** [String.prototype.toLowerCase], a built-in of the language. *)
Variable toLowerCase : string -> string.

Definition getByLastFmName (lastFmName' : string) (now : Z) (cache : Table)
  : option ArtistMapping * Table :=
  let searchName := toLowerCase lastFmName' in
  (snd <$> List.find
     (fun km => eqOptStr (toLowerCase <$> lastFmName (snd km)) searchName
                && (now - lastUpdated (snd km) <=? TTL)) cache,
   cache).

End LowerCase.

Definition setMapping (data : MappingData) (now : Z) (cache : Table) : Table :=
  let existing := tableGet (dUnifiedId data) cache in
  let mapping :=
    {| unifiedId := dUnifiedId data;
       spotifyId := orStr (dSpotifyId data) (existing ≫= spotifyId);
       spotifyName := orStr (dSpotifyName data) (existing ≫= spotifyName);
       lastFmName := orStr (dLastFmName data) (existing ≫= lastFmName);
       lastUpdated := now |} in
  tableSet (dUnifiedId data) mapping cache.

Definition cleanup (now : Z) (cache : Table) : Table :=
  List.filter (fun km => negb (now - lastUpdated (snd km) >? TTL)) cache.

(** An ASCII instance of [toLowerCase] for concrete examples. *)
Definition asciiLower (c : Ascii.ascii) : Ascii.ascii :=
  let n := Ascii.nat_of_ascii c in
  if (Nat.leb 65 n && Nat.leb n 90)%bool then Ascii.ascii_of_nat (n + 32)
  else c.

Fixpoint lowerAscii (s : string) : string :=
  match s with
  | EmptyString => EmptyString
  | String c rest => String (asciiLower c) (lowerAscii rest)
  end.

(** The object [getStats()] returns. *)
Record Stats := {
  statSize : nat;
  statExpired : nat
}.

(** [getStats()] *)
Definition getStats (now : Z) (cache : Table) : Stats :=
  {| statSize := length cache;
     statExpired :=
       length (List.filter (fun km => now - lastUpdated (snd km) >? TTL)
                           cache) |}.

End ArtistMappingCache.

(** ** Artist ids

    [ArtistMappingCache.createUnifiedId], which the service also writes out
    in line as [name.toLowerCase().replace(/\s+/g, '-')], and the
    [id.replace(/-/g, ' ')] with which the route handlers turn an id back
    into a name.  A JavaScript string is a sequence of UTF-16 code units;
    the regular expressions have no [u] flag and work on code units. *)

Module UnifiedId.

Section CodeUnits.

(** The code units, the class [\s], the code units of "-" and " ", and
    [String.prototype.toLowerCase]. *)
Context {C : Type} `{EqDecision C}.
Variable isSpace : C → bool.
Variables dash space : C.
Variable toLowerCase : list C → list C.

(** [s.replace(/\s+/g, '-')]: every maximal run of white space becomes one
    "-".  [inRun] tells that the code unit before was white space. *)
Fixpoint replaceRuns (inRun : bool) (s : list C) : list C :=
  match s with
  | [] => []
  | c :: rest =>
      if isSpace c then
        if inRun then replaceRuns true rest
        else dash :: replaceRuns true rest
      else c :: replaceRuns false rest
  end.

Definition createUnifiedId (artistName : list C) : list C :=
  replaceRuns false (toLowerCase artistName).

(** [id.replace(/-/g, ' ')] *)
Definition idToName (id : list C) : list C :=
  map (λ c, if decide (c = dash) then space else c) id.

(** Words separated by single " ": no white space other than " ", none at
    the start, no two in a row. *)
Fixpoint singleSpaced (afterSpace : bool) (s : list C) : Prop :=
  match s with
  | [] => True
  | c :: rest =>
      if isSpace c then c = space ∧ afterSpace = false
                        ∧ singleSpaced true rest
      else singleSpaced false rest
  end.

End CodeUnits.

(** An instance for examples: bytes, with the ASCII white space. *)
Definition asciiSpace (c : Ascii.ascii) : bool :=
  let n := Ascii.nat_of_ascii c in
  (Nat.leb 9 n && Nat.leb n 13)%bool || Nat.eqb n 32.

End UnifiedId.

(** ** A map in insertion order

    [Map<string, A>] where the order of the keys is observed. *)

Module OrderedMap.

Section Generic.
Context {A : Type}.

(** [Map.prototype.get] *)
Fixpoint omGet (key : string) (m : list (string * A)) : option A :=
  match m with
  | [] => None
  | (k, a) :: rest => if String.eqb k key then Some a else omGet key rest
  end.

(** [Map.prototype.set]: an existing key keeps its position, a new key
    goes to the end. *)
Fixpoint omSet (key : string) (a : A) (m : list (string * A))
  : list (string * A) :=
  match m with
  | [] => [(key, a)]
  | (k, a') :: rest =>
      if String.eqb k key then (k, a) :: rest
      else (k, a') :: omSet key a rest
  end.

(** [Map.prototype.delete] *)
Definition omDelete (key : string) (m : list (string * A))
  : list (string * A) :=
  List.filter (fun ka => negb (String.eqb (fst ka) key)) m.

End Generic.

End OrderedMap.

(** ** The simple server-side cache

    The class [SimpleCache] behind [apiCache].  A stored value is a
    JavaScript value or [null]: an [option]. *)

Module SimpleCache.

Section Generic.
Variable V : Type.

Record CacheItem := {
  data : option V;
  timestamp : Z
}.

(** [get(key)] *)
Definition get (key : string) (cache : gmap string CacheItem) : option V :=
  match cache !! key with
  | None => None
  | Some item => data item
  end.

(** [set(key, data, ttlSeconds = 600)]; [ttlSeconds = None] is the omitted
    argument. *)
Definition set (key : string) (data' : option V) (ttlSeconds : option Z)
    (now : Z) (cache : gmap string CacheItem) : gmap string CacheItem :=
  <[key := {| data := data';
              timestamp := now + default 600 ttlSeconds * 1000 |}]> cache.

(** [has(key)] *)
Definition has (key : string) (now : Z) (cache : gmap string CacheItem)
  : bool * gmap string CacheItem :=
  match cache !! key with
  | None => (false, cache)
  | Some item =>
      if now >? timestamp item then (false, delete key cache)
      else (true, cache)
  end.

(** [delete(key)] *)
Definition deleteKey (key : string) (cache : gmap string CacheItem)
  : bool * gmap string CacheItem :=
  (bool_decide (is_Some (cache !! key)), delete key cache).

(** [clear()] *)
Definition clear (cache : gmap string CacheItem) : gmap string CacheItem := ∅.

(** [cleanup()]: the number of items removed and the map that is left. *)
Definition cleanup (now : Z) (cache : gmap string CacheItem)
  : nat * gmap string CacheItem :=
  (size (filter (fun kv => now > timestamp (snd kv)) cache),
   filter (fun kv => ¬ (now > timestamp (snd kv))) cache).

End Generic.

Arguments data {V}.
Arguments timestamp {V}.
Arguments Build_CacheItem {V}.
Arguments get {V}.
Arguments set {V}.
Arguments has {V}.
Arguments deleteKey {V}.
Arguments clear {V}.
Arguments cleanup {V}.

End SimpleCache.

(** ** The client-side cache

    The class [ClientCache] behind [artistCache], [searchCache],
    [newsCache] and [videosCache]. *)

Module ClientCache.
Import OrderedMap.

(** [o || d] on an optional number. *)
Definition orNum (o : option Z) (d : Z) : Z :=
  match o with
  | Some n => if n =? 0 then d else n
  | None => d
  end.

Section Generic.
Variable V : Type.

Record CacheItem := {
  data : option V;
  timestamp : Z;
  ttl : Z
}.

(** The fields of an instance. *)
Record ClientCache := {
  cache : list (string * CacheItem);
  defaultTTL : Z;
  maxSize : Z
}.

(** [new ClientCache({ ttl, maxSize })] *)
Definition new (ttl' maxSize' : option Z) : ClientCache :=
  {| cache := [];
     defaultTTL := orNum ttl' (5 * 60 * 1000);
     maxSize := orNum maxSize' 100 |}.

Definition withItems (items : list (string * CacheItem)) (c : ClientCache)
  : ClientCache :=
  {| cache := items; defaultTTL := defaultTTL c; maxSize := maxSize c |}.

Definition isExpired (now : Z) (item : CacheItem) : bool :=
  now - timestamp item >? ttl item.

(** [cleanup()] *)
Definition cleanup (now : Z) (c : ClientCache) : ClientCache :=
  withItems (List.filter (fun ki => negb (isExpired now (snd ki))) (cache c))
            c.

(** The block of [set] that makes room.  [firstKey] is the oldest key; it
    is deleted only if it is truthy, that is, not the empty string. *)
Definition makeRoom (nowC : Z) (c : ClientCache) : ClientCache :=
  if Z.of_nat (length (cache c)) >=? maxSize c then
    let c := cleanup nowC c in
    if Z.of_nat (length (cache c)) >=? maxSize c then
      match cache c with
      | (firstKey, _) :: _ =>
          if negb (String.eqb firstKey "")
          then withItems (omDelete firstKey (cache c)) c
          else c
      | [] => c
      end
    else c
  else c.

(** [set(key, data, ttl?)].  [now] is the reading of [Date.now()] in [set],
    [nowC] the one in the [cleanup] it may call. *)
Definition set (key : string) (data' : option V) (ttl' : option Z)
    (now nowC : Z) (c : ClientCache) : ClientCache :=
  let timeToLive := orNum ttl' (defaultTTL c) in
  let c := makeRoom nowC c in
  withItems (omSet key {| data := data'; timestamp := now;
                          ttl := timeToLive |} (cache c)) c.

(** [get(key)] *)
Definition get (key : string) (now : Z) (c : ClientCache)
  : option V * ClientCache :=
  match omGet key (cache c) with
  | None => (None, c)
  | Some item =>
      if isExpired now item
      then (None, withItems (omDelete key (cache c)) c)
      else (data item, c)
  end.

(** [has(key)] *)
Definition has (key : string) (now : Z) (c : ClientCache)
  : bool * ClientCache :=
  (bool_decide (is_Some (fst (get key now c))), snd (get key now c)).

(** [delete(key)] *)
Definition deleteKey (key : string) (c : ClientCache) : bool * ClientCache :=
  (bool_decide (is_Some (omGet key (cache c))),
   withItems (omDelete key (cache c)) c).

(** [clear()] *)
Definition clear (c : ClientCache) : ClientCache := withItems [] c.

(** [getOrSet(key, fetcher, ttl?)] up to its [await]: the cached value it
    returns, or [None] when it goes on to invoke the fetcher. *)
Definition getOrSetLookup (key : string) (now : Z) (c : ClientCache)
  : option V * ClientCache :=
  get key now c.

(** The rest of [getOrSet] once the fetcher has resolved with [data']: the
    value returned and the cache left. *)
Definition getOrSetStore (key : string) (data' : option V) (ttl' : option Z)
    (now nowC : Z) (c : ClientCache) : option V * ClientCache :=
  (data', set key data' ttl' now nowC c).

End Generic.

Arguments data {V}.
Arguments timestamp {V}.
Arguments ttl {V}.
Arguments Build_CacheItem {V}.
Arguments cache {V}.
Arguments defaultTTL {V}.
Arguments maxSize {V}.
Arguments Build_ClientCache {V}.
Arguments withItems {V}.
Arguments isExpired {V}.
Arguments cleanup {V}.
Arguments makeRoom {V}.
Arguments set {V}.
Arguments get {V}.
Arguments has {V}.
Arguments deleteKey {V}.
Arguments clear {V}.
Arguments getOrSetLookup {V}.
Arguments getOrSetStore {V}.

End ClientCache.

(** ** The stale-while-revalidate cache

    JavaScript runs every synchronous stretch of code to completion; an
    [async] call is suspended at an [await] and goes on in a later turn,
    once the promise it waits for has settled.  A step of the model is one
    such stretch: the part of a method call up to its first [await] or its
    [return], or one turn of a suspended call.  The order in which the
    suspended calls that can move take their turns is left open, which
    covers the order of the job queue.

    A revalidator is opaque: invoking it yields a new pending promise, which
    the environment settles later, once, with a value or with an error.  It
    is taken not to call back into the cache, nor to throw, before it
    returns its promise.  Revalidators are named by numbers. *)

Module SWRCache.

Inductive ContentType :=
  | ArtistSearch | ArtistData | ArtistStats | Tracks | Similar
  | Related | Videos | News | Trending | ArtistMapping.

Record CacheConfig := {
  freshTTL : Z;
  staleTTL : Z;
  description : string
}.

Definition CONFIG (contentType : ContentType) : CacheConfig :=
  match contentType with
  | ArtistSearch =>
      {| freshTTL := 10 * 60 * 1000; staleTTL := 60 * 60 * 1000;
         description := "Artist search results" |}
  | ArtistData =>
      {| freshTTL := 30 * 60 * 1000; staleTTL := 2 * 60 * 60 * 1000;
         description := "Artist biographical data" |}
  | ArtistStats =>
      {| freshTTL := 60 * 60 * 1000; staleTTL := 4 * 60 * 60 * 1000;
         description := "Artist followers/popularity stats" |}
  | Tracks =>
      {| freshTTL := 24 * 60 * 60 * 1000; staleTTL := 7 * 24 * 60 * 60 * 1000;
         description := "Artist top tracks (rarely change)" |}
  | Similar =>
      {| freshTTL := 6 * 60 * 60 * 1000; staleTTL := 24 * 60 * 60 * 1000;
         description := "Similar artists recommendations (legacy)" |}
  | Related =>
      {| freshTTL := 6 * 60 * 60 * 1000; staleTTL := 24 * 60 * 60 * 1000;
         description := "Related artists from Spotify" |}
  | Videos =>
      {| freshTTL := 6 * 60 * 60 * 1000; staleTTL := 24 * 60 * 60 * 1000;
         description := "YouTube videos" |}
  | News =>
      {| freshTTL := 4 * 60 * 60 * 1000; staleTTL := 12 * 60 * 60 * 1000;
         description := "Artist news articles" |}
  | Trending =>
      {| freshTTL := 15 * 60 * 1000; staleTTL := 60 * 60 * 1000;
         description := "Trending artists" |}
  | ArtistMapping =>
      {| freshTTL := 24 * 60 * 60 * 1000; staleTTL := 7 * 24 * 60 * 60 * 1000;
         description := "Artist ID mappings" |}
  end.

Inductive Source := FromCache | Fresh.

(** How an [executeFetch] call obtained the promise it waits for: it
    invoked the revalidator and registered the promise, or it found a
    registered promise and returned that one. *)
Inductive Role := Owner | Joiner.

Section Generic.

(** [T] is the payload type of the cache, [E] the type of the reasons a
    revalidator rejects with. *)
Variables T E : Type.

Record CacheEntry := {
  data : T;
  createdAt : Z;
  isRevalidating : bool;
  contentType : ContentType
}.

(** The object [get] resolves with. *)
Record GetResult := {
  resData : T;
  isStale : bool;
  source : Source
}.

Inductive Settled :=
  | Fulfilled (value : T)
  | Rejected (reason : E).

(** One invocation of a revalidator: the key it was invoked for, the
    closure that was invoked and the state of the promise it returned
    ([None] while pending).  The position in [fetches] names the promise. *)
Record Fetch := {
  fKey : string;
  fRevalidator : nat;
  fState : option Settled
}.

(** Where a suspended [async] call stands: [executeFetch] has not yet
    produced its result, or it has. *)
Inductive Phase :=
  | Fetching (role : Role)
  | Fetched (outcome : Settled).

(** What runs once [executeFetch] has produced its result: the rest of
    [get] after its [await], with the [contentType] and [now] of that call,
    or the [then]/[catch] handlers of a background revalidation. *)
Inductive Cont :=
  | GetCont (contentType : ContentType) (now : Z)
  | BackgroundCont (contentType : ContentType).

Record Task := {
  tKey : string;
  tPromise : nat;
  tPhase : Phase;
  tCont : Cont
}.

(** The cache object and the asynchronous activity around it.  Calls of
    [get] are numbered in arrival order by [nextId]; [tasks] holds, under
    the number of the call that started it, the suspended remainder of that
    [get] or the background revalidation it triggered (a call starts at most
    one of the two); [returned] holds what a call's promise settled with. *)
Record State := {
  cache : gmap string CacheEntry;
  revalidationPromises : gmap string nat;
  fetches : list Fetch;
  tasks : gmap nat Task;
  returned : gmap nat (GetResult + E);
  nextId : nat
}.

Definition init : State :=
  {| cache := ∅; revalidationPromises := ∅; fetches := []; tasks := ∅;
     returned := ∅; nextId := 0 |}.

Definition withCache (c : gmap string CacheEntry) (s : State) : State :=
  {| cache := c;
     revalidationPromises := revalidationPromises s;
     fetches := fetches s;
     tasks := tasks s;
     returned := returned s;
     nextId := nextId s |}.

Definition withTasks (ts : gmap nat Task) (s : State) : State :=
  {| cache := cache s;
     revalidationPromises := revalidationPromises s;
     fetches := fetches s;
     tasks := ts;
     returned := returned s;
     nextId := nextId s |}.

Definition withReturned (r : gmap nat (GetResult + E)) (s : State) : State :=
  {| cache := cache s;
     revalidationPromises := revalidationPromises s;
     fetches := fetches s;
     tasks := tasks s;
     returned := r;
     nextId := nextId s |}.

(** [executeFetch(key, revalidator)] up to its [await]: the promise the
    call waits for, how it got it, and the state it leaves. *)
Definition executeFetch (key : string) (revalidator : nat) (s : State)
  : Role * nat * State :=
  match revalidationPromises s !! key with
  | Some promise => (Joiner, promise, s)
  | None =>
      let promise := length (fetches s) in
      (Owner, promise,
       {| cache := cache s;
          revalidationPromises := <[key := promise]> (revalidationPromises s);
          fetches := fetches s ++
                     [{| fKey := key; fRevalidator := revalidator;
                         fState := None |}];
          tasks := tasks s;
          returned := returned s;
          nextId := nextId s |})
  end.

(** The call [id] suspends on [executeFetch] with continuation [k]. *)
Definition awaitFetch (id : nat) (key : string) (revalidator : nat)
    (k : Cont) (s : State) : State :=
  let '(role, promise, s) := executeFetch key revalidator s in
  withTasks (<[id := {| tKey := key; tPromise := promise;
                        tPhase := Fetching role; tCont := k |}]> (tasks s)) s.

Definition markRevalidating (b : bool) (entry : CacheEntry) : CacheEntry :=
  {| data := data entry;
     createdAt := createdAt entry;
     isRevalidating := b;
     contentType := contentType entry |}.

(** [triggerBackgroundRevalidation(key, contentType, revalidator)], started
    by the call [id]. *)
Definition triggerBackgroundRevalidation (id : nat) (key : string)
    (contentType : ContentType) (revalidator : nat) (s : State) : State :=
  let s := withCache (alter (markRevalidating true) key (cache s)) s in
  awaitFetch id key revalidator (BackgroundCont contentType) s.

Definition resolveWith (id : nat) (r : GetResult + E) (s : State) : State :=
  withReturned (<[id := r]> (returned s)) s.

(** [get(key, contentType, revalidator)] up to its first [await] or its
    [return].  [now] is the reading of [Date.now()]. *)
Definition get (key : string) (contentType : ContentType) (revalidator : nat)
    (now : Z) (s : State) : State :=
  let id := nextId s in
  let s :=
    {| cache := cache s;
       revalidationPromises := revalidationPromises s;
       fetches := fetches s;
       tasks := tasks s;
       returned := returned s;
       nextId := S id |} in
  let config := CONFIG contentType in
  match cache s !! key with
  | None => awaitFetch id key revalidator (GetCont contentType now) s
  | Some entry =>
      let age := now - createdAt entry in
      if age >? staleTTL config then
        awaitFetch id key revalidator (GetCont contentType now) s
      else if age <=? freshTTL config then
        resolveWith id
          (inl {| resData := data entry; isStale := false;
                  source := FromCache |}) s
      else
        let s :=
          if negb (isRevalidating entry)
          then triggerBackgroundRevalidation id key contentType revalidator s
          else s in
        resolveWith id
          (inl {| resData := data entry; isStale := true;
                  source := FromCache |}) s
  end.

(** [set(key, data, contentType)] *)
Definition set (key : string) (data' : T) (contentType : ContentType)
    (now : Z) (s : State) : State :=
  withCache (<[key := {| data := data'; createdAt := now;
                         isRevalidating := false;
                         contentType := contentType |}]> (cache s)) s.

(** [cleanup()] *)
Definition cleanup (now : Z) (s : State) : State :=
  withCache
    (filter (fun kv => ¬ (now - createdAt (snd kv)
                          > staleTTL (CONFIG (contentType (snd kv)))))
            (cache s)) s.

(** The environment settles the promise a revalidator returned. *)
Definition settle (promise : nat) (outcome : Settled) (s : State) : State :=
  match fetches s !! promise with
  | Some f =>
      match fState f with
      | None =>
          {| cache := cache s;
             revalidationPromises := revalidationPromises s;
             fetches := <[promise := {| fKey := fKey f;
                                        fRevalidator := fRevalidator f;
                                        fState := Some outcome |}]> (fetches s);
             tasks := tasks s;
             returned := returned s;
             nextId := nextId s |}
      | Some _ => s
      end
  | None => s
  end.

Definition settledWith (promise : nat) (s : State) : option Settled :=
  f ← fetches s !! promise; fState f.

(** The rest of [get] after [await this.executeFetch(...)], or the handlers
    of a background revalidation, applied to the outcome of the fetch.
    [now] is the reading of [Date.now()] in the [then] handler. *)
Definition complete (id : nat) (key : string) (k : Cont) (outcome : Settled)
    (now : Z) (s : State) : State :=
  match k, outcome with
  | GetCont contentType now0, Fulfilled freshData =>
      resolveWith id
        (inl {| resData := freshData; isStale := false; source := Fresh |})
        (withCache (<[key := {| data := freshData; createdAt := now0;
                                isRevalidating := false;
                                contentType := contentType |}]> (cache s)) s)
  | GetCont _ _, Rejected error =>
      resolveWith id (inr error) s
  | BackgroundCont contentType, Fulfilled freshData =>
      withCache (<[key := {| data := freshData; createdAt := now;
                             isRevalidating := false;
                             contentType := contentType |}]> (cache s)) s
  | BackgroundCont _, Rejected _ =>
      withCache (alter (markRevalidating false) key (cache s)) s
  end.

(** One turn of the suspended call [id].  While it is inside
    [executeFetch] and the promise has settled, the turn ends
    [executeFetch]: the owner runs its [finally] block, a joiner's returned
    promise is adopted.  Once [executeFetch] has produced its result, the
    turn runs the continuation and the call is over.  A call that cannot
    move leaves the state as it is. *)
Definition resume (id : nat) (now : Z) (s : State) : State :=
  match tasks s !! id with
  | None => s
  | Some t =>
      match tPhase t with
      | Fetching role =>
          match settledWith (tPromise t) s with
          | None => s
          | Some outcome =>
              let t' := {| tKey := tKey t; tPromise := tPromise t;
                           tPhase := Fetched outcome; tCont := tCont t |} in
              {| cache := cache s;
                 revalidationPromises :=
                   match role with
                   | Owner => delete (tKey t) (revalidationPromises s)
                   | Joiner => revalidationPromises s
                   end;
                 fetches := fetches s;
                 tasks := <[id := t']> (tasks s);
                 returned := returned s;
                 nextId := nextId s |}
          end
      | Fetched outcome =>
          complete id (tKey t) (tCont t) outcome now
                   (withTasks (delete id (tasks s)) s)
      end
  end.

(** What can happen to the cache: a call of one of its methods, the
    settlement of a revalidator's promise, a turn of a suspended call. *)
Inductive Event :=
  | EvGet (key : string) (contentType : ContentType) (revalidator : nat)
          (now : Z)
  | EvSet (key : string) (data' : T) (contentType : ContentType) (now : Z)
  | EvCleanup (now : Z)
  | EvSettle (promise : nat) (outcome : Settled)
  | EvResume (id : nat) (now : Z).

Definition step (s : State) (ev : Event) : State :=
  match ev with
  | EvGet key contentType revalidator now =>
      get key contentType revalidator now s
  | EvSet key data' contentType now => set key data' contentType now s
  | EvCleanup now => cleanup now s
  | EvSettle promise outcome => settle promise outcome s
  | EvResume id now => resume id now s
  end.

Definition run (evs : list Event) (s : State) : State :=
  fold_left step evs s.

Definition reachable (s : State) : Prop := ∃ evs, s = run evs init.

(** A revalidator invocation whose promise is still pending. *)
Definition inFlight (key : string) (promise : nat) (s : State) : Prop :=
  ∃ f, fetches s !! promise = Some f ∧ fKey f = key ∧ fState f = None.

(** What a caller that awaited the fetch receives for its outcome. *)
Definition resultOf (outcome : Settled) : GetResult + E :=
  match outcome with
  | Fulfilled v =>
      inl {| resData := v; isStale := false; source := Fresh |}
  | Rejected e => inr e
  end.

(** What the code maintains about its bookkeeping: a pending promise is
    the one registered for its key; an [executeFetch] call that registered
    a promise and has not finished is the only such call for its key and
    its promise is still registered; a call whose [executeFetch] has
    produced an outcome got the outcome of its promise; the numbers of
    calls in [tasks] and [returned] have been given out. *)
Record wf (s : State) : Prop := {
  wf_pending :
    ∀ p f, fetches s !! p = Some f → fState f = None →
           revalidationPromises s !! fKey f = Some p;
  wf_owner :
    ∀ id t, tasks s !! id = Some t → tPhase t = Fetching Owner →
            revalidationPromises s !! tKey t = Some (tPromise t);
  wf_owner_unique :
    ∀ id1 id2 t1 t2,
      tasks s !! id1 = Some t1 → tasks s !! id2 = Some t2 →
      tPhase t1 = Fetching Owner → tPhase t2 = Fetching Owner →
      tKey t1 = tKey t2 → id1 = id2;
  wf_fetched :
    ∀ id t o, tasks s !! id = Some t → tPhase t = Fetched o →
              settledWith (tPromise t) s = Some o;
  wf_task_id : ∀ id t, tasks s !! id = Some t → (id < nextId s)%nat;
  wf_returned_id : ∀ id r, returned s !! id = Some r → (id < nextId s)%nat
}.

(** The call [id] of [get] waits for the promise [p], which has settled
    with [o], or has already received what [get] makes of [o]. *)
Definition attached (id p : nat) (o : Settled) (s : State) : Prop :=
  settledWith p s = Some o
  ∧ (id < nextId s)%nat
  ∧ ((∃ t, tasks s !! id = Some t
           ∧ tPromise t = p
           ∧ (∃ contentType now, tCont t = GetCont contentType now)
           ∧ ((∃ role, tPhase t = Fetching role) ∨ tPhase t = Fetched o)
           ∧ returned s !! id = None)
     ∨ (tasks s !! id = None ∧ returned s !! id = Some (resultOf o))).

(** The call [id] of [get] is suspended in [executeFetch] on the promise
    [p] and has not been answered, or it is attached to the outcome of
    [p]. *)
Definition follows (id p : nat) (s : State) : Prop :=
  ((id < nextId s)%nat
   ∧ returned s !! id = None
   ∧ ∃ t, tasks s !! id = Some t
          ∧ tPromise t = p
          ∧ (∃ contentType now, tCont t = GetCont contentType now)
          ∧ (∃ role, tPhase t = Fetching role))
  ∨ (∃ o, attached id p o s).

Definition contTypeOf (k : Cont) : ContentType :=
  match k with
  | GetCont contentType _ => contentType
  | BackgroundCont contentType => contentType
  end.

(** The event, if it is a call of [get] or [set] for [key], passes the
    content type [contentType]. *)
Definition usesType (key : string) (contentType : ContentType) (ev : Event)
  : Prop :=
  match ev with
  | EvGet key' contentType' _ _ => key' = key → contentType' = contentType
  | EvSet key' _ contentType' _ => key' = key → contentType' = contentType
  | _ => True
  end.

(** The entry of [key], and every suspended call for [key], carry the
    content type [contentType']. *)
Definition typed (key : string) (contentType' : ContentType) (s : State)
  : Prop :=
  (∀ e, cache s !! key = Some e → contentType e = contentType')
  ∧ (∀ id t, tasks s !! id = Some t → tKey t = key →
             contTypeOf (tCont t) = contentType').

(** The number [cleanup()] returns: how many entries it deletes. *)
Definition cleanupCount (now : Z) (s : State) : nat :=
  size (filter (fun kv => now - createdAt (snd kv)
                          > staleTTL (CONFIG (contentType (snd kv))))
               (cache s)).

(** Every entry that is marked as revalidating has a background
    revalidation suspended for its key. *)
Definition marksBacked (s : State) : Prop :=
  ∀ key e,
    cache s !! key = Some e → isRevalidating e = true →
    ∃ id t contentType',
      tasks s !! id = Some t ∧ tKey t = key
      ∧ tCont t = BackgroundCont contentType'.

(** The events of a list of [get] calls for one key, each call given by
    its content type, its revalidator and its clock reading. *)
Definition getCalls (key : string) (calls : list (ContentType * nat * Z))
  : list Event :=
  map (λ c, EvGet key (fst (fst c)) (snd (fst c)) (snd c)) calls.

End Generic.

Arguments data {T}.
Arguments createdAt {T}.
Arguments isRevalidating {T}.
Arguments contentType {T}.
Arguments Build_CacheEntry {T}.
Arguments resData {T}.
Arguments isStale {T}.
Arguments source {T}.
Arguments Build_GetResult {T}.
Arguments Fulfilled {T E}.
Arguments Rejected {T E}.
Arguments fKey {T E}.
Arguments fRevalidator {T E}.
Arguments fState {T E}.
Arguments Build_Fetch {T E}.
Arguments Fetching {T E}.
Arguments Fetched {T E}.
Arguments tKey {T E}.
Arguments tPromise {T E}.
Arguments tPhase {T E}.
Arguments tCont {T E}.
Arguments Build_Task {T E}.
Arguments cache {T E}.
Arguments revalidationPromises {T E}.
Arguments fetches {T E}.
Arguments tasks {T E}.
Arguments returned {T E}.
Arguments nextId {T E}.
Arguments Build_State {T E}.
Arguments init {T E}.
Arguments withCache {T E}.
Arguments withTasks {T E}.
Arguments withReturned {T E}.
Arguments executeFetch {T E}.
Arguments awaitFetch {T E}.
Arguments markRevalidating {T}.
Arguments triggerBackgroundRevalidation {T E}.
Arguments resolveWith {T E}.
Arguments get {T E}.
Arguments set {T E}.
Arguments cleanup {T E}.
Arguments settle {T E}.
Arguments settledWith {T E}.
Arguments complete {T E}.
Arguments resume {T E}.
Arguments EvGet {T E}.
Arguments EvSet {T E}.
Arguments EvCleanup {T E}.
Arguments EvSettle {T E}.
Arguments EvResume {T E}.
Arguments step {T E}.
Arguments run {T E}.
Arguments reachable {T E}.
Arguments inFlight {T E}.
Arguments wf {T E}.
Arguments wf_pending {T E}.
Arguments wf_owner {T E}.
Arguments wf_owner_unique {T E}.
Arguments wf_fetched {T E}.
Arguments wf_task_id {T E}.
Arguments wf_returned_id {T E}.
Arguments attached {T E}.
Arguments follows {T E}.
Arguments getCalls {T E}.
Arguments cleanupCount {T E}.
Arguments marksBacked {T E}.
Arguments usesType {T E}.
Arguments typed {T E}.
Arguments resultOf {T E}.

End SWRCache.

(** * Properties *)

(** ** Properties of the rate limiter *)

Module RateLimiterSpec.
Import RateLimiter.

Lemma endpointKey_not_global (e : Endpoint) : endpointKey e ≠ "global".
Proof. destruct e; discriminate. Qed.

Lemma getOrCreateEntry_lookup key now (limits : gmap string RateLimitEntry) :
  snd (getOrCreateEntry key now limits) !! key
  = Some (fst (getOrCreateEntry key now limits)).
Proof. unfold getOrCreateEntry. simpl. apply lookup_insert_eq. Qed.

Lemma getOrCreateEntry_lookup_ne key key' now
    (limits : gmap string RateLimitEntry) :
  key ≠ key' →
  snd (getOrCreateEntry key now limits) !! key' = limits !! key'.
Proof. intros Hne. unfold getOrCreateEntry. simpl. by apply lookup_insert_ne. Qed.

(** The three mutations of [getOrCreateEntry] leave each counter as it was
    or put it back to zero. *)
Lemma mutations_counts key now entry :
  let entry' := unblockIfDue now (resetBurst now (resetWindow key now entry)) in
  (count entry' = count entry ∨ count entry' = 0)
  ∧ (burstCount entry' = burstCount entry ∨ burstCount entry' = 0).
Proof.
  unfold unblockIfDue, resetBurst, resetWindow.
  repeat (case_match; simpl in *); auto.
Qed.

Lemma getOrCreateEntry_counts key now (limits : gmap string RateLimitEntry) :
  let entry' := fst (getOrCreateEntry key now limits) in
  match limits !! key with
  | Some entry =>
      (count entry' = count entry ∨ count entry' = 0)
      ∧ (burstCount entry' = burstCount entry ∨ burstCount entry' = 0)
  | None => count entry' = 0 ∧ burstCount entry' = 0
  end.
Proof.
  unfold getOrCreateEntry. simpl. destruct (limits !! key) as [entry|].
  - apply mutations_counts.
  - destruct (mutations_counts key now (newEntry key now)) as [[->| ->] [->| ->]];
      simpl; auto.
Qed.

(** No counter of the prepared map is above its value in the map the call
    started from. *)
Lemma prepared_counts endpoint nowE nowG
    (limits : gmap string RateLimitEntry) key entry' :
  prepared endpoint nowE nowG limits !! key = Some entry' →
  match limits !! key with
  | Some entry =>
      (count entry' = count entry ∨ count entry' = 0)
      ∧ (burstCount entry' = burstCount entry ∨ burstCount entry' = 0)
  | None => count entry' = 0 ∧ burstCount entry' = 0
  end.
Proof.
  unfold prepared. intros H.
  pose proof (endpointKey_not_global endpoint) as Hg.
  destruct (decide (key = "global")) as [->|Hk].
  - rewrite getOrCreateEntry_lookup in H. injection H as <-.
    pose proof (getOrCreateEntry_counts "global" nowG
                  (snd (getOrCreateEntry (endpointKey endpoint) nowE limits))) as Hc.
    rewrite getOrCreateEntry_lookup_ne in Hc by done. exact Hc.
  - rewrite getOrCreateEntry_lookup_ne in H by done.
    destruct (decide (key = endpointKey endpoint)) as [->|Hk'].
    + rewrite getOrCreateEntry_lookup in H. injection H as <-.
      apply getOrCreateEntry_counts.
    + rewrite getOrCreateEntry_lookup_ne in H by done.
      rewrite H. auto.
Qed.

(** [checkLimit] and [checkLimitWithoutIncrement] read the two entries out
    of the prepared map. *)
Lemma prepared_endpoint endpoint nowE nowG
    (limits : gmap string RateLimitEntry) :
  prepared endpoint nowE nowG limits !! endpointKey endpoint
  = Some (fst (getOrCreateEntry (endpointKey endpoint) nowE limits)).
Proof.
  unfold prepared.
  rewrite getOrCreateEntry_lookup_ne by (apply not_eq_sym, endpointKey_not_global).
  apply getOrCreateEntry_lookup.
Qed.

Lemma prepared_global endpoint nowE nowG
    (limits : gmap string RateLimitEntry) :
  prepared endpoint nowE nowG limits !! "global"
  = Some (fst (getOrCreateEntry "global" nowG
                 (snd (getOrCreateEntry (endpointKey endpoint) nowE limits)))).
Proof. unfold prepared. apply getOrCreateEntry_lookup. Qed.

(** A rejecting [checkLimit] leaves the prepared map, up to the [blocked]
    and [blockUntil] fields of the two entries. *)
Lemma checkLimit_rejected_counts dev endpoint now nowE nowG
    (limits : gmap string RateLimitEntry) key entry' :
  allowed (fst (checkLimit dev endpoint now nowE nowG limits)) = false →
  snd (checkLimit dev endpoint now nowE nowG limits) !! key = Some entry' →
  ∃ entry0, prepared endpoint nowE nowG limits !! key = Some entry0
            ∧ count entry' = count entry0
            ∧ burstCount entry' = burstCount entry0.
Proof.
  pose proof (prepared_endpoint endpoint nowE nowG limits) as HE.
  pose proof (prepared_global endpoint nowE nowG limits) as HG.
  revert HE HG. unfold checkLimit, prepared.
  destruct (getOrCreateEntry (endpointKey endpoint) nowE limits)
    as [endpointEntry limits1].
  cbn [fst snd].
  destruct (getOrCreateEntry "global" nowG limits1)
    as [globalEntry limits2].
  cbn [fst snd]. intros HE HG.
  pose proof (endpointKey_not_global endpoint) as Hg.
  destruct (blocked endpointEntry); [cbn [fst snd]; eauto|].
  destruct (blocked globalEntry); [cbn [fst snd]; eauto|].
  destruct (count endpointEntry >=? max (LIMITS endpoint)) eqn:XE;
    destruct (count globalEntry >=? max LIMITS_global) eqn:XG;
    cbn [orb fst snd allowed].
  - intros _ H.
    destruct (decide (key = "global")) as [->|Hk].
    { rewrite lookup_insert_eq in H. injection H as <-. eauto. }
    rewrite lookup_insert_ne in H by done.
    destruct (decide (key = endpointKey endpoint)) as [->|Hk'].
    { rewrite lookup_insert_eq in H. injection H as <-. eauto. }
    rewrite lookup_insert_ne in H by done. eauto.
  - intros _ H.
    destruct (decide (key = endpointKey endpoint)) as [->|Hk'].
    { rewrite lookup_insert_eq in H. injection H as <-. eauto. }
    rewrite lookup_insert_ne in H by done. eauto.
  - intros _ H.
    destruct (decide (key = "global")) as [->|Hk].
    { rewrite lookup_insert_eq in H. injection H as <-. eauto. }
    rewrite lookup_insert_ne in H by done. eauto.
  - destruct (negb dev && (burstCount globalEntry >=? burstMax)
              && (ceilDiv (lastBurstReset globalEntry + burstWindow - now) 1000
                  <=? 3)); cbn [fst snd allowed]; [eauto | discriminate].
Qed.

(** C10.  A call of [checkLimit] that answers [allowed = false] increments
    no counter: in the map it leaves, every entry has the [count] and the
    [burstCount] it has right after the two [getOrCreateEntry] calls (which
    may create an entry, restart an elapsed window or lift an expired
    block), and so each of the two is the value the call found or zero. *)
Theorem checkLimit_rejected_no_increment dev endpoint now nowE nowG
    (limits : gmap string RateLimitEntry) :
  allowed (fst (checkLimit dev endpoint now nowE nowG limits)) = false →
  ∀ key entry',
    snd (checkLimit dev endpoint now nowE nowG limits) !! key = Some entry' →
    (∃ entry0, prepared endpoint nowE nowG limits !! key = Some entry0
               ∧ count entry' = count entry0
               ∧ burstCount entry' = burstCount entry0)
    ∧ match limits !! key with
      | Some entry =>
          (count entry' = count entry ∨ count entry' = 0)
          ∧ (burstCount entry' = burstCount entry ∨ burstCount entry' = 0)
      | None => count entry' = 0 ∧ burstCount entry' = 0
      end.
Proof.
  intros Hrej key entry' H.
  destruct (checkLimit_rejected_counts _ _ _ _ _ _ _ _ Hrej H)
    as (entry0 & H0 & Hc & Hb).
  split; [eauto|].
  pose proof (prepared_counts _ _ _ _ _ _ H0) as Hp.
  rewrite Hc, Hb. exact Hp.
Qed.

Lemma checkLimit_rejected_no_increment_witness :
  let limits :=
    snd (checkLimits false (replicate 50 (callAt SpotifyAlbums 0)) ∅) in
  allowed (fst (checkLimit false SpotifyAlbums 1000 1000 1000 limits)) = false
  ∧ ∀ key entry',
      snd (checkLimit false SpotifyAlbums 1000 1000 1000 limits) !! key
      = Some entry' →
      (∃ entry0, prepared SpotifyAlbums 1000 1000 limits !! key = Some entry0
                 ∧ count entry' = count entry0
                 ∧ burstCount entry' = burstCount entry0)
      ∧ match limits !! key with
        | Some entry =>
            (count entry' = count entry ∨ count entry' = 0)
            ∧ (burstCount entry' = burstCount entry ∨ burstCount entry' = 0)
        | None => count entry' = 0 ∧ burstCount entry' = 0
        end.
Proof.
  split.
  - vm_compute. reflexivity.
  - apply (checkLimit_rejected_no_increment false SpotifyAlbums 1000 1000 1000).
    vm_compute. reflexivity.
Defined.

(** *** [checkLimitWithoutIncrement] against [checkLimit] *)

(** When one of the two prepared entries is blocked, [checkLimit] rejects
    and leaves the prepared map. *)
Lemma checkLimit_blocked dev endpoint now nowE nowG
    (limits : gmap string RateLimitEntry) :
  blocked (fst (getOrCreateEntry (endpointKey endpoint) nowE limits)) = true
  ∨ blocked (fst (getOrCreateEntry "global" nowG
                    (snd (getOrCreateEntry (endpointKey endpoint) nowE
                                           limits)))) = true →
  allowed (fst (checkLimit dev endpoint now nowE nowG limits)) = false
  ∧ snd (checkLimit dev endpoint now nowE nowG limits)
    = prepared endpoint nowE nowG limits.
Proof.
  unfold checkLimit, prepared.
  destruct (getOrCreateEntry (endpointKey endpoint) nowE limits)
    as [endpointEntry limits1].
  cbn [fst snd].
  destruct (getOrCreateEntry "global" nowG limits1)
    as [globalEntry limits2].
  cbn [fst snd].
  destruct (blocked endpointEntry); [auto|].
  destruct (blocked globalEntry); [auto|].
  intros [?|?]; discriminate.
Qed.

Lemma checkLimitWithoutIncrement_snd endpoint now nowE nowG
    (limits : gmap string RateLimitEntry) :
  snd (checkLimitWithoutIncrement endpoint now nowE nowG limits)
  = prepared endpoint nowE nowG limits.
Proof.
  unfold checkLimitWithoutIncrement, prepared.
  destruct (getOrCreateEntry (endpointKey endpoint) nowE limits)
    as [endpointEntry limits1].
  cbn [fst snd].
  destruct (getOrCreateEntry "global" nowG limits1)
    as [globalEntry limits2].
  cbn [fst snd].
  destruct (blocked endpointEntry || blocked globalEntry); reflexivity.
Qed.

Lemma checkLimitWithoutIncrement_allowed endpoint now nowE nowG
    (limits : gmap string RateLimitEntry) :
  allowed (fst (checkLimitWithoutIncrement endpoint now nowE nowG limits))
  = negb (blocked (fst (getOrCreateEntry (endpointKey endpoint) nowE limits))
          || blocked (fst (getOrCreateEntry "global" nowG
                             (snd (getOrCreateEntry (endpointKey endpoint)
                                                    nowE limits))))).
Proof.
  unfold checkLimitWithoutIncrement.
  destruct (getOrCreateEntry (endpointKey endpoint) nowE limits)
    as [endpointEntry limits1].
  cbn [fst snd].
  destruct (getOrCreateEntry "global" nowG limits1)
    as [globalEntry limits2].
  cbn [fst snd].
  destruct (blocked endpointEntry || blocked globalEntry); reflexivity.
Qed.

(** The three mutations of [getOrCreateEntry] set no block: an entry that
    is blocked after them was blocked before, and a [blockUntil] they leave
    is the one they found. *)
Lemma mutations_blocks key now entry :
  let entry' := unblockIfDue now (resetBurst now (resetWindow key now entry)) in
  (blocked entry' = true → blocked entry = true)
  ∧ (∀ b, blockUntil entry' = Some b → blockUntil entry = Some b).
Proof.
  unfold unblockIfDue, resetBurst, resetWindow.
  repeat (case_match; simpl in * ); split; try done; intros b; done.
Qed.

Lemma getOrCreateEntry_blocks key now (limits : gmap string RateLimitEntry) :
  let entry' := fst (getOrCreateEntry key now limits) in
  (blocked entry' = true →
   ∃ entry, limits !! key = Some entry ∧ blocked entry = true)
  ∧ (∀ b, blockUntil entry' = Some b →
          ∃ entry, limits !! key = Some entry ∧ blockUntil entry = Some b).
Proof.
  unfold getOrCreateEntry. simpl. destruct (limits !! key) as [entry|].
  - destruct (mutations_blocks key now entry) as [Hb Hu].
    split; [intros H | intros b H]; exists entry; auto.
  - destruct (mutations_blocks key now (newEntry key now)) as [Hb Hu].
    split; [intros H; apply Hb in H | intros b H; apply Hu in H];
      discriminate.
Qed.

(** No entry of the prepared map carries a block that the map the call
    started from does not have. *)
Lemma prepared_blocks endpoint nowE nowG
    (limits : gmap string RateLimitEntry) key entry' :
  prepared endpoint nowE nowG limits !! key = Some entry' →
  (blocked entry' = true →
   ∃ entry, limits !! key = Some entry ∧ blocked entry = true)
  ∧ (∀ b, blockUntil entry' = Some b →
          ∃ entry, limits !! key = Some entry ∧ blockUntil entry = Some b).
Proof.
  unfold prepared. intros H.
  pose proof (endpointKey_not_global endpoint) as Hg.
  destruct (decide (key = "global")) as [->|Hk].
  - rewrite getOrCreateEntry_lookup in H. injection H as <-.
    pose proof (getOrCreateEntry_blocks "global" nowG
                  (snd (getOrCreateEntry (endpointKey endpoint) nowE limits)))
      as Hc.
    rewrite getOrCreateEntry_lookup_ne in Hc by done. exact Hc.
  - rewrite getOrCreateEntry_lookup_ne in H by done.
    destruct (decide (key = endpointKey endpoint)) as [->|Hk'].
    + rewrite getOrCreateEntry_lookup in H. injection H as <-.
      apply getOrCreateEntry_blocks.
    + rewrite getOrCreateEntry_lookup_ne in H by done.
      split; [intros Hb | intros b Hb]; exists entry'; auto.
Qed.

(** C7, as the code has it.  [checkLimitWithoutIncrement] opens with the
    same two [getOrCreateEntry] calls as [checkLimit] and changes nothing
    after them; it rejects exactly when one of the two prepared entries is
    blocked; whenever it rejects, [checkLimit] rejects in the same state
    with the same clock readings; it increments no counter: every [count]
    and [burstCount] it leaves is the value it found or zero; and it sets
    no block: every entry it leaves blocked was blocked when the call
    began, and every [blockUntil] it leaves is the one the call found under
    that key. *)
Theorem checkLimitWithoutIncrement_spec dev endpoint now nowE nowG
    (limits : gmap string RateLimitEntry) :
  let r := checkLimitWithoutIncrement endpoint now nowE nowG limits in
  snd r = prepared endpoint nowE nowG limits
  ∧ (allowed (fst r) = false ↔
     ∃ key entry,
       (key = endpointKey endpoint ∨ key = "global")
       ∧ prepared endpoint nowE nowG limits !! key = Some entry
       ∧ blocked entry = true)
  ∧ (allowed (fst r) = false →
     allowed (fst (checkLimit dev endpoint now nowE nowG limits)) = false)
  ∧ (∀ key entry',
       snd r !! key = Some entry' →
       match limits !! key with
       | Some entry =>
           (count entry' = count entry ∨ count entry' = 0)
           ∧ (burstCount entry' = burstCount entry ∨ burstCount entry' = 0)
       | None => count entry' = 0 ∧ burstCount entry' = 0
       end)
  ∧ (∀ key entry',
       snd r !! key = Some entry' →
       (blocked entry' = true →
        ∃ entry, limits !! key = Some entry ∧ blocked entry = true)
       ∧ (∀ b, blockUntil entry' = Some b →
               ∃ entry, limits !! key = Some entry
                        ∧ blockUntil entry = Some b)).
Proof.
  cbv zeta.
  rewrite checkLimitWithoutIncrement_snd, checkLimitWithoutIncrement_allowed.
  split; [reflexivity|]. split; [|split; [|split]];
    [| | |intros key entry' H; eapply prepared_blocks; exact H].
  - rewrite negb_false_iff, orb_true_iff. split.
    + intros [H|H].
      * eexists (endpointKey endpoint), _.
        split; [auto|]. split; [apply prepared_endpoint | exact H].
      * eexists "global", _.
        split; [auto|]. split; [apply prepared_global | exact H].
    + intros (key & entry & [-> | ->] & Hl & Hb).
      * rewrite prepared_endpoint in Hl. injection Hl as <-. auto.
      * rewrite prepared_global in Hl. injection Hl as <-. auto.
  - rewrite negb_false_iff, orb_true_iff. intros H.
    apply checkLimit_blocked. exact H.
  - intros key entry' H. eapply prepared_counts. exact H.
Qed.

(** C7, as the specification has it, fails: after fifty accepted calls for
    "spotify-albums" (its maximum), [checkLimit] rejects the next call while
    [checkLimitWithoutIncrement] accepts it. *)
Lemma checkLimitWithoutIncrement_accepts_at_max :
  let limits :=
    snd (checkLimits false (replicate 50 (callAt SpotifyAlbums 0)) ∅) in
  allowed (fst (checkLimit false SpotifyAlbums 1000 1000 1000 limits)) = false
  ∧ allowed (fst (checkLimitWithoutIncrement SpotifyAlbums 1000 1000 1000
                                             limits)) = true.
Proof. vm_compute. split; reflexivity. Qed.

(** *** Blocks *)

Lemma mutations_keep_block key now entry until :
  blocked entry = true →
  blockUntil entry = Some until →
  now < until →
  now <= resetTime entry →
  let entry' := unblockIfDue now (resetBurst now (resetWindow key now entry)) in
  blocked entry' = true ∧ blockUntil entry' = Some until
  ∧ resetTime entry' = resetTime entry.
Proof.
  intros Hb Hu Hlt Hle. cbv zeta.
  unfold resetWindow.
  replace (now >? resetTime entry) with false by (symmetry; lia).
  assert (Hrb : blocked (resetBurst now entry) = true
                ∧ blockUntil (resetBurst now entry) = Some until
                ∧ resetTime (resetBurst now entry) = resetTime entry).
  { unfold resetBurst. case_match; simpl; auto. }
  destruct Hrb as (Hb' & Hu' & Hr').
  unfold unblockIfDue, ltBlockUntil, geBlockUntil.
  rewrite Hb', Hu'.
  replace (now <? until) with true by (symmetry; lia).
  replace (now >=? until) with false by (symmetry; lia).
  cbn [andb]. rewrite !andb_true_r, !andb_false_r.
  destruct (truthyNum (Some until)); auto.
Qed.

(** A call writes only under the key of its endpoint and under "global". *)
Lemma checkLimit_frame dev endpoint now nowE nowG
    (limits : gmap string RateLimitEntry) key :
  key ≠ endpointKey endpoint → key ≠ "global" →
  snd (checkLimit dev endpoint now nowE nowG limits) !! key = limits !! key.
Proof.
  intros HkE HkG.
  assert (HP : prepared endpoint nowE nowG limits !! key = limits !! key).
  { unfold prepared. rewrite !getOrCreateEntry_lookup_ne by done. done. }
  revert HP. unfold checkLimit, prepared.
  destruct (getOrCreateEntry (endpointKey endpoint) nowE limits)
    as [endpointEntry limits1].
  cbn [fst snd].
  destruct (getOrCreateEntry "global" nowG limits1)
    as [globalEntry limits2].
  cbn [fst snd]. intros HP.
  repeat (case_match; cbn [fst snd]);
    rewrite ?lookup_insert_ne by done; exact HP.
Qed.

Lemma touches_true key c :
  touches key c = true ↔ key = "global" ∨ key = endpointKey (cEndpoint c).
Proof.
  unfold touches. rewrite orb_true_iff, !String.eqb_eq. reflexivity.
Qed.

(** One call against a blocked counter, inside the block and the window. *)
Lemma checkLimit_blocked_step dev c key entry until
    (limits : gmap string RateLimitEntry) :
  limits !! key = Some entry →
  blocked entry = true →
  blockUntil entry = Some until →
  (touches key c = true →
   readingFor key c < until ∧ readingFor key c <= resetTime entry) →
  (touches key c = true →
   allowed (fst (checkLimit dev (cEndpoint c) (cNow c) (cNowE c) (cNowG c)
                            limits)) = false)
  ∧ ∃ entry',
      snd (checkLimit dev (cEndpoint c) (cNow c) (cNowE c) (cNowG c) limits)
        !! key = Some entry'
      ∧ blocked entry' = true ∧ blockUntil entry' = Some until
      ∧ resetTime entry' = resetTime entry.
Proof.
  intros Hl Hb Hu Ht.
  pose proof (endpointKey_not_global (cEndpoint c)) as Hg.
  destruct (decide (key = "global")) as [->|HkG].
  - assert (Htt : touches "global" c = true) by (apply touches_true; auto).
    specialize (Ht Htt). unfold readingFor in Ht. cbn in Ht.
    destruct Ht as [Hlt Hle].
    assert (HG : fst (getOrCreateEntry "global" (cNowG c)
                        (snd (getOrCreateEntry (endpointKey (cEndpoint c))
                                               (cNowE c) limits)))
                 = unblockIfDue (cNowG c)
                     (resetBurst (cNowG c)
                        (resetWindow "global" (cNowG c) entry))).
    { unfold getOrCreateEntry at 1. cbn [fst].
      rewrite getOrCreateEntry_lookup_ne by done. rewrite Hl. done. }
    pose proof (mutations_keep_block "global" _ _ _ Hb Hu Hlt Hle)
      as (Hb' & Hu' & Hr').
    destruct (checkLimit_blocked dev (cEndpoint c) (cNow c) (cNowE c)
                (cNowG c) limits) as [Ha Hs].
    { right. rewrite HG. exact Hb'. }
    split; [auto|]. rewrite Hs, prepared_global, HG. eauto.
  - destruct (decide (key = endpointKey (cEndpoint c))) as [->|HkE].
    + assert (Htt : touches (endpointKey (cEndpoint c)) c = true)
        by (apply touches_true; auto).
      specialize (Ht Htt). unfold readingFor in Ht.
      replace (String.eqb (endpointKey (cEndpoint c)) "global") with false
        in Ht by (symmetry; by apply String.eqb_neq).
      destruct Ht as [Hlt Hle].
      assert (HE : fst (getOrCreateEntry (endpointKey (cEndpoint c))
                          (cNowE c) limits)
                   = unblockIfDue (cNowE c)
                       (resetBurst (cNowE c)
                          (resetWindow (endpointKey (cEndpoint c)) (cNowE c)
                                       entry))).
      { unfold getOrCreateEntry. cbn [fst]. rewrite Hl. done. }
      pose proof (mutations_keep_block (endpointKey (cEndpoint c)) _ _ _
                    Hb Hu Hlt Hle) as (Hb' & Hu' & Hr').
      destruct (checkLimit_blocked dev (cEndpoint c) (cNow c) (cNowE c)
                  (cNowG c) limits) as [Ha Hs].
      { left. rewrite HE. exact Hb'. }
      split; [auto|]. rewrite Hs, prepared_endpoint, HE. eauto.
    + split.
      * intros Htt. apply touches_true in Htt. tauto.
      * exists entry. rewrite checkLimit_frame by done. auto.
Qed.

Lemma checkLimits_cons dev c calls (limits : gmap string RateLimitEntry) :
  checkLimits dev (c :: calls) limits
  = (fst (checkLimit dev (cEndpoint c) (cNow c) (cNowE c) (cNowG c) limits)
       :: fst (checkLimits dev calls
                 (snd (checkLimit dev (cEndpoint c) (cNow c) (cNowE c)
                                  (cNowG c) limits))),
     snd (checkLimits dev calls
            (snd (checkLimit dev (cEndpoint c) (cNow c) (cNowE c)
                             (cNowG c) limits)))).
Proof.
  cbn [checkLimits].
  destruct (checkLimit dev (cEndpoint c) (cNow c) (cNowE c) (cNowG c) limits)
    as [r limits'].
  cbn [fst snd].
  destruct (checkLimits dev calls limits') as [rs limits'']. reflexivity.
Qed.

Lemma blocked_rejects_calls dev key until resetAt calls :
  ∀ (limits : gmap string RateLimitEntry) entry,
  limits !! key = Some entry →
  blocked entry = true →
  blockUntil entry = Some until →
  resetTime entry = resetAt →
  Forall (λ c, touches key c = true →
               readingFor key c < until ∧ readingFor key c <= resetAt)
         calls →
  ∀ i c r,
    calls !! i = Some c → touches key c = true →
    fst (checkLimits dev calls limits) !! i = Some r →
    allowed r = false.
Proof.
  induction calls as [|c0 calls IH]; intros limits entry Hl Hb Hu Hr HF i c r Hc.
  - rewrite lookup_nil in Hc. discriminate.
  - apply Forall_cons in HF as [H0 HF]. subst resetAt.
    destruct (checkLimit_blocked_step dev c0 key entry until limits Hl Hb Hu H0)
      as [Ha (entry' & Hl' & Hb' & Hu' & Hr')].
    rewrite checkLimits_cons. cbn [fst].
    destruct i as [|i].
    + injection Hc as ->. intros Ht Hres.
      injection Hres as <-. auto.
    + intros Ht Hres.
      exact (IH _ entry' Hl' Hb' Hu' Hr' HF i c r Hc Ht Hres).
Qed.

Lemma window_reset_unblocks key now (limits : gmap string RateLimitEntry)
    entry :
  limits !! key = Some entry →
  now > resetTime entry →
  blocked (fst (getOrCreateEntry key now limits)) = false
  ∧ count (fst (getOrCreateEntry key now limits)) = 0.
Proof.
  intros Hl Hgt. unfold getOrCreateEntry. cbn [fst]. rewrite Hl.
  unfold resetWindow.
  replace (now >? resetTime entry) with true by (symmetry; lia).
  unfold resetBurst. case_match; unfold unblockIfDue; cbn; auto.
Qed.




End RateLimiterSpec.

(** ** Properties of the artist id mapping cache *)

Module ArtistMappingCacheSpec.
Import ArtistMappingCache.

Lemma tableGet_tableSet key m (cache : Table) :
  tableGet key (tableSet key m cache) = Some m.
Proof.
  induction cache as [|[k m'] rest IH]; cbn.
  - by rewrite String.eqb_refl.
  - destruct (String.eqb k key) eqn:Ek; cbn; rewrite Ek; auto.
Qed.

Lemma tableGet_tableSet_ne key key' m (cache : Table) :
  key' ≠ key →
  tableGet key' (tableSet key m cache) = tableGet key' cache.
Proof.
  intros Hne.
  assert (Hne' : String.eqb key key' = false)
    by by apply String.eqb_neq, not_eq_sym.
  induction cache as [|[k m'] rest IH]; cbn.
  - by rewrite Hne'.
  - destruct (String.eqb k key) eqn:Ek; cbn.
    + apply String.eqb_eq in Ek as ->. by rewrite Hne'.
    + by rewrite IH.
Qed.

Lemma tableGet_None key (cache : Table) :
  tableGet key cache = None ↔ key ∉ map fst cache.
Proof.
  induction cache as [|[k m] rest IH]; cbn.
  - split; [intros _; apply not_elem_of_nil | done].
  - rewrite not_elem_of_cons. destruct (String.eqb k key) eqn:Ek.
    + apply String.eqb_eq in Ek as ->. split; [done | tauto].
    + apply String.eqb_neq in Ek. rewrite IH. split; [auto | tauto].
Qed.

Lemma tableSet_keys key m (cache : Table) :
  map fst (tableSet key m cache)
  = match tableGet key cache with
    | Some _ => map fst cache
    | None => map fst cache ++ [key]
    end.
Proof.
  induction cache as [|[k m'] rest IH]; cbn; [done|].
  destruct (String.eqb k key) eqn:Ek; cbn; [done|].
  rewrite IH. by destruct (tableGet key rest).
Qed.

Lemma tableSet_keysDistinct key m (cache : Table) :
  keysDistinct cache → keysDistinct (tableSet key m cache).
Proof.
  unfold keysDistinct. intros Hnd. rewrite tableSet_keys.
  destruct (tableGet key cache) eqn:Eg; [done|].
  apply NoDup_app. split; [done|]. split.
  - intros x Hx Hx'. apply list_elem_of_singleton in Hx'. subst x.
    by apply tableGet_None in Eg.
  - apply NoDup_singleton.
Qed.

(** In a table with distinct keys, the entries stored under a key are the
    one [tableGet] finds. *)
Lemma entries_under_key key m (cache : Table) :
  keysDistinct cache →
  tableGet key cache = Some m →
  List.filter (λ km, String.eqb (fst km) key) cache = [(key, m)].
Proof.
  unfold keysDistinct.
  induction cache as [|[k m'] rest IH]; cbn; [done|].
  intros Hnd. apply NoDup_cons in Hnd as [Hk Hnd].
  destruct (String.eqb k key) eqn:Ek.
  - apply String.eqb_eq in Ek as ->. intros [= ->]. f_equal.
    clear IH Hnd. induction rest as [|[k2 m2] rest IH]; cbn; [done|].
    cbn in Hk. apply not_elem_of_cons in Hk as [Hne Hk].
    apply not_eq_sym, String.eqb_neq in Hne. rewrite Hne. auto.
  - auto.
Qed.

Lemma tableGet_tableDelete key (cache : Table) :
  tableGet key (tableDelete key cache) = None.
Proof.
  unfold tableDelete.
  induction cache as [|[k m] rest IH]; cbn; [done|].
  destruct (String.eqb k key) eqn:Ek; cbn; [done|]. by rewrite Ek.
Qed.

Lemma tableGet_tableDelete_ne key key' (cache : Table) :
  key' ≠ key →
  tableGet key' (tableDelete key cache) = tableGet key' cache.
Proof.
  intros Hne. unfold tableDelete.
  induction cache as [|[k m] rest IH]; cbn; [done|].
  destruct (String.eqb k key) eqn:Ek; cbn.
  - apply String.eqb_eq in Ek as ->.
    apply not_eq_sym, String.eqb_neq in Hne. by rewrite Hne.
  - by rewrite IH.
Qed.

(** *** [setMapping] *)

Lemma setMapping_lookup data now (cache : Table) :
  tableGet (dUnifiedId data) (setMapping data now cache)
  = Some {| unifiedId := dUnifiedId data;
            spotifyId := orStr (dSpotifyId data)
                           (tableGet (dUnifiedId data) cache ≫= spotifyId);
            spotifyName := orStr (dSpotifyName data)
                             (tableGet (dUnifiedId data) cache ≫= spotifyName);
            lastFmName := orStr (dLastFmName data)
                            (tableGet (dUnifiedId data) cache ≫= lastFmName);
            lastUpdated := now |}.
Proof. unfold setMapping. apply tableGet_tableSet. Qed.

Lemma orStr_supplied (s : string) (o : option string) :
  s ≠ "" → orStr (Some s) o = Some s.
Proof.
  intros Hs. unfold orStr, truthyStr.
  by apply String.eqb_neq in Hs as ->.
Qed.

Lemma orStr_kept (a o : option string) :
  truthyStr a = false → orStr a o = o.
Proof. intros H. unfold orStr. by rewrite H. Qed.

(** C9.  [setMapping] leaves exactly one mapping under the unified id (in a
    table whose keys are distinct, as those of a [Map] are), with
    [lastUpdated] set to the time of the call; a field that the call
    supplies non-empty takes the supplied value, a field that the call omits
    or supplies empty keeps the value of the mapping that was there; the
    mappings under other ids are untouched.  In particular a call that
    supplies only the Spotify id followed by a call for the same id that
    supplies only the Last.fm name leaves one mapping that has both. *)
Theorem setMapping_merges (cache : Table) :
  keysDistinct cache →
  (∀ data now,
     let cache' := setMapping data now cache in
     keysDistinct cache'
     ∧ (∃ m, List.filter (λ km, String.eqb (fst km) (dUnifiedId data)) cache'
              = [(dUnifiedId data, m)]
             ∧ tableGet (dUnifiedId data) cache' = Some m
             ∧ unifiedId m = dUnifiedId data
             ∧ lastUpdated m = now
             ∧ (∀ s, dSpotifyId data = Some s → s ≠ "" → spotifyId m = Some s)
             ∧ (∀ s, dSpotifyName data = Some s → s ≠ "" →
                     spotifyName m = Some s)
             ∧ (∀ s, dLastFmName data = Some s → s ≠ "" →
                     lastFmName m = Some s)
             ∧ (∀ old, tableGet (dUnifiedId data) cache = Some old →
                  (truthyStr (dSpotifyId data) = false →
                   spotifyId m = spotifyId old)
                  ∧ (truthyStr (dSpotifyName data) = false →
                     spotifyName m = spotifyName old)
                  ∧ (truthyStr (dLastFmName data) = false →
                     lastFmName m = lastFmName old)))
     ∧ (∀ key, key ≠ dUnifiedId data →
               tableGet key cache' = tableGet key cache))
  ∧ (∀ x a b t1 t2,
       a ≠ "" → b ≠ "" →
       let cache2 :=
         setMapping {| dUnifiedId := x; dSpotifyId := None;
                       dSpotifyName := None; dLastFmName := Some b |} t2
           (setMapping {| dUnifiedId := x; dSpotifyId := Some a;
                          dSpotifyName := None; dLastFmName := None |} t1
                       cache) in
       ∃ m, List.filter (λ km, String.eqb (fst km) x) cache2 = [(x, m)]
            ∧ spotifyId m = Some a ∧ lastFmName m = Some b
            ∧ lastUpdated m = t2).
Proof.
  intros Hnd. split.
  - intros data now cache'.
    assert (Hnd' : keysDistinct cache') by by apply tableSet_keysDistinct.
    split; [done|]. split.
    + eexists. split; [|split; [apply setMapping_lookup|]].
      { apply entries_under_key; [done | apply setMapping_lookup]. }
      cbn. split; [done|]. split; [done|].
      split; [|split; [|split]].
      * intros s -> Hs. by apply orStr_supplied.
      * intros s -> Hs. by apply orStr_supplied.
      * intros s -> Hs. by apply orStr_supplied.
      * intros old ->. cbn.
        split; [|split]; intros H; by rewrite orStr_kept.
    + intros key Hne. unfold cache', setMapping.
      by apply tableGet_tableSet_ne.
  - intros x a b t1 t2 Ha Hb cache2.
    pose proof (setMapping_lookup
                  {| dUnifiedId := x; dSpotifyId := None;
                     dSpotifyName := None; dLastFmName := Some b |} t2
                  (setMapping {| dUnifiedId := x; dSpotifyId := Some a;
                                 dSpotifyName := None; dLastFmName := None |}
                              t1 cache)) as Hl.
    cbn [dUnifiedId dSpotifyId dSpotifyName dLastFmName] in Hl.
    pose proof (setMapping_lookup
                  {| dUnifiedId := x; dSpotifyId := Some a;
                     dSpotifyName := None; dLastFmName := None |} t1 cache)
      as Hl1.
    cbn [dUnifiedId dSpotifyId dSpotifyName dLastFmName] in Hl1.
    rewrite Hl1 in Hl. cbn [mbind option_bind spotifyId lastFmName] in Hl.
    eexists. split.
    { apply entries_under_key; [|exact Hl].
      unfold cache2. by do 2 apply tableSet_keysDistinct. }
    cbn [spotifyId lastFmName lastUpdated].
    split; [|split; [|done]].
    + rewrite orStr_kept by done. by apply orStr_supplied.
    + by apply orStr_supplied.
Qed.

Lemma setMapping_merges_witness :
  ∃ m, List.filter (λ km, String.eqb (fst km) "x")
         (setMapping {| dUnifiedId := "x"; dSpotifyId := None;
                        dSpotifyName := None; dLastFmName := Some "2" |} 20
            (setMapping {| dUnifiedId := "x"; dSpotifyId := Some "1";
                           dSpotifyName := None; dLastFmName := None |} 10
                        []))
       = [("x", m)]
       ∧ spotifyId m = Some "1" ∧ lastFmName m = Some "2"
       ∧ lastUpdated m = 20.
Proof.
  refine (proj2 (setMapping_merges [] _) "x" "1" "2" 10 20 _ _).
  - unfold keysDistinct. cbn. apply NoDup_nil_2.
  - discriminate.
  - discriminate.
Defined.

(** *** Reads *)

Lemma find_filter_implied {A} (f g : A → bool) (l : list A) :
  (∀ x, f x = true → g x = true) →
  List.find f (List.filter g l) = List.find f l.
Proof.
  intros Hfg. induction l as [|x l IH]; cbn; [done|].
  destruct (f x) eqn:Ef.
  - rewrite (Hfg x Ef). cbn. by rewrite Ef.
  - destruct (g x); cbn; rewrite ?Ef; exact IH.
Qed.

Lemma getByUnifiedId_fresh id now (cache : Table) m :
  fst (getByUnifiedId id now cache) = Some m →
  tableGet id cache = Some m ∧ now - lastUpdated m <= TTL.
Proof.
  unfold getByUnifiedId. destruct (tableGet id cache) as [m'|]; [|done].
  destruct (now - lastUpdated m' >? TTL) eqn:Eg; cbn; [done|].
  intros [= ->]. split; [done | lia].
Qed.

Lemma getBySpotifyId_fresh id now (cache : Table) m :
  fst (getBySpotifyId id now cache) = Some m →
  spotifyId m = Some id ∧ now - lastUpdated m <= TTL.
Proof.
  unfold getBySpotifyId. cbn [fst].
  destruct (List.find _ cache) as [[k m']|] eqn:Ef; [|done].
  cbn. intros [= ->]. apply find_some in Ef as [_ Ef]. cbn in Ef.
  apply andb_true_iff in Ef as [Eid Eage]. split; [|lia].
  unfold eqOptStr in Eid. destruct (spotifyId m); [|done].
  by apply String.eqb_eq in Eid as ->.
Qed.

Lemma getByLastFmName_fresh toLowerCase name now (cache : Table) m :
  fst (getByLastFmName toLowerCase name now cache) = Some m →
  toLowerCase <$> lastFmName m = Some (toLowerCase name)
  ∧ now - lastUpdated m <= TTL.
Proof.
  unfold getByLastFmName. cbn [fst].
  destruct (List.find _ cache) as [[k m']|] eqn:Ef; [|done].
  cbn. intros [= ->]. apply find_some in Ef as [_ Ef]. cbn in Ef.
  apply andb_true_iff in Ef as [Eid Eage]. split; [|lia].
  unfold eqOptStr in Eid. destruct (lastFmName m); [|done].
  cbn in *. by apply String.eqb_eq in Eid as ->.
Qed.

(** C8, as the code has it.  None of the three reads returns a mapping
    older than [TTL].  [getByUnifiedId] answers [null] for a mapping older
    than [TTL], as it does for an id that is not in the table, and deletes
    that mapping.  [getBySpotifyId] and [getByLastFmName] answer what they
    would answer on the table without its expired mappings, and leave the
    table as it is.  A mapping written at [t] is returned by
    [getByUnifiedId] one second before [t + TTL] and is absent, and
    deleted, one second after. *)
Theorem reads_respect_TTL (toLowerCase : string → string) (cache : Table)
    (now : Z) :
  (∀ id m,
     (fst (getByUnifiedId id now cache) = Some m
      ∨ fst (getBySpotifyId id now cache) = Some m
      ∨ fst (getByLastFmName toLowerCase id now cache) = Some m) →
     now - lastUpdated m <= TTL)
  ∧ (∀ id, tableGet id cache = None →
           getByUnifiedId id now cache = (None, cache))
  ∧ (∀ id m, tableGet id cache = Some m → now - lastUpdated m > TTL →
             getByUnifiedId id now cache = (None, tableDelete id cache)
             ∧ tableGet id (tableDelete id cache) = None
             ∧ ∀ key, key ≠ id →
                 tableGet key (tableDelete id cache) = tableGet key cache)
  ∧ (∀ id,
       getBySpotifyId id now cache
       = (fst (getBySpotifyId id now (cleanup now cache)), cache)
       ∧ getByLastFmName toLowerCase id now cache
         = (fst (getByLastFmName toLowerCase id now (cleanup now cache)),
            cache))
  ∧ (∀ data,
       let written := setMapping data now cache in
       (∃ m, getByUnifiedId (dUnifiedId data) (now + TTL - 1000) written
             = (Some m, written)
             ∧ lastUpdated m = now)
       ∧ getByUnifiedId (dUnifiedId data) (now + TTL + 1000) written
         = (None, tableDelete (dUnifiedId data) written)).
Proof.
  split; [|split; [|split; [|split]]].
  - intros id m [H|[H|H]].
    + by apply getByUnifiedId_fresh in H as [_ H].
    + by apply getBySpotifyId_fresh in H as [_ H].
    + by apply getByLastFmName_fresh in H as [_ H].
  - intros id H. unfold getByUnifiedId. by rewrite H.
  - intros id m Hg Hage. unfold getByUnifiedId. rewrite Hg.
    replace (now - lastUpdated m >? TTL) with true by (symmetry; lia).
    split; [done|]. split; [apply tableGet_tableDelete|].
    intros key Hne. by apply tableGet_tableDelete_ne.
  - intros id. unfold getBySpotifyId, getByLastFmName, cleanup. cbn [fst].
    split; f_equal; f_equal; symmetry; apply find_filter_implied;
      intros [k m] Hx; cbn in *; apply andb_true_iff in Hx as [_ Hx];
      apply negb_true_iff; lia.
  - intros data written. unfold getByUnifiedId, written.
    rewrite setMapping_lookup. cbn [lastUpdated].
    replace (now + TTL - 1000 - now >? TTL) with false
      by (symmetry; unfold TTL; lia).
    replace (now + TTL + 1000 - now >? TTL) with true
      by (symmetry; unfold TTL; lia).
    split; [|done]. eexists. split; [reflexivity | done].
Qed.

(** C8, as the specification has it, fails for the two lookups by
    secondary key: they pass over an expired mapping without deleting it. *)
Lemma secondary_reads_do_not_evict :
  let stale := {| spotifyId := Some "s1"; spotifyName := None;
                  lastFmName := Some "name"; unifiedId := "x";
                  lastUpdated := 0 |} in
  let cache := [("x", stale)] in
  let now := TTL + 1000 in
  now - lastUpdated stale > TTL
  ∧ getBySpotifyId "s1" now cache = (None, cache)
  ∧ getByLastFmName lowerAscii "Name" now cache = (None, cache)
  ∧ tableGet "x" (snd (getBySpotifyId "s1" now cache)) = Some stale
  ∧ tableGet "x" (snd (getByLastFmName lowerAscii "Name" now cache))
    = Some stale.
Proof. cbv zeta. split; [unfold TTL; cbn; lia|]. vm_compute. auto. Qed.

End ArtistMappingCacheSpec.

(** ** Properties of the stale-while-revalidate cache *)

Module SWRCacheSpec.
Import SWRCache.

Section Generic.
Context {T E : Type}.
Implicit Types (s : State T E) (o : Settled T E) (t : Task T E).

(** Case analysis on a lookup in a map after an insertion. *)
Local Ltac insert_cases H i j :=
  destruct (decide (i = j)) as [->|];
  [rewrite lookup_insert_eq in H; injection H as <-
  |rewrite lookup_insert_ne in H by done].

(** *** The bookkeeping invariant *)

Lemma wf_init : wf (@init T E).
Proof. split; cbn; intros *; rewrite ?lookup_empty; done. Qed.

Lemma wf_withCache c s : wf s → wf (withCache c s).
Proof. intros []. split; auto. Qed.

Lemma wf_resolveWith id r s :
  wf s → (id < nextId s)%nat → wf (resolveWith id r s).
Proof.
  intros [] Hid. split; auto. cbn. intros id' r' H.
  destruct (decide (id' = id)) as [->|]; [done|].
  rewrite lookup_insert_ne in H by done. eauto.
Qed.

Lemma settledWith_snoc p f s o :
  settledWith p s = Some o →
  (f' ← (fetches s ++ [f]) !! p; fState f') = Some o.
Proof.
  unfold settledWith. destruct (fetches s !! p) as [f0|] eqn:Hp; [|done].
  by rewrite (lookup_app_l_Some _ _ _ _ Hp).
Qed.

Lemma wf_awaitFetch id key revalidator k s :
  wf s → tasks s !! id = None → (id < nextId s)%nat →
  wf (awaitFetch id key revalidator k s).
Proof.
  intros [Hpend Hown Huniq Hfet Htid Hrid] Hfresh Hid.
  unfold awaitFetch, executeFetch.
  destruct (revalidationPromises s !! key) as [p|] eqn:Hm; cbn.
  - split; cbn; auto.
    + intros id' t H Hph. insert_cases H id' id; [done | eauto].
    + intros id1 id2 t1 t2 H1 H2 Hp1 Hp2.
      insert_cases H1 id1 id; [done|].
      insert_cases H2 id2 id; [done | eauto].
    + intros id' t o H Hph. insert_cases H id' id; [done | eauto].
    + intros id' t H. insert_cases H id' id; [done | eauto].
  - split; cbn.
    + intros p f H Hst. apply lookup_snoc_Some in H as [[Hlt H]|[-> <-]].
      * pose proof (Hpend _ _ H Hst) as Hreg.
        rewrite lookup_insert_ne; [done|]. intros Hk. congruence.
      * cbn. apply lookup_insert_eq.
    + intros id' t H Hph. insert_cases H id' id.
      * cbn. apply lookup_insert_eq.
      * pose proof (Hown _ _ H Hph) as Hreg.
        rewrite lookup_insert_ne; [done|]. intros Hk. congruence.
    + intros id1 id2 t1 t2 H1 H2 Hp1 Hp2 Hk.
      insert_cases H1 id1 id; insert_cases H2 id2 id; cbn in *.
      * done.
      * pose proof (Hown _ _ H2 Hp2) as Hreg. congruence.
      * pose proof (Hown _ _ H1 Hp1) as Hreg. congruence.
      * eauto.
    + intros id' t o H Hph. insert_cases H id' id; [done|].
      unfold settledWith. cbn. apply settledWith_snoc. eauto.
    + intros id' t H. insert_cases H id' id; [done | eauto].
    + auto.
Qed.

Lemma wf_get key contentType revalidator now s :
  wf s → wf (get key contentType revalidator now s).
Proof.
  intros Hwf. unfold get.
  set (s0 := {| cache := cache s;
                revalidationPromises := revalidationPromises s;
                fetches := fetches s; tasks := tasks s;
                returned := returned s; nextId := S (nextId s) |}).
  assert (Hwf0 : wf s0).
  { destruct Hwf as [Hpend Hown Huniq Hfet Htid Hrid].
    split; cbn; auto.
    - intros id t H. apply Htid in H. lia.
    - intros id r H. apply Hrid in H. lia. }
  assert (Hfresh : tasks s0 !! nextId s = None).
  { cbn. destruct (tasks s !! nextId s) as [t|] eqn:H; [|done].
    apply (wf_task_id _ Hwf) in H. lia. }
  assert (Hid : (nextId s < nextId s0)%nat) by (cbn; lia).
  destruct (cache s0 !! key) as [entry|].
  - destruct (now - createdAt entry >? staleTTL (CONFIG contentType)).
    { by apply wf_awaitFetch. }
    destruct (now - createdAt entry <=? freshTTL (CONFIG contentType)).
    { by apply wf_resolveWith. }
    destruct (negb (isRevalidating entry)).
    + apply wf_resolveWith.
      * unfold triggerBackgroundRevalidation. apply wf_awaitFetch.
        -- by apply wf_withCache.
        -- done.
        -- done.
      * unfold triggerBackgroundRevalidation, awaitFetch, executeFetch.
        cbn. by destruct (revalidationPromises s !! key).
    + by apply wf_resolveWith.
  - by apply wf_awaitFetch.
Qed.

Lemma wf_settle p o s : wf s → wf (settle p o s).
Proof.
  intros Hwf. unfold settle.
  destruct (fetches s !! p) as [f|] eqn:Hp; [|done].
  destruct (fState f) eqn:Hst; [done|].
  destruct Hwf as [Hpend Hown Huniq Hfet Htid Hrid].
  split; cbn; auto.
  - intros p' f' H Hst'.
    apply list_lookup_insert_Some in H as [(-> & <- & _)|[Hne H]]; [done|].
    eauto.
  - intros id t o' H Hph. specialize (Hfet _ _ _ H Hph).
    unfold settledWith in *. cbn.
    destruct (decide (p = tPromise t)) as [->|Hne].
    + rewrite Hp in Hfet. cbn in Hfet. congruence.
    + by rewrite list_lookup_insert_ne.
Qed.

Lemma wf_complete id key k o now s :
  wf s → (id < nextId s)%nat → wf (complete id key k o now s).
Proof.
  intros Hwf Hid. unfold complete.
  destruct k, o; auto using wf_resolveWith, wf_withCache.
Qed.

Lemma wf_resume id now s : wf s → wf (resume id now s).
Proof.
  intros Hwf. unfold resume.
  destruct (tasks s !! id) as [t|] eqn:Ht; [|done].
  pose proof Hwf as [Hpend Hown Huniq Hfet Htid Hrid].
  destruct (tPhase t) as [role|o] eqn:Hph.
  - destruct (settledWith (tPromise t) s) as [o|] eqn:Hs; [|done].
    split; cbn.
    + intros p f H Hst. specialize (Hpend _ _ H Hst).
      destruct role; [|done].
      rewrite lookup_delete_ne; [done|]. intros Hk.
      specialize (Hown _ _ Ht Hph). rewrite Hk, Hpend in Hown.
      injection Hown as ->. unfold settledWith in Hs. rewrite H in Hs.
      cbn in Hs. congruence.
    + intros id' t' H Hph'. insert_cases H id' id; [done|].
      specialize (Hown _ _ H Hph').
      destruct role; [|done].
      rewrite lookup_delete_ne; [done|]. intros Hk.
      by specialize (Huniq _ _ _ _ Ht H Hph Hph' Hk).
    + intros id1 id2 t1 t2 H1 H2 Hp1 Hp2.
      insert_cases H1 id1 id; [done|].
      insert_cases H2 id2 id; [done|]. eauto.
    + intros id' t' o' H Hph'. unfold settledWith. cbn.
      insert_cases H id' id.
      * cbn in *. by injection Hph' as <-.
      * by apply (Hfet _ _ _ H).
    + intros id' t' H. insert_cases H id' id; eauto.
    + auto.
  - apply wf_complete; [|cbn; eauto].
    split; cbn; auto.
    + intros id' t' H. apply lookup_delete_Some in H as [_ H]. eauto.
    + intros id1 id2 t1 t2 H1 H2.
      apply lookup_delete_Some in H1 as [_ H1].
      apply lookup_delete_Some in H2 as [_ H2]. eauto.
    + intros id' t' o' H. apply lookup_delete_Some in H as [_ H].
      by apply (Hfet _ _ _ H).
    + intros id' t' H. apply lookup_delete_Some in H as [_ H]. eauto.
Qed.

Lemma wf_step s ev : wf s → wf (step s ev).
Proof.
  intros Hwf. destruct ev; cbn.
  - by apply wf_get.
  - by apply wf_withCache.
  - by apply wf_withCache.
  - by apply wf_settle.
  - by apply wf_resume.
Qed.

Lemma wf_run evs : ∀ s, wf s → wf (run evs s).
Proof.
  induction evs as [|ev evs IH]; intros s Hwf; [done|].
  cbn. apply IH. by apply wf_step.
Qed.

Lemma reachable_wf s : reachable s → wf s.
Proof. intros [evs ->]. apply wf_run, wf_init. Qed.

(** *** Single flight *)

Lemma inFlight_registered s key p :
  wf s → inFlight key p s → revalidationPromises s !! key = Some p.
Proof.
  intros Hwf (f & Hf & <- & Hst). by apply (wf_pending _ Hwf).
Qed.

Lemma single_flight_wf s key p1 p2 :
  wf s → inFlight key p1 s → inFlight key p2 s → p1 = p2.
Proof.
  intros Hwf H1 H2.
  apply (inFlight_registered _ _ _ Hwf) in H1, H2. congruence.
Qed.

(** [executeFetch] invokes the revalidator only when no promise is
    registered for the key. *)
Lemma executeFetch_joins key revalidator s p :
  revalidationPromises s !! key = Some p →
  executeFetch key revalidator s = (Joiner, p, s).
Proof. intros H. unfold executeFetch. by rewrite H. Qed.

(** *** The paths of [get], one equation each *)

Lemma get_miss_owns key contentType revalidator now s :
  cache s !! key = None →
  revalidationPromises s !! key = None →
  get key contentType revalidator now s
  = {| cache := cache s;
       revalidationPromises :=
         <[key := length (fetches s)]> (revalidationPromises s);
       fetches := fetches s ++
                  [{| fKey := key; fRevalidator := revalidator;
                      fState := None |}];
       tasks := <[nextId s := {| tKey := key;
                                 tPromise := length (fetches s);
                                 tPhase := Fetching Owner;
                                 tCont := GetCont contentType now |}]>
                  (tasks s);
       returned := returned s;
       nextId := S (nextId s) |}.
Proof.
  intros Hc Hm. unfold get. cbn [cache]. rewrite Hc.
  unfold awaitFetch, executeFetch. cbn [revalidationPromises].
  by rewrite Hm.
Qed.

Lemma get_miss_joins key contentType revalidator now s p :
  cache s !! key = None →
  revalidationPromises s !! key = Some p →
  get key contentType revalidator now s
  = {| cache := cache s;
       revalidationPromises := revalidationPromises s;
       fetches := fetches s;
       tasks := <[nextId s := {| tKey := key; tPromise := p;
                                 tPhase := Fetching Joiner;
                                 tCont := GetCont contentType now |}]>
                  (tasks s);
       returned := returned s;
       nextId := S (nextId s) |}.
Proof.
  intros Hc Hm. unfold get. cbn [cache]. rewrite Hc.
  unfold awaitFetch, executeFetch. cbn [revalidationPromises].
  by rewrite Hm.
Qed.

Lemma fresh_le_stale contentType :
  freshTTL (CONFIG contentType) <= staleTTL (CONFIG contentType).
Proof. destruct contentType; cbn; lia. Qed.

Lemma get_fresh key contentType revalidator now s entry :
  cache s !! key = Some entry →
  now - createdAt entry <= freshTTL (CONFIG contentType) →
  get key contentType revalidator now s
  = {| cache := cache s;
       revalidationPromises := revalidationPromises s;
       fetches := fetches s;
       tasks := tasks s;
       returned := <[nextId s := inl {| resData := data entry;
                                        isStale := false;
                                        source := FromCache |}]>
                     (returned s);
       nextId := S (nextId s) |}.
Proof.
  intros Hc Hage. unfold get. cbn [cache]. rewrite Hc.
  pose proof (fresh_le_stale contentType).
  replace (now - createdAt entry >? staleTTL (CONFIG contentType))
    with false by (symmetry; lia).
  replace (now - createdAt entry <=? freshTTL (CONFIG contentType))
    with true by (symmetry; lia).
  reflexivity.
Qed.

Lemma get_stale_revalidating key contentType revalidator now s entry :
  cache s !! key = Some entry →
  freshTTL (CONFIG contentType) < now - createdAt entry
  <= staleTTL (CONFIG contentType) →
  isRevalidating entry = true →
  get key contentType revalidator now s
  = {| cache := cache s;
       revalidationPromises := revalidationPromises s;
       fetches := fetches s;
       tasks := tasks s;
       returned := <[nextId s := inl {| resData := data entry;
                                        isStale := true;
                                        source := FromCache |}]>
                     (returned s);
       nextId := S (nextId s) |}.
Proof.
  intros Hc Hage Hrev. unfold get. cbn [cache]. rewrite Hc.
  replace (now - createdAt entry >? staleTTL (CONFIG contentType))
    with false by (symmetry; lia).
  replace (now - createdAt entry <=? freshTTL (CONFIG contentType))
    with false by (symmetry; lia).
  rewrite Hrev. reflexivity.
Qed.

Lemma get_stale_joins key contentType revalidator now s entry p :
  cache s !! key = Some entry →
  freshTTL (CONFIG contentType) < now - createdAt entry
  <= staleTTL (CONFIG contentType) →
  isRevalidating entry = false →
  revalidationPromises s !! key = Some p →
  get key contentType revalidator now s
  = {| cache := alter (markRevalidating true) key (cache s);
       revalidationPromises := revalidationPromises s;
       fetches := fetches s;
       tasks := <[nextId s := {| tKey := key; tPromise := p;
                                 tPhase := Fetching Joiner;
                                 tCont := BackgroundCont contentType |}]>
                  (tasks s);
       returned := <[nextId s := inl {| resData := data entry;
                                        isStale := true;
                                        source := FromCache |}]>
                     (returned s);
       nextId := S (nextId s) |}.
Proof.
  intros Hc Hage Hrev Hm. unfold get. cbn [cache]. rewrite Hc.
  replace (now - createdAt entry >? staleTTL (CONFIG contentType))
    with false by (symmetry; lia).
  replace (now - createdAt entry <=? freshTTL (CONFIG contentType))
    with false by (symmetry; lia).
  rewrite Hrev. cbn [negb].
  unfold triggerBackgroundRevalidation, awaitFetch, executeFetch.
  cbn [revalidationPromises withCache]. by rewrite Hm.
Qed.

Lemma get_stale_owns key contentType revalidator now s entry :
  cache s !! key = Some entry →
  freshTTL (CONFIG contentType) < now - createdAt entry
  <= staleTTL (CONFIG contentType) →
  isRevalidating entry = false →
  revalidationPromises s !! key = None →
  get key contentType revalidator now s
  = {| cache := alter (markRevalidating true) key (cache s);
       revalidationPromises :=
         <[key := length (fetches s)]> (revalidationPromises s);
       fetches := fetches s ++
                  [{| fKey := key; fRevalidator := revalidator;
                      fState := None |}];
       tasks := <[nextId s := {| tKey := key;
                                 tPromise := length (fetches s);
                                 tPhase := Fetching Owner;
                                 tCont := BackgroundCont contentType |}]>
                  (tasks s);
       returned := <[nextId s := inl {| resData := data entry;
                                        isStale := true;
                                        source := FromCache |}]>
                     (returned s);
       nextId := S (nextId s) |}.
Proof.
  intros Hc Hage Hrev Hm. unfold get. cbn [cache]. rewrite Hc.
  replace (now - createdAt entry >? staleTTL (CONFIG contentType))
    with false by (symmetry; lia).
  replace (now - createdAt entry <=? freshTTL (CONFIG contentType))
    with false by (symmetry; lia).
  rewrite Hrev. cbn [negb].
  unfold triggerBackgroundRevalidation, awaitFetch, executeFetch.
  cbn [revalidationPromises withCache]. by rewrite Hm.
Qed.

Lemma get_expired_owns key contentType revalidator now s entry :
  cache s !! key = Some entry →
  now - createdAt entry > staleTTL (CONFIG contentType) →
  revalidationPromises s !! key = None →
  get key contentType revalidator now s
  = {| cache := cache s;
       revalidationPromises :=
         <[key := length (fetches s)]> (revalidationPromises s);
       fetches := fetches s ++
                  [{| fKey := key; fRevalidator := revalidator;
                      fState := None |}];
       tasks := <[nextId s := {| tKey := key;
                                 tPromise := length (fetches s);
                                 tPhase := Fetching Owner;
                                 tCont := GetCont contentType now |}]>
                  (tasks s);
       returned := returned s;
       nextId := S (nextId s) |}.
Proof.
  intros Hc Hage Hm. unfold get. cbn [cache]. rewrite Hc.
  replace (now - createdAt entry >? staleTTL (CONFIG contentType))
    with true by (symmetry; lia).
  unfold awaitFetch, executeFetch. cbn [revalidationPromises].
  by rewrite Hm.
Qed.

Lemma get_expired_joins key contentType revalidator now s entry p :
  cache s !! key = Some entry →
  now - createdAt entry > staleTTL (CONFIG contentType) →
  revalidationPromises s !! key = Some p →
  get key contentType revalidator now s
  = {| cache := cache s;
       revalidationPromises := revalidationPromises s;
       fetches := fetches s;
       tasks := <[nextId s := {| tKey := key; tPromise := p;
                                 tPhase := Fetching Joiner;
                                 tCont := GetCont contentType now |}]>
                  (tasks s);
       returned := returned s;
       nextId := S (nextId s) |}.
Proof.
  intros Hc Hage Hm. unfold get. cbn [cache]. rewrite Hc.
  replace (now - createdAt entry >? staleTTL (CONFIG contentType))
    with true by (symmetry; lia).
  unfold awaitFetch, executeFetch. cbn [revalidationPromises].
  by rewrite Hm.
Qed.

(** The path [get] takes, and what every path has in common: the call
    takes the next number, touches [tasks] and [returned] under that number
    only, and keeps the promises that have settled. *)
Lemma get_frame key contentType revalidator now s :
  let s' := get key contentType revalidator now s in
  nextId s' = S (nextId s)
  ∧ (∀ id, id ≠ nextId s →
           tasks s' !! id = tasks s !! id
           ∧ returned s' !! id = returned s !! id)
  ∧ (∀ p o, settledWith p s = Some o → settledWith p s' = Some o).
Proof.
  cbv zeta.
  destruct (cache s !! key) as [entry|] eqn:Hc;
    destruct (revalidationPromises s !! key) as [p0|] eqn:Hm.
  - destruct (decide (now - createdAt entry
                      > staleTTL (CONFIG contentType))) as [Hx|Hx].
    { rewrite (get_expired_joins _ _ _ _ _ _ _ Hc Hx Hm). cbn.
      split; [done|]. split; [|done].
      intros id Hid. by rewrite lookup_insert_ne. }
    destruct (decide (now - createdAt entry
                      <= freshTTL (CONFIG contentType))) as [Hf|Hf].
    { rewrite (get_fresh _ _ _ _ _ _ Hc Hf). cbn.
      split; [done|]. split; [|done].
      intros id Hid. by rewrite lookup_insert_ne. }
    assert (Hst : freshTTL (CONFIG contentType) < now - createdAt entry
                  <= staleTTL (CONFIG contentType)) by lia.
    destruct (isRevalidating entry) eqn:Hrev.
    + rewrite (get_stale_revalidating _ _ _ _ _ _ Hc Hst Hrev). cbn.
      split; [done|]. split; [|done].
      intros id Hid. by rewrite lookup_insert_ne.
    + rewrite (get_stale_joins _ _ _ _ _ _ _ Hc Hst Hrev Hm). cbn.
      split; [done|]. split; [|done].
      intros id Hid. by rewrite !lookup_insert_ne.
  - destruct (decide (now - createdAt entry
                      > staleTTL (CONFIG contentType))) as [Hx|Hx].
    { rewrite (get_expired_owns _ _ _ _ _ _ Hc Hx Hm). cbn.
      split; [done|]. split.
      - intros id Hid. by rewrite lookup_insert_ne.
      - intros p o. apply settledWith_snoc. }
    destruct (decide (now - createdAt entry
                      <= freshTTL (CONFIG contentType))) as [Hf|Hf].
    { rewrite (get_fresh _ _ _ _ _ _ Hc Hf). cbn.
      split; [done|]. split; [|done].
      intros id Hid. by rewrite lookup_insert_ne. }
    assert (Hst : freshTTL (CONFIG contentType) < now - createdAt entry
                  <= staleTTL (CONFIG contentType)) by lia.
    destruct (isRevalidating entry) eqn:Hrev.
    + rewrite (get_stale_revalidating _ _ _ _ _ _ Hc Hst Hrev). cbn.
      split; [done|]. split; [|done].
      intros id Hid. by rewrite lookup_insert_ne.
    + rewrite (get_stale_owns _ _ _ _ _ _ Hc Hst Hrev Hm). cbn.
      split; [done|]. split.
      * intros id Hid. by rewrite !lookup_insert_ne.
      * intros p o. apply settledWith_snoc.
  - rewrite (get_miss_joins _ _ _ _ _ _ Hc Hm). cbn.
    split; [done|]. split; [|done].
    intros id Hid. by rewrite lookup_insert_ne.
  - rewrite (get_miss_owns _ _ _ _ _ Hc Hm). cbn.
    split; [done|]. split.
    + intros id Hid. by rewrite lookup_insert_ne.
    + intros p o. apply settledWith_snoc.
Qed.

(** *** Settlement and turns *)

Lemma settle_keeps p o s p' o' :
  settledWith p' s = Some o' → settledWith p' (settle p o s) = Some o'.
Proof.
  unfold settle. destruct (fetches s !! p) as [f|] eqn:Hp; [|done].
  destruct (fState f) eqn:Hst; [done|].
  unfold settledWith. cbn. intros H.
  destruct (decide (p = p')) as [->|].
  - rewrite Hp in H. cbn in H. congruence.
  - by rewrite list_lookup_insert_ne.
Qed.

Lemma settle_pending p o s f :
  fetches s !! p = Some f → fState f = None →
  settledWith p (settle p o s) = Some o.
Proof.
  intros Hp Hst. unfold settle. rewrite Hp, Hst.
  unfold settledWith. cbn.
  rewrite list_lookup_insert_eq; [done | by eapply lookup_lt_Some].
Qed.

Lemma settle_frame p o s :
  cache (settle p o s) = cache s
  ∧ revalidationPromises (settle p o s) = revalidationPromises s
  ∧ tasks (settle p o s) = tasks s
  ∧ returned (settle p o s) = returned s
  ∧ nextId (settle p o s) = nextId s.
Proof.
  unfold settle. destruct (fetches s !! p) as [f|]; [|done].
  by destruct (fState f).
Qed.

Lemma resume_absent id now s : tasks s !! id = None → resume id now s = s.
Proof. intros H. unfold resume. by rewrite H. Qed.

Lemma resume_fetching id now s t role o :
  tasks s !! id = Some t →
  tPhase t = Fetching role →
  settledWith (tPromise t) s = Some o →
  resume id now s
  = {| cache := cache s;
       revalidationPromises :=
         match role with
         | Owner => delete (tKey t) (revalidationPromises s)
         | Joiner => revalidationPromises s
         end;
       fetches := fetches s;
       tasks := <[id := {| tKey := tKey t; tPromise := tPromise t;
                           tPhase := Fetched o; tCont := tCont t |}]>
                  (tasks s);
       returned := returned s;
       nextId := nextId s |}.
Proof. intros Ht Hph Hs. unfold resume. by rewrite Ht, Hph, Hs. Qed.

Lemma resume_pending id now s t role :
  tasks s !! id = Some t →
  tPhase t = Fetching role →
  settledWith (tPromise t) s = None →
  resume id now s = s.
Proof. intros Ht Hph Hs. unfold resume. by rewrite Ht, Hph, Hs. Qed.

Lemma resume_fetched id now s t o :
  tasks s !! id = Some t →
  tPhase t = Fetched o →
  resume id now s
  = complete id (tKey t) (tCont t) o now (withTasks (delete id (tasks s)) s).
Proof. intros Ht Hph. unfold resume. by rewrite Ht, Hph. Qed.

Lemma complete_frame id key k o now s :
  let s' := complete id key k o now s in
  revalidationPromises s' = revalidationPromises s
  ∧ fetches s' = fetches s
  ∧ tasks s' = tasks s
  ∧ nextId s' = nextId s
  ∧ (∀ id', id' ≠ id → returned s' !! id' = returned s !! id').
Proof.
  cbv zeta. unfold complete. destruct k, o; cbn; repeat split; auto;
    intros id' Hne; by rewrite lookup_insert_ne.
Qed.

Lemma complete_get id key contentType now0 o now s :
  returned (complete id key (GetCont contentType now0) o now s) !! id
  = Some (resultOf o).
Proof. unfold complete. destruct o; cbn; apply lookup_insert_eq. Qed.

(** A turn of one call leaves the other calls and the promises alone. *)
Lemma resume_frame id now s :
  let s' := resume id now s in
  fetches s' = fetches s
  ∧ nextId s' = nextId s
  ∧ (∀ id', id' ≠ id →
            tasks s' !! id' = tasks s !! id'
            ∧ returned s' !! id' = returned s !! id').
Proof.
  cbv zeta. unfold resume.
  destruct (tasks s !! id) as [t|] eqn:Ht; [|done].
  destruct (tPhase t) as [role|o] eqn:Hph.
  - destruct (settledWith (tPromise t) s) as [o|]; [|done]. cbn.
    split; [done|]. split; [done|].
    intros id' Hne. by rewrite lookup_insert_ne.
  - destruct (complete_frame id (tKey t) (tCont t) o now
                (withTasks (delete id (tasks s)) s))
      as (_ & Hf & Ht' & Hn & Hr).
    rewrite Hf, Ht', Hn. cbn. split; [done|]. split; [done|].
    intros id' Hne. rewrite (Hr id' Hne).
    by rewrite lookup_delete_ne.
Qed.

Lemma resume_settledWith id now s p :
  settledWith p (resume id now s) = settledWith p s.
Proof.
  unfold settledWith. by rewrite (proj1 (resume_frame id now s)).
Qed.

(** *** Calls attached to a settled promise *)

Lemma attached_resume id p o s now :
  attached id p o s → attached id p o (resume id now s).
Proof.
  intros (Hs & Hid & Hcase).
  destruct (resume_frame id now s) as (Hf & Hn & _).
  split; [by rewrite resume_settledWith|]. split; [by rewrite Hn|].
  destruct Hcase as [(t & Ht & Hp & (ct & now0 & Hk) & Hph & Hr)|[Ht Hr]].
  - destruct Hph as [[role Hph]|Hph].
    + subst p. rewrite (resume_fetching _ _ _ _ _ _ Ht Hph Hs). cbn.
      left. eexists. split; [apply lookup_insert_eq|]. cbn. eauto 10.
    + rewrite (resume_fetched _ _ _ _ _ Ht Hph). right.
      rewrite Hk. rewrite complete_get. split; [|done].
      destruct (complete_frame id (tKey t) (GetCont ct now0) o now
                  (withTasks (delete id (tasks s)) s))
        as (_ & _ & Ht' & _).
      rewrite Ht'. cbn. apply lookup_delete_eq.
  - rewrite (resume_absent _ _ _ Ht). by right.
Qed.

Lemma attached_step id p o s ev :
  attached id p o s → attached id p o (step s ev).
Proof.
  intros Hatt. pose proof Hatt as (Hs & Hid & Hcase).
  destruct ev as [key ct rev now|key v ct now|now|p' o'|id' now];
    cbn [step].
  - destruct (get_frame key ct rev now s) as (Hn & Hfr & Hset).
    destruct (Hfr id ltac:(lia)) as [Ht Hr].
    split; [by apply Hset|]. split; [lia|].
    by rewrite Ht, Hr.
  - exact Hatt.
  - exact Hatt.
  - destruct (settle_frame p' o' s) as (_ & _ & Ht & Hr & Hn).
    split; [by apply settle_keeps|]. split; [by rewrite Hn|].
    by rewrite Ht, Hr.
  - destruct (decide (id' = id)) as [->|Hne].
    + by apply attached_resume.
    + destruct (resume_frame id' now s) as (Hf & Hn & Hfr).
      destruct (Hfr id ltac:(done)) as [Ht Hr].
      split; [by rewrite resume_settledWith|]. split; [by rewrite Hn|].
      by rewrite Ht, Hr.
Qed.

Lemma attached_run id p o evs :
  ∀ s, attached id p o s → attached id p o (run evs s).
Proof.
  induction evs as [|ev evs IH]; intros s H; [done|].
  cbn. by apply IH, attached_step.
Qed.

Lemma attached_safe id p o s r :
  attached id p o s → returned s !! id = Some r → r = resultOf o.
Proof.
  intros (_ & _ & [(t & _ & _ & _ & _ & Hr)|[_ Hr]]) H; congruence.
Qed.

(** Two turns take an attached call to its result. *)
Lemma attached_delivered id p o s n1 n2 :
  attached id p o s →
  returned (resume id n2 (resume id n1 s)) !! id = Some (resultOf o).
Proof.
  intros Hatt.
  assert (Hdone : ∀ s', attached id p o s' → tasks s' !! id = None →
                        returned s' !! id = Some (resultOf o)).
  { intros s' (_ & _ & [(t & Ht & _)|[_ Hr]]) Hnone; [congruence | done]. }
  assert (Hfetched : ∀ s' t n, attached id p o s' → tasks s' !! id = Some t →
                               tPhase t = Fetched o →
                               tasks (resume id n s') !! id = None).
  { intros s' t n _ Ht Hph. rewrite (resume_fetched _ _ _ _ _ Ht Hph).
    destruct (complete_frame id (tKey t) (tCont t) o n
                (withTasks (delete id (tasks s')) s')) as (_ & _ & Ht' & _).
    rewrite Ht'. cbn. apply lookup_delete_eq. }
  pose proof (attached_resume _ _ _ _ n1 Hatt) as Hatt1.
  pose proof (attached_resume _ _ _ _ n2 Hatt1) as Hatt2.
  apply Hdone; [done|].
  pose proof Hatt as (Hs & _ & [(t & Ht & Hp & _ & Hph & _)|[Ht _]]).
  - destruct Hph as [[role Hph]|Hph].
    + subst p.
      apply (Hfetched _ {| tKey := tKey t; tPromise := tPromise t;
                           tPhase := Fetched o; tCont := tCont t |} _ Hatt1);
        [|reflexivity].
      rewrite (resume_fetching _ _ _ _ _ _ Ht Hph Hs). cbn.
      apply lookup_insert_eq.
    + rewrite resume_absent; by eapply Hfetched.
  - rewrite (resume_absent id n1 s Ht). by rewrite (resume_absent id n2 s Ht).
Qed.

(** *** Concurrent misses *)

Lemma run_cons ev evs s : run (ev :: evs) s = run evs (step s ev).
Proof. reflexivity. Qed.

(** Calls for a key that has no entry and a registered promise join that
    promise and invoke nothing. *)
Lemma run_joins key p calls :
  ∀ s,
    cache s !! key = None →
    revalidationPromises s !! key = Some p →
    let s1 := run (getCalls key calls) s in
    cache s1 = cache s
    ∧ revalidationPromises s1 = revalidationPromises s
    ∧ fetches s1 = fetches s
    ∧ returned s1 = returned s
    ∧ nextId s1 = (nextId s + length calls)%nat
    ∧ (∀ id, (id < nextId s)%nat → tasks s1 !! id = tasks s !! id)
    ∧ (∀ i c, calls !! i = Some c →
              tasks s1 !! (nextId s + i)%nat
              = Some {| tKey := key; tPromise := p;
                        tPhase := Fetching Joiner;
                        tCont := GetCont (fst (fst c)) (snd c) |}).
Proof.
  induction calls as [|c calls IH]; intros s Hc Hm; cbv zeta.
  - cbn. do 4 (split; [done|]). split; [lia|]. split; [done|].
    intros i c H. by rewrite lookup_nil in H.
  - cbn [getCalls map]. rewrite run_cons. cbn [step].
    rewrite (get_miss_joins _ _ _ _ _ _ Hc Hm).
    set (s' := {| cache := cache s; nextId := S (nextId s) |}).
    destruct (IH s' Hc Hm) as (H1 & H2 & H3 & H4 & H5 & H6 & H7).
    fold (@getCalls T E key calls).
    rewrite H1, H2, H3, H4, H5. cbn.
    do 4 (split; [done|]). split; [lia|]. split.
    + intros id Hid. rewrite H6 by (cbn; lia). cbn.
      rewrite lookup_insert_ne; [done | lia].
    + intros [|i] c' Hi.
      * injection Hi as <-. rewrite Nat.add_0_r.
        rewrite H6 by (cbn; lia). cbn. apply lookup_insert_eq.
      * replace (nextId s + S i)%nat with (nextId s' + i)%nat by (cbn; lia).
        by apply H7.
Qed.

(** The first of a burst of calls for a key that has neither an entry nor
    a registered promise invokes its revalidator; the others join. *)
Lemma run_burst key c calls s :
  wf s →
  cache s !! key = None →
  revalidationPromises s !! key = None →
  let s1 := run (getCalls key (c :: calls)) s in
  let p := length (fetches s) in
  fetches s1 = fetches s ++
               [{| fKey := key; fRevalidator := snd (fst c);
                   fState := None |}]
  ∧ cache s1 = cache s
  ∧ nextId s1 = (nextId s + length (c :: calls))%nat
  ∧ (∀ i c', (c :: calls) !! i = Some c' →
             ∃ role,
               tasks s1 !! (nextId s + i)%nat
               = Some {| tKey := key; tPromise := p; tPhase := Fetching role;
                         tCont := GetCont (fst (fst c')) (snd c') |}
               ∧ returned s1 !! (nextId s + i)%nat = None).
Proof.
  intros Hwf Hc Hm. cbv zeta.
  cbn [getCalls map]. rewrite run_cons. cbn [step].
  rewrite (get_miss_owns _ _ _ _ _ Hc Hm).
  set (s' := {| cache := cache s; nextId := S (nextId s) |}).
  fold (@getCalls T E key calls).
  destruct (run_joins key (length (fetches s)) calls s' Hc)
    as (H1 & H2 & H3 & H4 & H5 & H6 & H7).
  { cbn. apply lookup_insert_eq. }
  rewrite H1, H3, H5. cbn. do 2 (split; [done|]). split; [lia|].
  assert (Hret : ∀ i, returned s !! (nextId s + i)%nat = None).
  { intros i. destruct (returned s !! (nextId s + i)%nat) eqn:Hr; [|done].
    apply (wf_returned_id _ Hwf) in Hr. lia. }
  intros [|i] c' Hi.
  - injection Hi as <-. exists Owner. rewrite Nat.add_0_r.
    rewrite H6 by (cbn; lia). rewrite H4. cbn.
    split; [apply lookup_insert_eq|]. specialize (Hret 0%nat).
    by rewrite Nat.add_0_r in Hret.
  - exists Joiner.
    replace (nextId s + S i)%nat with (nextId s' + i)%nat by (cbn; lia).
    split; [by apply H7|]. rewrite H4. cbn.
    replace (S (nextId s + i)) with (nextId s + S i)%nat by lia. apply Hret.
Qed.

(** While a promise is registered for a key, no [get] for that key
    invokes a revalidator, whatever the entry of the key is. *)
Lemma get_registered key contentType revalidator now s p :
  revalidationPromises s !! key = Some p →
  fetches (get key contentType revalidator now s) = fetches s.
Proof.
  intros Hm. destruct (cache s !! key) as [entry|] eqn:Hc.
  - destruct (decide (now - createdAt entry
                      > staleTTL (CONFIG contentType))) as [Hx|Hx].
    { by rewrite (get_expired_joins _ _ _ _ _ _ _ Hc Hx Hm). }
    destruct (decide (now - createdAt entry
                      <= freshTTL (CONFIG contentType))) as [Hf|Hf].
    { by rewrite (get_fresh _ _ _ _ _ _ Hc Hf). }
    assert (Hst : freshTTL (CONFIG contentType) < now - createdAt entry
                  <= staleTTL (CONFIG contentType)) by lia.
    destruct (isRevalidating entry) eqn:Hrev.
    + by rewrite (get_stale_revalidating _ _ _ _ _ _ Hc Hst Hrev).
    + by rewrite (get_stale_joins _ _ _ _ _ _ _ Hc Hst Hrev Hm).
  - by rewrite (get_miss_joins _ _ _ _ _ _ Hc Hm).
Qed.

(** *** Calls that follow a promise *)

Lemma settledWith_step p o s (ev : Event T E) :
  settledWith p s = Some o → settledWith p (step s ev) = Some o.
Proof.
  intros Hs.
  destruct ev as [key ct rev now|key v ct now|now|p' o'|id' now];
    cbn [step].
  - by apply (get_frame key ct rev now s).
  - exact Hs.
  - exact Hs.
  - by apply settle_keeps.
  - by rewrite resume_settledWith.
Qed.

Lemma settledWith_run p o (evs : list (Event T E)) :
  ∀ s, settledWith p s = Some o → settledWith p (run evs s) = Some o.
Proof.
  induction evs as [|ev evs IH]; intros s H; [done|].
  cbn. by apply IH, settledWith_step.
Qed.

Lemma follows_step id p s (ev : Event T E) :
  follows id p s → follows id p (step s ev).
Proof.
  intros [(Hid & Hr & t & Ht & Hp & Hk & role & Hph)|[o Hatt]];
    [|right; exists o; by apply attached_step].
  destruct ev as [key ct rev now|key v ct now|now|p' o'|id' now];
    cbn [step].
  - destruct (get_frame key ct rev now s) as (Hn & Hfr & _).
    destruct (Hfr id ltac:(lia)) as [Ht' Hr'].
    left. rewrite Hn, Hr', Ht'. split; [lia|]. eauto 10.
  - left. cbn. eauto 10.
  - left. cbn. eauto 10.
  - destruct (settle_frame p' o' s) as (_ & _ & Ht' & Hr' & Hn).
    left. rewrite Hn, Hr', Ht'. eauto 10.
  - destruct (decide (id' = id)) as [->|Hne].
    + destruct (settledWith p s) as [o|] eqn:Hs.
      * right. exists o. apply attached_resume.
        split; [done|]. split; [done|]. left. eauto 10.
      * subst p. rewrite (resume_pending _ _ _ _ _ Ht Hph Hs).
        left. eauto 10.
    + destruct (resume_frame id' now s) as (_ & Hn & Hfr).
      destruct (Hfr id ltac:(done)) as [Ht' Hr'].
      left. rewrite Hn, Hr', Ht'. eauto 10.
Qed.

Lemma follows_run id p (evs : list (Event T E)) :
  ∀ s, follows id p s → follows id p (run evs s).
Proof.
  induction evs as [|ev evs IH]; intros s H; [done|].
  cbn. by apply IH, follows_step.
Qed.

Lemma follows_attached id p o s :
  follows id p s → settledWith p s = Some o → attached id p o s.
Proof.
  intros [(Hid & Hr & t & Ht & Hp & Hk & Hph)|[o' Hatt]] Hs.
  - split; [done|]. split; [done|]. left. eauto 10.
  - destruct Hatt as (Hs' & Hrest).
    assert (o' = o) as -> by congruence. by split.
Qed.

Lemma follows_unanswered id p s :
  follows id p s → settledWith p s = None → returned s !! id = None.
Proof.
  intros [(_ & Hr & _)|[o (Hs & _)]] Hnone; [done | congruence].
Qed.

(** A [get] that finds no entry follows the promise registered for the
    key, which is its own if none was registered. *)
Lemma get_miss_follows key contentType revalidator now s :
  wf s →
  cache s !! key = None →
  let s1 := get key contentType revalidator now s in
  ∃ role p,
    tasks s1 !! nextId s
    = Some {| tKey := key; tPromise := p; tPhase := Fetching role;
              tCont := GetCont contentType now |}
    ∧ revalidationPromises s1 !! key = Some p
    ∧ match revalidationPromises s !! key with
      | Some p' => role = Joiner ∧ p = p' ∧ fetches s1 = fetches s
      | None =>
          role = Owner ∧ p = length (fetches s)
          ∧ fetches s1 = fetches s ++
                         [{| fKey := key; fRevalidator := revalidator;
                             fState := None |}]
      end
    ∧ follows (nextId s) p s1.
Proof.
  intros Hwf Hc. cbv zeta.
  assert (Hret : returned s !! nextId s = None).
  { destruct (returned s !! nextId s) eqn:Hr; [|done].
    apply (wf_returned_id _ Hwf) in Hr. lia. }
  destruct (revalidationPromises s !! key) as [p'|] eqn:Hm.
  - rewrite (get_miss_joins _ _ _ _ _ _ Hc Hm). cbn.
    exists Joiner, p'. split; [apply lookup_insert_eq|].
    split; [done|]. split; [done|].
    left. cbn. split; [lia|]. split; [done|].
    eexists. split; [apply lookup_insert_eq|]. cbn. eauto 10.
  - rewrite (get_miss_owns _ _ _ _ _ Hc Hm). cbn.
    exists Owner, (length (fetches s)). split; [apply lookup_insert_eq|].
    split; [apply lookup_insert_eq|]. split; [done|].
    left. cbn. split; [lia|]. split; [done|].
    eexists. split; [apply lookup_insert_eq|]. cbn. eauto 10.
Qed.

(** C1, as the code has it.  In every reachable state at most one
    revalidator promise per key is pending, and while one is pending no
    [get] for that key invokes a revalidator: a [get] that finds no entry
    waits for the pending promise.  When a burst of [get] calls for a key
    arrives while the key has no entry and no fetch is registered for it,
    the revalidator of the first call is invoked, once, and no other; every
    call of the burst waits for that one promise; and once the promise has
    settled, whatever else happens to the cache, no call of the burst can
    have received anything but what [get] makes of that outcome (the value
    tagged fresh, or the error), and its next two turns deliver exactly
    that.  The calls need not come in a burst: whatever has happened
    before, a [get] that finds no entry joins the promise registered for
    the key without invoking anything, or, when none is registered (none
    yet, or none any more because the owner's [finally] block has run),
    invokes its own revalidator and registers the promise; whatever happens
    afterwards, the call is not answered before that promise has settled
    and is answered with nothing but what [get] makes of its outcome.  A
    settled promise keeps its outcome, so all calls that joined one promise
    receive the same. *)
Theorem get_deduplicates :
  (∀ s key p1 p2,
     reachable s → inFlight key p1 s → inFlight key p2 s → p1 = p2)
  ∧ (∀ s key p contentType revalidator now,
       reachable s → inFlight key p s →
       let s' := get key contentType revalidator now s in
       fetches s' = fetches s
       ∧ (cache s !! key = None →
          tasks s' !! nextId s
          = Some {| tKey := key; tPromise := p; tPhase := Fetching Joiner;
                    tCont := GetCont contentType now |}))
  ∧ (∀ s key c calls,
       reachable s →
       cache s !! key = None →
       revalidationPromises s !! key = None →
       let s1 := run (getCalls key (c :: calls)) s in
       let p := length (fetches s) in
       fetches s1 = fetches s ++
                    [{| fKey := key; fRevalidator := snd (fst c);
                        fState := None |}]
       ∧ (∀ i c', (c :: calls) !! i = Some c' →
                  ∃ role,
                    tasks s1 !! (nextId s + i)%nat
                    = Some {| tKey := key; tPromise := p;
                              tPhase := Fetching role;
                              tCont := GetCont (fst (fst c')) (snd c') |}
                    ∧ returned s1 !! (nextId s + i)%nat = None)
       ∧ (∀ o evs i,
            (i < length (c :: calls))%nat →
            let s2 := run evs (settle p o s1) in
            let id := (nextId s + i)%nat in
            (∀ r, returned s2 !! id = Some r → r = resultOf o)
            ∧ (∀ n1 n2,
                 returned (resume id n2 (resume id n1 s2)) !! id
                 = Some (resultOf o))))
  ∧ (∀ s key contentType revalidator now,
       reachable s →
       cache s !! key = None →
       let s1 := get key contentType revalidator now s in
       let id := nextId s in
       ∃ role p,
         tasks s1 !! id
         = Some {| tKey := key; tPromise := p; tPhase := Fetching role;
                   tCont := GetCont contentType now |}
         ∧ revalidationPromises s1 !! key = Some p
         ∧ match revalidationPromises s !! key with
           | Some p' => role = Joiner ∧ p = p' ∧ fetches s1 = fetches s
           | None =>
               role = Owner ∧ p = length (fetches s)
               ∧ fetches s1 = fetches s ++
                              [{| fKey := key; fRevalidator := revalidator;
                                  fState := None |}]
           end
         ∧ ∀ evs,
             let s2 := run evs s1 in
             (settledWith p s2 = None → returned s2 !! id = None)
             ∧ ∀ o,
                 settledWith p s2 = Some o →
                 (∀ r, returned s2 !! id = Some r → r = resultOf o)
                 ∧ (∀ n1 n2,
                      returned (resume id n2 (resume id n1 s2)) !! id
                      = Some (resultOf o)))
  ∧ (∀ s p o evs,
       settledWith p s = Some o → settledWith p (run evs s) = Some o).
Proof.
  split; [|split; [|split; [|split]]].
  - intros s key p1 p2 Hr. apply single_flight_wf. by apply reachable_wf.
  - intros s key p ct rev now Hr Hp. cbv zeta.
    apply (inFlight_registered _ _ _ (reachable_wf _ Hr)) in Hp.
    split; [by apply (get_registered _ _ _ _ _ p)|].
    intros Hc. rewrite (get_miss_joins _ _ _ _ _ _ Hc Hp). cbn.
    apply lookup_insert_eq.
  - intros s key c calls Hr Hc Hm. cbv zeta.
    apply reachable_wf in Hr.
    destruct (run_burst key c calls s Hr Hc Hm) as (Hf & Hc1 & Hn & Ht).
    split; [exact Hf|]. split; [exact Ht|].
    intros o evs i Hi.
    destruct (lookup_lt_is_Some_2 (c :: calls) i Hi) as [c' Hc'].
    destruct (Ht i c' Hc') as (role & Htask & Hret).
    assert (Hatt : attached (nextId s + i) (length (fetches s)) o
                     (run evs (settle (length (fetches s)) o
                                 (run (getCalls key (c :: calls)) s)))).
    { apply attached_run.
      destruct (settle_frame (length (fetches s)) o
                  (run (getCalls key (c :: calls)) s))
        as (_ & _ & Hst & Hsr & Hsn).
      split; [|split].
      - apply (settle_pending _ _ _
                 {| fKey := key; fRevalidator := snd (fst c);
                    fState := None |}); [|done].
        rewrite Hf. by apply list_lookup_middle.
      - rewrite Hsn, Hn. lia.
      - left. rewrite Hst, Hsr. eexists. split; [exact Htask|].
        cbn. eauto 10. }
    split.
    + intros r. by apply (attached_safe _ _ _ _ _ Hatt).
    + intros n1 n2. by apply (attached_delivered _ _ _ _ _ _ Hatt).
  - intros s key ct rev now Hr Hc. cbv zeta.
    apply reachable_wf in Hr.
    destruct (get_miss_follows key ct rev now s Hr Hc)
      as (role & p & Ht & Hm & Hcase & Hfol).
    exists role, p. split; [exact Ht|]. split; [exact Hm|].
    split; [exact Hcase|].
    intros evs. pose proof (follows_run _ _ evs _ Hfol) as Hfol2.
    split; [by apply follows_unanswered|].
    intros o Hs. pose proof (follows_attached _ _ _ _ Hfol2 Hs) as Hatt.
    split.
    + intros r. by apply (attached_safe _ _ _ _ _ Hatt).
    + intros n1 n2. by apply (attached_delivered _ _ _ _ _ _ Hatt).
  - intros s p o evs. apply settledWith_run.
Qed.

(** *** One content type per key *)

Lemma typed_init key contentType : typed key contentType (@init T E).
Proof. split; intros *; cbn; rewrite lookup_empty; done. Qed.

Lemma typed_withCache key contentType c s :
  typed key contentType s →
  (∀ e, c !! key = Some e → SWRCache.contentType e = contentType) →
  typed key contentType (withCache c s).
Proof. intros [_ Ht] Hc. split; [exact Hc | exact Ht]. Qed.

Lemma typed_alter key contentType b key' s :
  typed key contentType s →
  typed key contentType
    (withCache (alter (markRevalidating b) key' (cache s)) s).
Proof.
  intros Hty. apply typed_withCache; [done|]. intros e He.
  destruct (decide (key' = key)) as [->|Hne].
  - rewrite lookup_alter_eq in He.
    destruct (cache s !! key) as [e0|] eqn:H0; [|done].
    injection He as <-. cbn. by apply (proj1 Hty).
  - rewrite lookup_alter_ne in He by done. by apply (proj1 Hty).
Qed.

Lemma typed_awaitFetch key contentType id key' revalidator k s :
  typed key contentType s →
  (key' = key → contTypeOf k = contentType) →
  typed key contentType (awaitFetch id key' revalidator k s).
Proof.
  intros [Hc Ht] Hk. unfold awaitFetch, executeFetch.
  destruct (revalidationPromises s !! key'); split; cbn; try exact Hc;
    intros id' t H Hkey;
    (destruct (decide (id' = id)) as [->|];
     [rewrite lookup_insert_eq in H; injection H as <-; cbn in *; auto
     |rewrite lookup_insert_ne in H by done; eauto]).
Qed.

Lemma typed_resolveWith key contentType id r s :
  typed key contentType s → typed key contentType (resolveWith id r s).
Proof. intros [Hc Ht]. by split. Qed.

Lemma typed_get key contentType key' contentType' revalidator now s :
  typed key contentType s →
  (key' = key → contentType' = contentType) →
  typed key contentType (get key' contentType' revalidator now s).
Proof.
  intros Hty Hk. unfold get.
  set (s0 := {| cache := cache s; nextId := S (nextId s) |}).
  assert (Hty0 : typed key contentType s0) by (destruct Hty; by split).
  destruct (cache s0 !! key') as [entry|].
  - destruct (now - createdAt entry >? staleTTL (CONFIG contentType')).
    { by apply typed_awaitFetch. }
    destruct (now - createdAt entry <=? freshTTL (CONFIG contentType')).
    { by apply typed_resolveWith. }
    apply typed_resolveWith.
    destruct (negb (isRevalidating entry)); [|done].
    unfold triggerBackgroundRevalidation.
    apply typed_awaitFetch; [|done]. by apply typed_alter.
  - by apply typed_awaitFetch.
Qed.

Lemma typed_resume key contentType id now s :
  typed key contentType s → typed key contentType (resume id now s).
Proof.
  intros Hty. pose proof Hty as [Hc Ht]. unfold resume.
  destruct (tasks s !! id) as [t|] eqn:Htask; [|done].
  destruct (tPhase t) as [role|o] eqn:Hph.
  - destruct (settledWith (tPromise t) s); [|done].
    split; cbn; [exact Hc|].
    intros id' t' H Hkey.
    destruct (decide (id' = id)) as [->|].
    + rewrite lookup_insert_eq in H. injection H as <-. cbn in *. eauto.
    + rewrite lookup_insert_ne in H by done. eauto.
  - assert (Hty' : typed key contentType (withTasks (delete id (tasks s)) s)).
    { split; cbn; [exact Hc|]. intros id' t' H.
      apply lookup_delete_Some in H as [_ H]. eauto. }
    specialize (Ht _ _ Htask).
    unfold complete. destruct (tCont t) as [ct now0|ct], o; cbn in Ht.
    + apply typed_resolveWith, typed_withCache; [done|]. cbn.
      intros e He. destruct (decide (tKey t = key)) as [Hk|Hne].
      * rewrite Hk, lookup_insert_eq in He. injection He as <-. cbn. auto.
      * rewrite lookup_insert_ne in He by done. auto.
    + by apply typed_resolveWith.
    + apply typed_withCache; [done|]. cbn.
      intros e He. destruct (decide (tKey t = key)) as [Hk|Hne].
      * rewrite Hk, lookup_insert_eq in He. injection He as <-. cbn. auto.
      * rewrite lookup_insert_ne in He by done. auto.
    + by apply typed_alter.
Qed.

Lemma typed_step key contentType s ev :
  typed key contentType s → usesType key contentType ev →
  typed key contentType (step s ev).
Proof.
  intros Hty Hev. destruct ev as [k ct rev now|k v ct now|now|p o|id now];
    cbn [step]; cbn in Hev.
  - by apply typed_get.
  - apply typed_withCache; [done|]. intros e He.
    destruct (decide (k = key)) as [->|Hne].
    + rewrite lookup_insert_eq in He. injection He as <-. cbn. auto.
    + rewrite lookup_insert_ne in He by done. by apply (proj1 Hty).
  - apply typed_withCache; [done|]. intros e He.
    apply map_lookup_filter_Some in He as [He _]. by apply (proj1 Hty).
  - destruct (settle_frame p o s) as (Hc & _ & Ht & _).
    destruct Hty as [Hc' Ht']. split; [by rewrite Hc | by rewrite Ht].
  - by apply typed_resume.
Qed.

Lemma typed_run key contentType evs :
  ∀ s, typed key contentType s → Forall (usesType key contentType) evs →
       typed key contentType (run evs s).
Proof.
  induction evs as [|ev evs IH]; intros s Hty HF; [done|].
  apply Forall_cons in HF as [Hev HF]. cbn. apply IH; [|done].
  by apply typed_step.
Qed.

(** *** The continuations, one equation each *)

Lemma resume_get_fulfilled id now s t contentType now0 v :
  tasks s !! id = Some t →
  tCont t = GetCont contentType now0 →
  tPhase t = Fetched (Fulfilled v) →
  resume id now s
  = {| cache := <[tKey t := {| data := v; createdAt := now0;
                               isRevalidating := false;
                               contentType := contentType |}]> (cache s);
       revalidationPromises := revalidationPromises s;
       fetches := fetches s;
       tasks := delete id (tasks s);
       returned := <[id := inl {| resData := v; isStale := false;
                                  source := Fresh |}]> (returned s);
       nextId := nextId s |}.
Proof.
  intros Ht Hk Hph. rewrite (resume_fetched _ _ _ _ _ Ht Hph). by rewrite Hk.
Qed.

Lemma resume_get_rejected id now s t contentType now0 e :
  tasks s !! id = Some t →
  tCont t = GetCont contentType now0 →
  tPhase t = Fetched (Rejected e) →
  resume id now s
  = {| cache := cache s;
       revalidationPromises := revalidationPromises s;
       fetches := fetches s;
       tasks := delete id (tasks s);
       returned := <[id := inr e]> (returned s);
       nextId := nextId s |}.
Proof.
  intros Ht Hk Hph. rewrite (resume_fetched _ _ _ _ _ Ht Hph). by rewrite Hk.
Qed.

Lemma resume_background_fulfilled id now s t contentType v :
  tasks s !! id = Some t →
  tCont t = BackgroundCont contentType →
  tPhase t = Fetched (Fulfilled v) →
  resume id now s
  = {| cache := <[tKey t := {| data := v; createdAt := now;
                               isRevalidating := false;
                               contentType := contentType |}]> (cache s);
       revalidationPromises := revalidationPromises s;
       fetches := fetches s;
       tasks := delete id (tasks s);
       returned := returned s;
       nextId := nextId s |}.
Proof.
  intros Ht Hk Hph. rewrite (resume_fetched _ _ _ _ _ Ht Hph). by rewrite Hk.
Qed.

Lemma resume_background_rejected id now s t contentType e :
  tasks s !! id = Some t →
  tCont t = BackgroundCont contentType →
  tPhase t = Fetched (Rejected e) →
  resume id now s
  = {| cache := alter (markRevalidating false) (tKey t) (cache s);
       revalidationPromises := revalidationPromises s;
       fetches := fetches s;
       tasks := delete id (tasks s);
       returned := returned s;
       nextId := nextId s |}.
Proof.
  intros Ht Hk Hph. rewrite (resume_fetched _ _ _ _ _ Ht Hph). by rewrite Hk.
Qed.

(** *** Fresh entries *)


(** *** Stale entries *)


(** *** Expired entries *)

Lemma withCache_withCache c c' s :
  withCache c (withCache c' s) = withCache c s.
Proof. reflexivity. Qed.

Lemma settle_withCache c p o s :
  settle p o (withCache c s) = withCache c (settle p o s).
Proof.
  unfold settle. cbn. destruct (fetches s !! p) as [f|]; [|done].
  by destruct (fState f).
Qed.

(** While a call is inside [executeFetch] its turn neither reads nor
    writes the cache table. *)
Lemma resume_fetching_withCache c id now s t role :
  tasks s !! id = Some t →
  tPhase t = Fetching role →
  resume id now (withCache c s) = withCache c (resume id now s).
Proof.
  intros Ht Hph. unfold resume. cbn. rewrite Ht, Hph.
  change (settledWith (tPromise t) (withCache c s))
    with (settledWith (tPromise t) s).
  by destruct (settledWith (tPromise t) s).
Qed.

(** The continuation of a fulfilled [get] overwrites the entry of its key:
    what was there before plays no part. *)
Lemma resume_get_fulfilled_overwrites id now s t contentType now0 v :
  tasks s !! id = Some t →
  tCont t = GetCont contentType now0 →
  tPhase t = Fetched (Fulfilled v) →
  resume id now (withCache (delete (tKey t) (cache s)) s) = resume id now s.
Proof.
  intros Ht Hk Hph.
  rewrite (resume_get_fulfilled _ _ _ _ _ _ _ Ht Hk Hph).
  rewrite (resume_get_fulfilled id now (withCache _ s) t contentType now0 v)
    by done.
  cbn. by rewrite insert_delete_eq.
Qed.

Lemma get_expired_as_absent key contentType revalidator now s entry :
  cache s !! key = Some entry →
  now - createdAt entry > staleTTL (CONFIG contentType) →
  get key contentType revalidator now s
  = withCache (cache s)
      (get key contentType revalidator now
           (withCache (delete key (cache s)) s)).
Proof.
  intros Hc Hage.
  assert (Hc' : cache (withCache (delete key (cache s)) s) !! key = None)
    by apply lookup_delete_eq.
  destruct (revalidationPromises s !! key) as [p|] eqn:Hm.
  - rewrite (get_expired_joins _ _ _ _ _ _ _ Hc Hage Hm).
    by rewrite (get_miss_joins _ _ _ _ _ _ Hc' Hm).
  - rewrite (get_expired_owns _ _ _ _ _ _ Hc Hage Hm).
    by rewrite (get_miss_owns _ _ _ _ _ Hc' Hm).
Qed.

(** C5.  A [get] for a key whose entry is older than [staleTTL] does what
    it does when the key has no entry, the old entry staying in the table
    until it is overwritten: the two calls leave the same state up to that
    entry.  The call suspends on [executeFetch] without returning anything,
    joining the promise registered for the key or else invoking its
    revalidator.  While it is suspended there its turns ignore the table.
    If the fetch is fulfilled its last turn writes the value with the clock
    reading of the call, not marked as revalidating, and returns it with
    [isStale = false] and [source = fresh]; the state it leaves is the one
    it leaves when the key had no entry.  If the fetch is rejected the
    error is returned and the table is untouched.  In particular, when no
    promise is registered for the key, the whole call (the call, the
    fulfilment of its promise, its two turns) ends in the same state
    whether the expired entry was there or not. *)
Theorem expired_like_absent s key contentType revalidator now entry :
  cache s !! key = Some entry →
  now - createdAt entry > staleTTL (CONFIG contentType) →
  let absent := withCache (delete key (cache s)) s in
  let id := nextId s in
  get key contentType revalidator now s
  = withCache (cache s) (get key contentType revalidator now absent)
  ∧ (∃ role p,
       tasks (get key contentType revalidator now s) !! id
       = Some {| tKey := key; tPromise := p; tPhase := Fetching role;
                 tCont := GetCont contentType now |}
       ∧ returned (get key contentType revalidator now s) = returned s
       ∧ match revalidationPromises s !! key with
         | Some p' =>
             role = Joiner ∧ p = p'
             ∧ fetches (get key contentType revalidator now s) = fetches s
         | None =>
             role = Owner ∧ p = length (fetches s)
             ∧ fetches (get key contentType revalidator now s)
               = fetches s ++ [{| fKey := key; fRevalidator := revalidator;
                                  fState := None |}]
         end)
  ∧ (∀ s' c t role n,
       tasks s' !! id = Some t → tPhase t = Fetching role →
       resume id n (withCache c s') = withCache c (resume id n s'))
  ∧ (∀ s' p v n,
       tasks s' !! id
       = Some {| tKey := key; tPromise := p;
                 tPhase := Fetched (Fulfilled v);
                 tCont := GetCont contentType now |} →
       let s'' := resume id n s' in
       s'' = resume id n (withCache (delete key (cache s')) s')
       ∧ cache s'' !! key
         = Some {| data := v; createdAt := now; isRevalidating := false;
                   contentType := contentType |}
       ∧ returned s'' !! id
         = Some (inl {| resData := v; isStale := false; source := Fresh |}))
  ∧ (∀ s' p e n,
       tasks s' !! id
       = Some {| tKey := key; tPromise := p;
                 tPhase := Fetched (Rejected e);
                 tCont := GetCont contentType now |} →
       returned (resume id n s') !! id = Some (inr e)
       ∧ cache (resume id n s') = cache s')
  ∧ (revalidationPromises s !! key = None →
     ∀ v n1 n2,
       let life := [EvGet key contentType revalidator now;
                    EvSettle (length (fetches s)) (Fulfilled v);
                    EvResume id n1; EvResume id n2] in
       run life s = run life absent
       ∧ returned (run life s) !! id
         = Some (inl {| resData := v; isStale := false; source := Fresh |})
       ∧ cache (run life s) !! key
         = Some {| data := v; createdAt := now; isRevalidating := false;
                   contentType := contentType |}).
Proof.
  intros Hc Hage. cbv zeta.
  split; [by apply (get_expired_as_absent _ _ _ _ _ entry)|].
  split; [|split; [|split; [|split]]].
  - destruct (revalidationPromises s !! key) as [p|] eqn:Hm.
    + exists Joiner, p.
      rewrite (get_expired_joins _ _ _ _ _ _ _ Hc Hage Hm). cbn.
      split; [apply lookup_insert_eq | done].
    + exists Owner, (length (fetches s)).
      rewrite (get_expired_owns _ _ _ _ _ _ Hc Hage Hm). cbn.
      split; [apply lookup_insert_eq | done].
  - intros s' c t role n Ht Hph.
    by apply (resume_fetching_withCache _ _ _ _ t role).
  - intros s' p v n Ht. cbv zeta. split.
    + symmetry.
      by apply (resume_get_fulfilled_overwrites _ n s' _ contentType now v
                  Ht).
    + rewrite (resume_get_fulfilled _ _ _ _ _ _ _ Ht eq_refl eq_refl). cbn.
      split; apply lookup_insert_eq.
  - intros s' p e n Ht.
    rewrite (resume_get_rejected _ _ _ _ _ _ _ Ht eq_refl eq_refl). cbn.
    split; [apply lookup_insert_eq | done].
  - intros Hm v n1 n2.
    set (absent := withCache (delete key (cache s)) s).
    set (p := length (fetches s)).
    set (id := nextId s).
    set (A := get key contentType revalidator now absent).
    assert (HA : A = {| cache := delete key (cache s);
                        revalidationPromises :=
                          <[key := p]> (revalidationPromises s);
                        fetches := fetches s ++
                                   [{| fKey := key;
                                       fRevalidator := revalidator;
                                       fState := None |}];
                        tasks := <[id := {| tKey := key; tPromise := p;
                                            tPhase := Fetching Owner;
                                            tCont := GetCont contentType now
                                         |}]> (tasks s);
                        returned := returned s;
                        nextId := S id |}).
    { unfold A. rewrite get_miss_owns; [done| |done].
      apply lookup_delete_eq. }
    set (B := settle p (Fulfilled v) A).
    destruct (settle_frame p (Fulfilled v) A) as (HBc & _ & HBt & _ & _).
    fold B in HBc, HBt.
    assert (HBs : settledWith p B = Some (Fulfilled v)).
    { apply (settle_pending _ _ _ {| fKey := key;
                                     fRevalidator := revalidator;
                                     fState := None |}); [|done].
      rewrite HA. cbn. by apply list_lookup_middle. }
    assert (HBtask : tasks B !! id
                     = Some {| tKey := key; tPromise := p;
                               tPhase := Fetching Owner;
                               tCont := GetCont contentType now |}).
    { rewrite HBt, HA. cbn. apply lookup_insert_eq. }
    set (C := resume id n1 B).
    assert (HC : tasks C !! id
                 = Some {| tKey := key; tPromise := p;
                           tPhase := Fetched (Fulfilled v);
                           tCont := GetCont contentType now |}
                 ∧ cache C = delete key (cache s)).
    { unfold C. rewrite (resume_fetching _ _ _ _ _ _ HBtask eq_refl HBs).
      cbn. split; [apply lookup_insert_eq|]. rewrite HBc, HA. done. }
    destruct HC as [HCt HCc].
    assert (Hs : run [EvGet key contentType revalidator now;
                      EvSettle p (Fulfilled v); EvResume id n1;
                      EvResume id n2] s
                 = resume id n2 (withCache (cache s) C)).
    { cbn. rewrite (get_expired_as_absent _ _ _ _ _ entry Hc Hage).
      fold absent. fold A. rewrite settle_withCache. fold B.
      by rewrite (resume_fetching_withCache _ _ _ _ _ Owner HBtask). }
    assert (Ha : run [EvGet key contentType revalidator now;
                      EvSettle p (Fulfilled v); EvResume id n1;
                      EvResume id n2] absent
                 = resume id n2 C) by reflexivity.
    assert (Heq : resume id n2 (withCache (cache s) C) = resume id n2 C).
    { rewrite (resume_get_fulfilled id n2 (withCache (cache s) C) _
                 contentType now v HCt eq_refl eq_refl).
      rewrite (resume_get_fulfilled id n2 C _ contentType now v HCt
                 eq_refl eq_refl).
      cbn. rewrite HCc. by rewrite insert_delete_eq. }
    rewrite Hs, Ha, Heq.
    split; [done|].
    rewrite (resume_get_fulfilled id n2 C _ contentType now v HCt
               eq_refl eq_refl).
    cbn. split; apply lookup_insert_eq.
Qed.

(** *** Failed fetches *)

(** C6.  When the promise a suspended [get] waits for has been rejected,
    the call's two turns end it with that error and leave the cache table
    as it was; this holds for every call that waits for the promise.  When
    the promise a background revalidation waits for has been rejected, its
    two turns return nothing to anyone, clear [isRevalidating] on the entry
    of its key (the entry afterwards has [isRevalidating = false], whatever
    the flag was, with the value and the age it had) and change nothing
    else in the table, so that the next [get] inside the stale window of
    that entry returns its value as stale. *)
Theorem rejected_fetch :
  (∀ s id t role contentType now0 e n1 n2,
     tasks s !! id = Some t →
     tCont t = GetCont contentType now0 →
     tPhase t = Fetching role →
     settledWith (tPromise t) s = Some (Rejected e) →
     let s' := resume id n2 (resume id n1 s) in
     returned s' !! id = Some (inr e)
     ∧ tasks s' !! id = None
     ∧ cache s' = cache s)
  ∧ (∀ s id t role contentType e n1 n2 entry,
       tasks s !! id = Some t →
       tCont t = BackgroundCont contentType →
       tPhase t = Fetching role →
       settledWith (tPromise t) s = Some (Rejected e) →
       cache s !! tKey t = Some entry →
       let s' := resume id n2 (resume id n1 s) in
       returned s' = returned s
       ∧ tasks s' !! id = None
       ∧ cache s'
         = <[tKey t := {| data := data entry;
                          createdAt := createdAt entry;
                          isRevalidating := false;
                          contentType := SWRCache.contentType entry |}]>
             (cache s)
       ∧ (∃ entry', cache s' !! tKey t = Some entry'
                    ∧ isRevalidating entry' = false
                    ∧ data entry' = data entry
                    ∧ createdAt entry' = createdAt entry)
       ∧ ∀ contentType' revalidator now,
           freshTTL (CONFIG contentType') < now - createdAt entry
           <= staleTTL (CONFIG contentType') →
           returned (get (tKey t) contentType' revalidator now s')
             !! nextId s'
           = Some (inl {| resData := data entry; isStale := true;
                          source := FromCache |})).
Proof.
  split.
  - intros s id t role ct now0 e n1 n2 Ht Hk Hph Hs. cbv zeta.
    rewrite (resume_fetching _ _ _ _ _ _ Ht Hph Hs).
    erewrite resume_get_rejected;
      [|cbn; apply lookup_insert_eq|cbn; exact Hk|reflexivity].
    cbn. split; [apply lookup_insert_eq|].
    split; [apply lookup_delete_eq | done].
  - intros s id t role ct e n1 n2 entry Ht Hk Hph Hs Hc. cbv zeta.
    rewrite (resume_fetching _ _ _ _ _ _ Ht Hph Hs).
    erewrite resume_background_rejected;
      [|cbn; apply lookup_insert_eq|cbn; exact Hk|reflexivity].
    cbn [returned tasks cache tKey].
    assert (Halter : alter (markRevalidating false) (tKey t) (cache s)
                     = <[tKey t := markRevalidating false entry]> (cache s)).
    { apply map_eq. intros k. destruct (decide (k = tKey t)) as [->|Hne].
      - by rewrite lookup_alter_eq, lookup_insert_eq, Hc.
      - by rewrite lookup_alter_ne, lookup_insert_ne. }
    rewrite Halter.
    split; [done|]. split; [apply lookup_delete_eq|]. split; [done|].
    split.
    { eexists. split; [apply lookup_insert_eq|]. done. }
    intros ct' rev now Hage.
    match goal with |- returned (get _ _ _ _ ?st) !! _ = _ => set (s' := st) end.
    assert (Hc' : cache s' !! tKey t = Some (markRevalidating false entry))
      by apply lookup_insert_eq.
    destruct (revalidationPromises s' !! tKey t) as [p|] eqn:Hm.
    + rewrite (get_stale_joins _ _ _ _ _ _ _ Hc' Hage eq_refl Hm). cbn.
      apply lookup_insert_eq.
    + rewrite (get_stale_owns _ _ _ _ _ _ Hc' Hage eq_refl Hm). cbn.
      apply lookup_insert_eq.
Qed.

End Generic.

(** *** Concrete runs *)

(** The scenario of the specification: content type "artist-data", a miss
    at 0 fetches "X"; at 10 minutes the entry is fresh; at 50 minutes it is
    served stale and revalidated in the background; the revalidation
    returns "X2", which a call at 51 minutes gets as a fresh hit. *)
Example artist_data_scenario :
  let s : State string string :=
    run [EvGet "artist:x" ArtistData 1 0;
         EvSettle 0%nat (Fulfilled "X");
         EvResume 0%nat 5; EvResume 0%nat 5;
         EvGet "artist:x" ArtistData 2 600000;
         EvGet "artist:x" ArtistData 3 3000000;
         EvSettle 1%nat (Fulfilled "X2");
         EvResume 2%nat 3000500; EvResume 2%nat 3000500;
         EvGet "artist:x" ArtistData 4 3060000] init in
  returned s !! 0%nat
  = Some (inl {| resData := "X"; isStale := false; source := Fresh |})
  ∧ returned s !! 1%nat
    = Some (inl {| resData := "X"; isStale := false; source := FromCache |})
  ∧ returned s !! 2%nat
    = Some (inl {| resData := "X"; isStale := true; source := FromCache |})
  ∧ returned s !! 3%nat
    = Some (inl {| resData := "X2"; isStale := false; source := FromCache |})
  ∧ length (fetches s) = 2%nat.
Proof. vm_compute. repeat split. Qed.

(** C1, as the specification has it, fails.  The dedup window closes when
    the owner's [finally] block has run: a call that arrives after it, while
    the first caller has not yet written the entry, finds neither an entry
    nor a registered promise and invokes its own revalidator.  Both calls
    arrive while the key has no entry and the first has not been answered
    when the second arrives; two revalidators are invoked and the two
    callers receive different values. *)
Example late_call_fetches_again :
  let s1 : State string string :=
    run [EvGet "artist:x" ArtistData 1 0;
         EvSettle 0%nat (Fulfilled "X");
         EvResume 0%nat 5] init in
  let s2 :=
    run [EvGet "artist:x" ArtistData 2 5;
         EvResume 0%nat 6;
         EvSettle 1%nat (Fulfilled "Y");
         EvResume 1%nat 7; EvResume 1%nat 8] s1 in
  cache (@init string string) !! "artist:x" = None
  ∧ cache s1 !! "artist:x" = None
  ∧ is_Some (tasks s1 !! 0%nat)
  ∧ returned s1 !! 0%nat = None
  ∧ fetches s2
    = [{| fKey := "artist:x"; fRevalidator := 1%nat;
          fState := Some (Fulfilled "X") |};
       {| fKey := "artist:x"; fRevalidator := 2%nat;
          fState := Some (Fulfilled "Y") |}]
  ∧ returned s2 !! 0%nat
    = Some (inl {| resData := "X"; isStale := false; source := Fresh |})
  ∧ returned s2 !! 1%nat
    = Some (inl {| resData := "Y"; isStale := false; source := Fresh |}).
Proof. vm_compute. repeat split; eauto. Qed.

Lemma get_deduplicates_witness :
  let calls := [(ArtistData, 2%nat, 1); (ArtistData, 3%nat, 2)] in
  let s1 : State string string :=
    run (getCalls "artist:x" ((ArtistData, 1%nat, 0) :: calls)) init in
  let s : State string string :=
    run [EvGet "artist:x" ArtistData 1 0;
         EvGet "artist:y" ArtistData 5 1;
         EvSettle 0%nat (Fulfilled "X")] init in
  let s' := get "artist:x" ArtistData 2 2 s in
  (fetches s1 = [{| fKey := "artist:x"; fRevalidator := 1%nat;
                    fState := None |}]
   ∧ ∀ i, (i < 3)%nat →
       returned (resume i 9 (resume i 9 (settle 0%nat (Fulfilled "X") s1)))
         !! i
       = Some (inl {| resData := "X"; isStale := false; source := Fresh |}))
  ∧ cache s !! "artist:x" = None
  ∧ fetches s' = fetches s
  ∧ returned (resume 2%nat 9 (resume 2%nat 9 (run [EvResume 0%nat 3] s')))
      !! 2%nat
    = Some (inl {| resData := "X"; isStale := false; source := Fresh |}).
Proof.
  cbv zeta. split; [|split; [vm_compute; reflexivity|]].
  - destruct (proj1 (proj2 (proj2 (@get_deduplicates string string)))
                init "artist:x" (ArtistData, 1%nat, 0)
                [(ArtistData, 2%nat, 1); (ArtistData, 3%nat, 2)]
                (ex_intro _ [] eq_refl) eq_refl eq_refl) as (Hf & _ & Hd).
    split; [exact Hf|].
    intros i Hi. exact (proj2 (Hd (Fulfilled "X") [] i Hi) 9 9).
  - destruct (proj1 (proj2 (proj2 (proj2 (@get_deduplicates string string))))
                (run [EvGet "artist:x" ArtistData 1 0;
                      EvGet "artist:y" ArtistData 5 1;
                      EvSettle 0%nat (Fulfilled "X")] init)
                "artist:x" ArtistData 2%nat 2
                (ex_intro _ [EvGet "artist:x" ArtistData 1 0;
                             EvGet "artist:y" ArtistData 5 1;
                             EvSettle 0%nat (Fulfilled "X")] eq_refl))
      as (role & p & _ & _ & Hcase & Hd).
    + vm_compute. reflexivity.
    + assert (Hreg : revalidationPromises
                       (run [EvGet "artist:x" ArtistData 1 0;
                             EvGet "artist:y" ArtistData 5 1;
                             EvSettle 0%nat (Fulfilled "X")]
                            (@init string string)) !! "artist:x"
                     = Some 0%nat) by (vm_compute; reflexivity).
      rewrite Hreg in Hcase. destruct Hcase as (_ & -> & Hf).
      split; [exact Hf|].
      refine (proj2 (proj2 (Hd [EvResume 0%nat 3]) (Fulfilled "X") _) 9 9).
      vm_compute. reflexivity.
Defined.



Lemma expired_like_absent_witness :
  let s : State string string :=
    run [EvSet "artist:x" "X" ArtistData 0] init in
  let life := [EvGet "artist:x" ArtistData 1 10800000;
               EvSettle 0%nat (Fulfilled "X2");
               EvResume 0%nat 10800001; EvResume 0%nat 10800002] in
  run life s = run life (withCache (delete "artist:x" (cache s)) s)
  ∧ returned (run life s) !! 0%nat
    = Some (inl {| resData := "X2"; isStale := false; source := Fresh |})
  ∧ cache (run life s) !! "artist:x"
    = Some {| data := "X2"; createdAt := 10800000; isRevalidating := false;
              contentType := ArtistData |}.
Proof.
  cbv zeta.
  destruct (@expired_like_absent string string
              (run [EvSet "artist:x" "X" ArtistData 0] init)
              "artist:x" ArtistData 1%nat 10800000
              {| data := "X"; createdAt := 0; isRevalidating := false;
                 contentType := ArtistData |})
    as (_ & _ & _ & _ & _ & Hlife).
  - vm_compute. reflexivity.
  - vm_compute. reflexivity.
  - exact (Hlife eq_refl "X2" 10800001 10800002).
Defined.

Lemma rejected_fetch_witness :
  let s : State string string :=
    run [EvSet "artist:x" "X" ArtistData 0;
         EvGet "artist:x" ArtistData 1 3000000;
         EvSettle 0%nat (Rejected "upstream down")] init in
  let s' := resume 0%nat 3000002 (resume 0%nat 3000001 s) in
  returned s' = returned s
  ∧ cache s !! "artist:x"
    = Some {| data := "X"; createdAt := 0; isRevalidating := true;
              contentType := ArtistData |}
  ∧ cache s' !! "artist:x"
    = Some {| data := "X"; createdAt := 0; isRevalidating := false;
              contentType := ArtistData |}
  ∧ returned (get "artist:x" ArtistData 2 3060000 s') !! nextId s'
    = Some (inl {| resData := "X"; isStale := true; source := FromCache |}).
Proof.
  cbv zeta.
  destruct (proj2 (@rejected_fetch string string)
              (run [EvSet "artist:x" "X" ArtistData 0;
                    EvGet "artist:x" ArtistData 1 3000000;
                    EvSettle 0%nat (Rejected "upstream down")] init)
              0%nat
              {| tKey := "artist:x"; tPromise := 0%nat;
                 tPhase := Fetching Owner;
                 tCont := BackgroundCont ArtistData |}
              Owner ArtistData "upstream down" 3000001 3000002
              {| data := "X"; createdAt := 0; isRevalidating := true;
                 contentType := ArtistData |})
    as (Hr & _ & Hc & _ & Hnext).
  - vm_compute. reflexivity.
  - reflexivity.
  - reflexivity.
  - vm_compute. reflexivity.
  - vm_compute. reflexivity.
  - split; [exact Hr|]. split; [vm_compute; reflexivity|].
    split; [rewrite Hc; apply lookup_insert_eq|].
    apply (Hnext ArtistData 2%nat 3060000).
    vm_compute. split; [reflexivity | discriminate].
Defined.

End SWRCacheSpec.

(** ** More on the rate limiter *)

Module RateLimiterMore.
Import RateLimiter.

Lemma limitOfKey_endpoint (e : Endpoint) :
  limitOfKey (endpointKey e) = Some (LIMITS e).
Proof. by destruct e. Qed.

Lemma limitOfKey_global : limitOfKey "global" = Some LIMITS_global.
Proof. reflexivity. Qed.

Lemma limit_positive key limit :
  limitOfKey key = Some limit → 0 < max limit.
Proof.
  unfold limitOfKey. destruct (endpointOfKey key) as [e|].
  - intros [= <-]. destruct e; cbn; lia.
  - destruct (String.eqb key "global"); [|done]. intros [= <-]. cbn. lia.
Qed.

(** *** The invariant *)

Lemma soundEntry_new key now limit :
  limitOfKey key = Some limit → soundEntry key (newEntry key now).
Proof.
  intros Hl. pose proof (limit_positive _ _ Hl).
  split; [exists limit; split; [done | cbn; lia]|].
  cbn. split; [lia|]. split; [lia|]. by split.
Qed.

Lemma soundEntry_mutations key now entry :
  soundEntry key entry →
  soundEntry key (unblockIfDue now (resetBurst now (resetWindow key now entry))).
Proof.
  intros ((limit & Hl & Hc) & H0 & Hb & Hbl & Hub).
  pose proof (limit_positive _ _ Hl) as Hpos.
  assert (H1 : soundEntry key (resetWindow key now entry)).
  { unfold resetWindow. case_match.
    - split; [exists limit; split; [done | cbn; lia]|].
      cbn. split; [lia|]. split; [lia|]. by split.
    - split; [by exists limit|]. done. }
  assert (H2 : soundEntry key (resetBurst now (resetWindow key now entry))).
  { destruct H1 as ((l1 & Hl1 & Hc1) & ? & ? & ? & ?).
    unfold resetBurst. case_match.
    - split; [by exists l1|]. cbn. split; [lia|]. split; [lia|]. by split.
    - split; [by exists l1|]. done. }
  destruct H2 as ((l2 & Hl2 & Hc2) & ? & ? & ? & ?).
  pose proof (limit_positive _ _ Hl2).
  unfold unblockIfDue. case_match; [split; [by exists l2|done]|].
  case_match; [|split; [by exists l2|done]].
  split; [exists l2; split; [done | cbn; lia]|].
  cbn. split; [lia|]. split; [lia|]. by split.
Qed.

Lemma sound_getOrCreateEntry key now (limits : gmap string RateLimitEntry) :
  is_Some (limitOfKey key) → sound limits →
  soundEntry key (fst (getOrCreateEntry key now limits))
  ∧ sound (snd (getOrCreateEntry key now limits)).
Proof.
  intros [limit Hl] Hs.
  assert (He : soundEntry key (fst (getOrCreateEntry key now limits))).
  { unfold getOrCreateEntry. cbn [fst]. apply soundEntry_mutations.
    destruct (limits !! key) as [entry|] eqn:Hk.
    - by apply Hs.
    - by apply (soundEntry_new _ _ limit). }
  split; [done|].
  intros k e Hk. destruct (decide (k = key)) as [->|Hne].
  - rewrite RateLimiterSpec.getOrCreateEntry_lookup in Hk. by injection Hk as <-.
  - rewrite RateLimiterSpec.getOrCreateEntry_lookup_ne in Hk by done.
    by apply Hs.
Qed.

Lemma sound_insert key entry (limits : gmap string RateLimitEntry) :
  sound limits → soundEntry key entry → sound (<[key := entry]> limits).
Proof.
  intros Hs He k e Hk. destruct (decide (k = key)) as [->|Hne].
  - rewrite lookup_insert_eq in Hk. by injection Hk as <-.
  - rewrite lookup_insert_ne in Hk by done. by apply Hs.
Qed.

Lemma soundEntry_block key now entry :
  soundEntry key entry → soundEntry key (block now entry).
Proof.
  intros (Hl & ? & ? & _ & _). split; [exact Hl|].
  cbn. split; [done|]. split; [done|]. split; [by eexists | done].
Qed.

Lemma soundEntry_incr key entry limit dev :
  soundEntry key entry →
  limitOfKey key = Some limit →
  (count entry >=? max limit) = false →
  soundEntry key
    (if negb dev then incrBurst (incrCount entry) else incrCount entry)
  ∧ soundEntry key (incrCount entry).
Proof.
  intros ((l & Hl & Hc) & ? & ? & ? & ?) Hl' Hx.
  assert (l = limit) as -> by congruence.
  assert (count entry < max limit) by lia.
  split; [destruct dev; cbn [negb]|];
    (split; [exists limit; split; [done | cbn; lia]|];
     cbn; split; [lia|]; split; [lia|]; by split).
Qed.

Lemma sound_checkLimit dev endpoint now nowE nowG
    (limits : gmap string RateLimitEntry) :
  sound limits →
  sound (snd (checkLimit dev endpoint now nowE nowG limits)).
Proof.
  intros Hs.
  destruct (sound_getOrCreateEntry (endpointKey endpoint) nowE limits)
    as [HE Hs1]; [by rewrite limitOfKey_endpoint | done |].
  destruct (sound_getOrCreateEntry "global" nowG
              (snd (getOrCreateEntry (endpointKey endpoint) nowE limits)))
    as [HG Hs2]; [by rewrite limitOfKey_global | done |].
  revert HE HG Hs2. unfold checkLimit.
  destruct (getOrCreateEntry (endpointKey endpoint) nowE limits)
    as [endpointEntry limits1].
  cbn [fst snd].
  destruct (getOrCreateEntry "global" nowG limits1)
    as [globalEntry limits2].
  cbn [fst snd]. intros HE HG Hs2.
  destruct (blocked endpointEntry); [done|].
  destruct (blocked globalEntry); [done|].
  destruct (count endpointEntry >=? max (LIMITS endpoint)) eqn:XE;
    destruct (count globalEntry >=? max LIMITS_global) eqn:XG;
    cbn [orb fst snd].
  - apply sound_insert; [apply sound_insert; [done|]|];
      by apply soundEntry_block.
  - apply sound_insert; [done|]. by apply soundEntry_block.
  - apply sound_insert; [done|]. by apply soundEntry_block.
  - case_match; cbn [fst snd]; [done|].
    destruct (soundEntry_incr _ _ _ dev HE (limitOfKey_endpoint endpoint) XE)
      as [_ HE'].
    destruct (soundEntry_incr _ _ _ dev HG limitOfKey_global XG) as [HG' _].
    apply sound_insert; [by apply sound_insert|].
    destruct dev; exact HG'.
Qed.

Lemma sound_prepared endpoint nowE nowG
    (limits : gmap string RateLimitEntry) :
  sound limits → sound (prepared endpoint nowE nowG limits).
Proof.
  intros Hs. unfold prepared.
  apply sound_getOrCreateEntry; [by rewrite limitOfKey_global|].
  apply sound_getOrCreateEntry; [by rewrite limitOfKey_endpoint | done].
Qed.

Lemma sound_applyOp (limits : gmap string RateLimitEntry) op :
  sound limits → sound (applyOp limits op).
Proof.
  intros Hs. destruct op as [dev c|c| |endpoint]; cbn [applyOp].
  - by apply sound_checkLimit.
  - rewrite RateLimiterSpec.checkLimitWithoutIncrement_snd.
    by apply sound_prepared.
  - intros k e Hk. unfold reset in Hk. by rewrite lookup_empty in Hk.
  - intros k e Hk. unfold resetEndpoint in Hk.
    apply lookup_delete_Some in Hk as [_ Hk].
    apply lookup_delete_Some in Hk as [_ Hk]. by apply Hs.
Qed.

Lemma reachable_sound (limits : gmap string RateLimitEntry) :
  reachable limits → sound limits.
Proof.
  intros [ops ->].
  assert (H : ∀ l0 : gmap string RateLimitEntry,
            sound l0 → sound (fold_left applyOp ops l0)).
  { induction ops as [|op ops IH]; intros l0 H0; [done|].
    cbn. by apply IH, sound_applyOp. }
  apply H. intros k e Hk. by rewrite lookup_empty in Hk.
Qed.

(** X1.  Whatever calls have been made on a limiter since it was
    constructed, every entry it holds is stored under the key of an endpoint
    or under "global", its [count] lies between zero and the [max] of that
    key, its [burstCount] is not negative, and it has a [blockUntil] exactly
    when it is blocked. *)
Theorem counts_within_limits (limits : gmap string RateLimitEntry) :
  reachable limits →
  ∀ key entry,
    limits !! key = Some entry →
    ∃ limit,
      limitOfKey key = Some limit
      ∧ 0 <= count entry <= max limit
      ∧ 0 <= burstCount entry
      ∧ (blocked entry = true ↔ is_Some (blockUntil entry)).
Proof.
  intros Hr key entry Hk.
  destruct (reachable_sound _ Hr _ _ Hk)
    as ((limit & Hl & Hc) & H0 & Hb & Hbl & Hub).
  exists limit. split; [done|]. split; [lia|]. split; [done|].
  split; [done|]. intros [u Hu]. destruct (blocked entry); [done|].
  rewrite Hub in Hu; done.
Qed.

Lemma counts_within_limits_witness :
  let limits :=
    fold_left applyOp
      (replicate 60 (OpCheckLimit false (callAt SpotifyAlbums 0))) ∅ in
  reachable limits
  ∧ ∃ entry, limits !! "spotify-albums" = Some entry
             ∧ 0 <= count entry <= 50.
Proof.
  cbv zeta.
  assert (Hr : reachable
                 (fold_left applyOp
                    (replicate 60 (OpCheckLimit false (callAt SpotifyAlbums 0)))
                    ∅)) by (by eexists).
  split; [exact Hr|].
  eexists. split; [vm_compute; reflexivity|].
  destruct (counts_within_limits _ Hr "spotify-albums"
              {| count := 50; resetTime := 300000; blocked := true;
                 blockUntil := Some 30000; burstCount := 0;
                 lastBurstReset := 0 |}) as (limit & Hl & Hc & _).
  - vm_compute. reflexivity.
  - injection Hl as <-. exact Hc.
Defined.

(** X2.  On a limiter that calls have produced, the object [checkLimit]
    returns is well formed: [resetIn] is a number (never the [NaN] of an
    undefined [blockUntil]), [remaining] is not negative and is zero on a
    rejection, and a [message] is present exactly on a rejection. *)
Theorem checkLimit_result_well_formed
    (limits : gmap string RateLimitEntry) dev endpoint now nowE nowG :
  reachable limits →
  let r := fst (checkLimit dev endpoint now nowE nowG limits) in
  is_Some (resetIn r)
  ∧ 0 <= remaining r
  ∧ (allowed r = false → remaining r = 0)
  ∧ (allowed r = false ↔ is_Some (message r)).
Proof.
  intros Hr. apply reachable_sound in Hr. cbv zeta.
  destruct (sound_getOrCreateEntry (endpointKey endpoint) nowE limits)
    as [HE Hs1]; [by rewrite limitOfKey_endpoint | done |].
  destruct (sound_getOrCreateEntry "global" nowG
              (snd (getOrCreateEntry (endpointKey endpoint) nowE limits)))
    as [HG _]; [by rewrite limitOfKey_global | done |].
  revert HE HG. unfold checkLimit.
  destruct (getOrCreateEntry (endpointKey endpoint) nowE limits)
    as [endpointEntry limits1].
  cbn [fst snd].
  destruct (getOrCreateEntry "global" nowG limits1)
    as [globalEntry limits2].
  cbn [fst snd].
  intros ((lE & HlE & HcE) & _ & _ & HbE & _)
         ((lG & HlG & HcG) & _ & _ & HbG & _).
  rewrite limitOfKey_endpoint in HlE. injection HlE as <-.
  rewrite limitOfKey_global in HlG. injection HlG as <-.
  destruct (blocked endpointEntry) eqn:BE.
  { cbn. destruct (HbE eq_refl) as [u Hu]. unfold blockResetIn. rewrite Hu.
    split; [by eexists|]. split; [lia|]. split; [done|].
    split; [by eexists | done]. }
  destruct (blocked globalEntry) eqn:BG.
  { cbn. destruct (HbG eq_refl) as [u Hu]. unfold blockResetIn. rewrite Hu.
    split; [by eexists|]. split; [lia|]. split; [done|].
    split; [by eexists | done]. }
  destruct (count endpointEntry >=? max (LIMITS endpoint)) eqn:XE;
    destruct (count globalEntry >=? max LIMITS_global) eqn:XG;
    cbn [orb fst snd];
    try (cbn; split; [by eexists|]; split; [lia|]; split; [done|];
         split; [by eexists | done]).
  case_match; cbn [fst].
  - cbn. split; [by eexists|]. split; [lia|]. split; [done|].
    split; [by eexists | done].
  - cbn [resetIn remaining allowed message incrCount count].
    split; [by eexists|]. split; [|split; [done|]].
    + assert (count endpointEntry < max (LIMITS endpoint)) by lia.
      assert (count globalEntry < max LIMITS_global) by lia.
      destruct dev; cbn [negb incrBurst incrCount count]; apply Z.min_glb;
        lia.
    + split; [done|]. by intros [? ?].
Qed.

Lemma checkLimit_result_well_formed_witness :
  let limits :=
    fold_left applyOp
      (replicate 60 (OpCheckLimit false (callAt SpotifyAlbums 0))) ∅ in
  let r := fst (checkLimit false SpotifyAlbums 10 10 10 limits) in
  reachable limits ∧ is_Some (resetIn r) ∧ allowed r = false.
Proof.
  cbv zeta.
  assert (Hr : reachable
                 (fold_left applyOp
                    (replicate 60 (OpCheckLimit false (callAt SpotifyAlbums 0)))
                    ∅)) by (by eexists).
  split; [exact Hr|].
  split; [|vm_compute; reflexivity].
  exact (proj1 (checkLimit_result_well_formed _ false SpotifyAlbums 10 10 10
                  Hr)).
Defined.

(** *** Accepted calls *)

Lemma checkLimit_allowed_inv dev endpoint now nowE nowG
    (limits : gmap string RateLimitEntry) :
  allowed (fst (checkLimit dev endpoint now nowE nowG limits)) = true →
  count (fst (getOrCreateEntry (endpointKey endpoint) nowE limits))
  < max (LIMITS endpoint)
  ∧ count (fst (getOrCreateEntry "global" nowG
                (snd (getOrCreateEntry (endpointKey endpoint) nowE limits))))
    < max LIMITS_global
  ∧ snd (checkLimit dev endpoint now nowE nowG limits)
    = <["global" :=
          if negb dev
          then incrBurst (incrCount (fst (getOrCreateEntry "global" nowG
                (snd (getOrCreateEntry (endpointKey endpoint) nowE limits)))))
          else incrCount (fst (getOrCreateEntry "global" nowG
                (snd (getOrCreateEntry (endpointKey endpoint) nowE limits))))]>
        (<[endpointKey endpoint := incrCount (fst (getOrCreateEntry (endpointKey endpoint) nowE limits))]>
           (prepared endpoint nowE nowG limits))
  ∧ remaining (fst (checkLimit dev endpoint now nowE nowG limits))
    = Z.min (max (LIMITS endpoint) - (count (fst (getOrCreateEntry (endpointKey endpoint) nowE limits)) + 1))
            (max LIMITS_global - (count (fst (getOrCreateEntry "global" nowG
                (snd (getOrCreateEntry (endpointKey endpoint) nowE limits)))) + 1)).
Proof.
  unfold checkLimit, prepared.
  destruct (getOrCreateEntry (endpointKey endpoint) nowE limits)
    as [endpointEntry limits1].
  cbn [fst snd].
  destruct (getOrCreateEntry "global" nowG limits1)
    as [globalEntry limits2].
  cbn [fst snd].
  destruct (blocked endpointEntry); [done|].
  destruct (blocked globalEntry); [done|].
  destruct (count endpointEntry >=? max (LIMITS endpoint)) eqn:XE;
    destruct (count globalEntry >=? max LIMITS_global) eqn:XG;
    cbn [orb fst snd allowed]; try done.
  case_match; cbn [fst snd allowed remaining]; [done|].
  intros _. split; [lia|]. split; [lia|]. split; [done|].
  by destruct dev.
Qed.

Lemma checkLimit_accepts dev endpoint now nowE nowG
    (limits : gmap string RateLimitEntry) :
  blocked (fst (getOrCreateEntry (endpointKey endpoint) nowE limits)) = false →
  blocked (fst (getOrCreateEntry "global" nowG
                (snd (getOrCreateEntry (endpointKey endpoint) nowE limits)))) = false →
  count (fst (getOrCreateEntry (endpointKey endpoint) nowE limits)) < max (LIMITS endpoint) →
  count (fst (getOrCreateEntry "global" nowG
                (snd (getOrCreateEntry (endpointKey endpoint) nowE limits)))) < max LIMITS_global →
  dev = true ∨ burstCount (fst (getOrCreateEntry "global" nowG
                (snd (getOrCreateEntry (endpointKey endpoint) nowE limits)))) < burstMax →
  allowed (fst (checkLimit dev endpoint now nowE nowG limits)) = true.
Proof.
  unfold checkLimit.
  destruct (getOrCreateEntry (endpointKey endpoint) nowE limits)
    as [endpointEntry limits1].
  cbn [fst snd].
  destruct (getOrCreateEntry "global" nowG limits1)
    as [globalEntry limits2].
  cbn [fst snd]. intros -> -> HE HG Hburst.
  replace (count endpointEntry >=? max (LIMITS endpoint)) with false
    by (symmetry; lia).
  replace (count globalEntry >=? max LIMITS_global) with false
    by (symmetry; lia).
  cbn [orb].
  replace (negb dev && (burstCount globalEntry >=? burstMax)) with false;
    [done|].
  destruct Hburst as [->|Hb]; [done|].
  replace (burstCount globalEntry >=? burstMax) with false
    by (symmetry; lia).
  by rewrite andb_false_r.
Qed.

(** X3.  A call of [checkLimit] that answers [allowed = true] takes
    exactly one unit from the counter of its endpoint and one from the
    global counter, counted from the state the two [getOrCreateEntry] calls
    leave; it adds one to the global [burstCount] outside development mode
    and none in it; both counters were below their [max]; [remaining] is the
    smaller of what is left of the two; every other counter is as the call
    found it. *)
Theorem checkLimit_accepted_consumes_one dev endpoint now nowE nowG
    (limits : gmap string RateLimitEntry) :
  allowed (fst (checkLimit dev endpoint now nowE nowG limits)) = true →
  ∃ e0 g0 e1 g1,
    prepared endpoint nowE nowG limits !! endpointKey endpoint = Some e0
    ∧ prepared endpoint nowE nowG limits !! "global" = Some g0
    ∧ snd (checkLimit dev endpoint now nowE nowG limits)
        !! endpointKey endpoint = Some e1
    ∧ snd (checkLimit dev endpoint now nowE nowG limits) !! "global"
      = Some g1
    ∧ count e1 = count e0 + 1
    ∧ burstCount e1 = burstCount e0
    ∧ count g1 = count g0 + 1
    ∧ burstCount g1 = burstCount g0 + (if dev then 0 else 1)
    ∧ count e0 < max (LIMITS endpoint)
    ∧ count g0 < max LIMITS_global
    ∧ remaining (fst (checkLimit dev endpoint now nowE nowG limits))
      = Z.min (max (LIMITS endpoint) - count e1)
              (max LIMITS_global - count g1)
    ∧ ∀ key, key ≠ endpointKey endpoint → key ≠ "global" →
             snd (checkLimit dev endpoint now nowE nowG limits) !! key
             = limits !! key.
Proof.
  intros Ha.
  destruct (checkLimit_allowed_inv _ _ _ _ _ _ Ha) as (HE & HG & Hs & Hr).
  pose proof (RateLimiterSpec.endpointKey_not_global endpoint) as Hg.
  eexists _, _, _, _.
  split; [apply RateLimiterSpec.prepared_endpoint|].
  split; [apply RateLimiterSpec.prepared_global|].
  split; [rewrite Hs, lookup_insert_ne by done; apply lookup_insert_eq|].
  split; [rewrite Hs; apply lookup_insert_eq|].
  split; [done|]. split; [done|].
  split; [by destruct dev|]. split; [destruct dev; cbn; lia|].
  split; [done|]. split; [done|].
  split; [rewrite Hr; by destruct dev|].
  intros key H1 H2. by apply RateLimiterSpec.checkLimit_frame.
Qed.

Lemma checkLimit_accepted_consumes_one_witness :
  allowed (fst (checkLimit false SpotifyAlbums 5 5 5 ∅)) = true
  ∧ ∃ e1, snd (checkLimit false SpotifyAlbums 5 5 5 ∅) !! "spotify-albums"
          = Some e1 ∧ count e1 = 1.
Proof.
  assert (Ha : allowed (fst (checkLimit false SpotifyAlbums 5 5 5 ∅)) = true)
    by (vm_compute; reflexivity).
  split; [exact Ha|].
  destruct (checkLimit_accepted_consumes_one false SpotifyAlbums 5 5 5 ∅ Ha)
    as (e0 & g0 & e1 & g1 & He0 & _ & He1 & _ & Hc & _).
  exists e1. split; [exact He1|].
  rewrite Hc. vm_compute in He0. injection He0 as <-. reflexivity.
Defined.

(** *** Counters that start afresh *)

Lemma getOrCreateEntry_fst_ext key now
    (l1 l2 : gmap string RateLimitEntry) :
  l1 !! key = l2 !! key →
  fst (getOrCreateEntry key now l1) = fst (getOrCreateEntry key now l2).
Proof. intros H. unfold getOrCreateEntry. cbn [fst]. by rewrite H. Qed.

Lemma getOrCreateEntry_restart key now
    (limits : gmap string RateLimitEntry) :
  restarts key now limits →
  count (fst (getOrCreateEntry key now limits)) = 0
  ∧ blocked (fst (getOrCreateEntry key now limits)) = false.
Proof.
  unfold restarts, getOrCreateEntry. cbn [fst].
  destruct (limits !! key) as [entry|].
  - intros [Hw|(Hb & u & Hu & Hu0 & Hge)].
    + unfold resetWindow.
      replace (now >? resetTime entry) with true by (symmetry; lia).
      unfold resetBurst. case_match; unfold unblockIfDue; cbn; done.
    + unfold resetWindow. case_match.
      * unfold resetBurst. case_match; unfold unblockIfDue; cbn; done.
      * assert (Hrb : blocked (resetBurst now entry) = true
                      ∧ blockUntil (resetBurst now entry) = Some u).
        { unfold resetBurst. case_match; cbn; done. }
        destruct Hrb as [Hb' Hu'].
        unfold unblockIfDue, ltBlockUntil, geBlockUntil, truthyNum.
        rewrite Hb', Hu'.
        replace (u =? 0) with false by (symmetry; lia).
        replace (now <? u) with false by (symmetry; lia).
        replace (now >=? u) with true by (symmetry; lia).
        done.
  - intros _. unfold resetWindow, newEntry. cbn.
    case_match; unfold resetBurst; cbn; case_match; unfold unblockIfDue;
      cbn; done.
Qed.

Lemma getOrCreateEntry_burst key now
    (limits : gmap string RateLimitEntry) :
  match limits !! key with
  | None => True
  | Some entry => burstCount entry < burstMax
  end →
  burstCount (fst (getOrCreateEntry key now limits)) < burstMax.
Proof.
  pose proof (RateLimiterSpec.getOrCreateEntry_counts key now limits) as H.
  cbv zeta in H. unfold burstMax in *.
  destruct (limits !! key) as [entry|].
  - destruct H as [_ [-> | ->]]; lia.
  - destruct H as [_ ->]. lia.
Qed.

Lemma restart_accepts dev endpoint now nowE nowG
    (limits : gmap string RateLimitEntry) :
  restarts (endpointKey endpoint) nowE limits →
  restarts "global" nowG limits →
  burstQuiet dev limits →
  allowed (fst (checkLimit dev endpoint now nowE nowG limits)) = true
  ∧ remaining (fst (checkLimit dev endpoint now nowE nowG limits))
    = Z.min (max (LIMITS endpoint) - 1) (max LIMITS_global - 1)
  ∧ (∃ e1, snd (checkLimit dev endpoint now nowE nowG limits)
             !! endpointKey endpoint = Some e1 ∧ count e1 = 1)
  ∧ (∃ g1, snd (checkLimit dev endpoint now nowE nowG limits) !! "global"
           = Some g1 ∧ count g1 = 1).
Proof.
  intros HrE HrG Hq.
  pose proof (RateLimiterSpec.endpointKey_not_global endpoint) as Hg.
  destruct (getOrCreateEntry_restart _ _ _ HrE) as [HcE HbE].
  assert (Hl1 : snd (getOrCreateEntry (endpointKey endpoint) nowE limits)
                  !! "global" = limits !! "global")
    by by apply RateLimiterSpec.getOrCreateEntry_lookup_ne.
  assert (HrG' : restarts "global" nowG
                   (snd (getOrCreateEntry (endpointKey endpoint) nowE limits)))
    by (unfold restarts; by rewrite Hl1).
  destruct (getOrCreateEntry_restart _ _ _ HrG') as [HcG HbG].
  assert (Hburst : dev = true
                   ∨ burstCount
                       (fst (getOrCreateEntry "global" nowG
                               (snd (getOrCreateEntry (endpointKey endpoint)
                                                      nowE limits))))
                     < burstMax).
  { destruct Hq as [->|Hq]; [by left|]. right.
    apply getOrCreateEntry_burst. by rewrite Hl1. }
  assert (Ha : allowed (fst (checkLimit dev endpoint now nowE nowG limits))
               = true).
  { apply checkLimit_accepts; try done.
    - rewrite HcE. destruct endpoint; cbn; lia.
    - rewrite HcG. cbn. lia. }
  destruct (checkLimit_allowed_inv _ _ _ _ _ _ Ha) as (_ & _ & Hs & Hr).
  split; [done|]. split; [by rewrite Hr, HcE, HcG|].
  split.
  - eexists. rewrite Hs, lookup_insert_ne by done.
    split; [apply lookup_insert_eq|]. cbn [count incrCount]. by rewrite HcE.
  - eexists. rewrite Hs. split; [apply lookup_insert_eq|].
    destruct dev; cbn [negb count incrCount incrBurst]; by rewrite HcG.
Qed.

(** X4.  When both the counter of the endpoint and the global counter
    start afresh (no entry yet, window elapsed, or cooldown elapsed) and the
    burst throttle cannot fire, [checkLimit] accepts the call, reports
    [remaining] as one less than the smaller [max], and leaves both
    counters at one.  In particular a counter that was blocked gets a full
    new budget as soon as its cooldown has elapsed, inside the same
    window. *)
Theorem accepted_after_restart dev endpoint now nowE nowG
    (limits : gmap string RateLimitEntry) :
  restarts (endpointKey endpoint) nowE limits →
  restarts "global" nowG limits →
  burstQuiet dev limits →
  allowed (fst (checkLimit dev endpoint now nowE nowG limits)) = true
  ∧ remaining (fst (checkLimit dev endpoint now nowE nowG limits))
    = Z.min (max (LIMITS endpoint) - 1) (max LIMITS_global - 1)
  ∧ (∃ e1, snd (checkLimit dev endpoint now nowE nowG limits)
             !! endpointKey endpoint = Some e1 ∧ count e1 = 1)
  ∧ (∃ g1, snd (checkLimit dev endpoint now nowE nowG limits) !! "global"
           = Some g1 ∧ count g1 = 1).
Proof. apply restart_accepts. Qed.

Lemma accepted_after_restart_witness :
  let limits :=
    fold_left applyOp
      (replicate 60 (OpCheckLimit false (callAt SpotifyAlbums 0))) ∅ in
  (∃ entry, limits !! "spotify-albums" = Some entry ∧ blocked entry = true)
  ∧ allowed (fst (checkLimit false SpotifyAlbums 70000 70000 70000 limits))
    = true.
Proof.
  cbv zeta. split; [eexists; split; vm_compute; reflexivity|].
  refine (proj1 (accepted_after_restart false SpotifyAlbums 70000 70000 70000
                   (fold_left applyOp
                      (replicate 60
                         (OpCheckLimit false (callAt SpotifyAlbums 0))) ∅)
                   _ _ _)).
  - unfold restarts.
    replace (fold_left applyOp
               (replicate 60 (OpCheckLimit false (callAt SpotifyAlbums 0))) ∅
               !! endpointKey SpotifyAlbums)
      with (Some {| count := 50; resetTime := 300000; blocked := true;
                    blockUntil := Some 30000; burstCount := 0;
                    lastBurstReset := 0 |})
      by (vm_compute; reflexivity).
    right. split; [reflexivity|]. exists 30000.
    split; [reflexivity|]. split; [discriminate | lia].
  - unfold restarts.
    replace (fold_left applyOp
               (replicate 60 (OpCheckLimit false (callAt SpotifyAlbums 0))) ∅
               !! "global")
      with (Some {| count := 50; resetTime := 60000; blocked := false;
                    blockUntil := None; burstCount := 50;
                    lastBurstReset := 0 |})
      by (vm_compute; reflexivity).
    left. cbn. lia.
  - right.
    replace (fold_left applyOp
               (replicate 60 (OpCheckLimit false (callAt SpotifyAlbums 0))) ∅
               !! "global")
      with (Some {| count := 50; resetTime := 60000; blocked := false;
                    blockUntil := None; burstCount := 50;
                    lastBurstReset := 0 |})
      by (vm_compute; reflexivity).
    cbn. unfold burstMax. lia.
Defined.

(** X5.  [resetEndpoint] removes the counter of the endpoint and the
    global counter and nothing else, so the next [checkLimit] for that
    endpoint is accepted in either mode with a full budget; after [reset]
    the same holds for every endpoint. *)
Theorem reset_restores_budget dev endpoint now nowE nowG
    (limits : gmap string RateLimitEntry) :
  let limits' := resetEndpoint (endpointKey endpoint) limits in
  limits' !! endpointKey endpoint = None
  ∧ limits' !! "global" = None
  ∧ (∀ key, key ≠ endpointKey endpoint → key ≠ "global" →
            limits' !! key = limits !! key)
  ∧ allowed (fst (checkLimit dev endpoint now nowE nowG limits')) = true
  ∧ remaining (fst (checkLimit dev endpoint now nowE nowG limits'))
    = Z.min (max (LIMITS endpoint) - 1) (max LIMITS_global - 1)
  ∧ (∀ endpoint',
       allowed (fst (checkLimit dev endpoint' now nowE nowG (reset limits)))
       = true).
Proof.
  cbv zeta.
  pose proof (RateLimiterSpec.endpointKey_not_global endpoint) as Hg.
  assert (HE : resetEndpoint (endpointKey endpoint) limits
                 !! endpointKey endpoint = None).
  { unfold resetEndpoint. rewrite lookup_delete_ne by done.
    apply lookup_delete_eq. }
  assert (HG : resetEndpoint (endpointKey endpoint) limits !! "global"
               = None) by apply lookup_delete_eq.
  split; [done|]. split; [done|]. split.
  { intros key H1 H2. unfold resetEndpoint.
    by rewrite !lookup_delete_ne. }
  destruct (restart_accepts dev endpoint now nowE nowG
              (resetEndpoint (endpointKey endpoint) limits))
    as (Ha & Hr & _).
  { unfold restarts. by rewrite HE. }
  { unfold restarts. by rewrite HG. }
  { right. by rewrite HG. }
  split; [done|]. split; [done|].
  intros endpoint'.
  apply (restart_accepts dev endpoint' now nowE nowG (reset limits)).
  - unfold restarts, reset. by rewrite lookup_empty.
  - unfold restarts, reset. by rewrite lookup_empty.
  - right. unfold reset. by rewrite lookup_empty.
Qed.

(** *** [getStatus] *)

Lemma getStatus_lookup now (limits : gmap string RateLimitEntry) key :
  getStatus now limits !! key
  = entry ← limits !! key;
    (λ limit,
       {| sCount := count entry;
          sMax := max limit;
          sRemaining := Z.max 0 (max limit - count entry);
          sResetIn := ceilDiv (resetTime entry - now) 1000;
          sBlocked := blocked entry;
          sBlockUntil :=
            if truthyNum (blockUntil entry)
            then (λ b, ceilDiv (b - now) 1000) <$> blockUntil entry
            else None |}) <$> limitOfKey key.
Proof. unfold getStatus. by rewrite map_lookup_imap. Qed.

(** X6.  On a limiter that calls have produced, [getStatus] reports every
    counter the limiter holds and no other; for each one, [count] and
    [remaining] add up to [max], [remaining] is not negative, [blocked] is
    the flag of the entry, and a counter that is not blocked has no
    [blockUntil]. *)
Theorem getStatus_reports_counters (limits : gmap string RateLimitEntry)
    now :
  reachable limits →
  (∀ key, is_Some (getStatus now limits !! key) ↔ is_Some (limits !! key))
  ∧ ∀ key st,
      getStatus now limits !! key = Some st →
      ∃ entry limit,
        limits !! key = Some entry
        ∧ limitOfKey key = Some limit
        ∧ sCount st = count entry
        ∧ sMax st = max limit
        ∧ sCount st + sRemaining st = sMax st
        ∧ 0 <= sRemaining st
        ∧ sBlocked st = blocked entry
        ∧ (sBlocked st = false → sBlockUntil st = None).
Proof.
  intros Hr. apply reachable_sound in Hr. split.
  - intros key. rewrite getStatus_lookup.
    destruct (limits !! key) as [entry|] eqn:Hk; cbn.
    + destruct (Hr _ _ Hk) as ((limit & -> & _) & _). cbn.
      split; intros _; by eexists.
    + split; intros [? ?]; done.
  - intros key st. rewrite getStatus_lookup.
    destruct (limits !! key) as [entry|] eqn:Hk; [|done]. cbn.
    destruct (Hr _ _ Hk) as ((limit & Hl & Hc) & H0 & _ & _ & Hub).
    rewrite Hl. cbn. intros [= <-]. exists entry, limit. cbn.
    split; [done|]. split; [done|]. split; [done|]. split; [done|].
    split; [lia|]. split; [lia|]. split; [done|].
    intros Hb. by rewrite (Hub Hb).
Qed.

Lemma getStatus_reports_counters_witness :
  let limits :=
    fold_left applyOp
      (replicate 60 (OpCheckLimit false (callAt SpotifyAlbums 0))) ∅ in
  reachable limits
  ∧ ∃ st, getStatus 1000 limits !! "spotify-albums" = Some st
          ∧ sCount st + sRemaining st = sMax st.
Proof.
  cbv zeta.
  assert (Hr : reachable
                 (fold_left applyOp
                    (replicate 60 (OpCheckLimit false (callAt SpotifyAlbums 0)))
                    ∅)) by (by eexists).
  split; [exact Hr|].
  eexists. split; [vm_compute; reflexivity|].
  destruct (proj2 (getStatus_reports_counters _ 1000 Hr) "spotify-albums"
              {| sCount := 50; sMax := 50; sRemaining := 0; sResetIn := 299;
                 sBlocked := true; sBlockUntil := Some 29 |})
    as (entry & limit & _ & _ & _ & _ & Hsum & _).
  - vm_compute. reflexivity.
  - exact Hsum.
Defined.

End RateLimiterMore.

(** ** More on the artist id mapping cache *)

Module ArtistMappingCacheMore.
Import ArtistMappingCache.

Lemma tableGet_In key m (cache : Table) :
  tableGet key cache = Some m → In (key, m) cache.
Proof.
  induction cache as [|[k m'] rest IH]; cbn; [done|].
  destruct (String.eqb k key) eqn:Ek.
  - apply String.eqb_eq in Ek as ->. intros [= ->]. by left.
  - intros H. right. auto.
Qed.

Lemma find_found {A} (f : A → bool) (l : list A) x :
  In x l → f x = true → ∃ y, List.find f l = Some y ∧ f y = true.
Proof.
  intros Hin Hf. destruct (List.find f l) as [y|] eqn:Hfind.
  - exists y. split; [done|]. by apply find_some in Hfind as [_ ?].
  - pose proof (find_none _ _ Hfind x Hin). congruence.
Qed.

Lemma TTL_nonneg : 0 <= TTL.
Proof. unfold TTL. lia. Qed.

(** X11.  A mapping that [setMapping] has just written is found by each
    of its keys for as long as it is no older than [TTL]: by its unified id
    (the very mapping written), by the Spotify id the call supplied, and by
    the Last.fm name the call supplied, in any spelling that lower-cases to
    the same string.  The two scans return a current mapping that carries
    the key asked for. *)
Theorem written_mapping_is_found (toLowerCase : string → string)
    (cache : Table) data written now :
  now - written <= TTL →
  let cache' := setMapping data written cache in
  (∃ m, getByUnifiedId (dUnifiedId data) now cache' = (Some m, cache')
        ∧ tableGet (dUnifiedId data) cache' = Some m
        ∧ lastUpdated m = written)
  ∧ (∀ s, dSpotifyId data = Some s → s ≠ "" →
          ∃ m, fst (getBySpotifyId s now cache') = Some m
               ∧ spotifyId m = Some s
               ∧ now - lastUpdated m <= TTL)
  ∧ (∀ n n', dLastFmName data = Some n → n ≠ "" →
             toLowerCase n' = toLowerCase n →
             ∃ m, fst (getByLastFmName toLowerCase n' now cache') = Some m
                  ∧ toLowerCase <$> lastFmName m = Some (toLowerCase n)
                  ∧ now - lastUpdated m <= TTL).
Proof.
  intros Hage. cbv zeta.
  pose proof (ArtistMappingCacheSpec.setMapping_lookup data written cache)
    as Hl.
  split; [|split].
  - eexists. unfold getByUnifiedId. rewrite Hl. cbn [lastUpdated].
    replace (now - written >? TTL) with false by (symmetry; lia). done.
  - intros s Hs Hne.
    apply tableGet_In in Hl.
    destruct (find_found
                (fun km => eqOptStr (spotifyId (snd km)) s
                           && (now - lastUpdated (snd km) <=? TTL))
                _ _ Hl) as ([k m] & Hfind & Hf).
    { cbn. rewrite Hs, (ArtistMappingCacheSpec.orStr_supplied _ _ Hne). cbn.
      rewrite String.eqb_refl. cbn. lia. }
    exists m. unfold getBySpotifyId. cbn [fst]. rewrite Hfind.
    split; [done|]. cbn in Hf. apply andb_true_iff in Hf as [Hid Hold].
    split; [|lia]. unfold eqOptStr in Hid.
    destruct (spotifyId m); [|done]. by apply String.eqb_eq in Hid as ->.
  - intros n n' Hn Hne Hlow.
    apply tableGet_In in Hl.
    destruct (find_found
                (fun km => eqOptStr (toLowerCase <$> lastFmName (snd km))
                                    (toLowerCase n')
                           && (now - lastUpdated (snd km) <=? TTL))
                _ _ Hl) as ([k m] & Hfind & Hf).
    { cbn. rewrite Hn, (ArtistMappingCacheSpec.orStr_supplied _ _ Hne). cbn.
      rewrite Hlow, String.eqb_refl. cbn. lia. }
    exists m. unfold getByLastFmName. cbn [fst]. rewrite Hfind.
    split; [done|]. cbn in Hf. apply andb_true_iff in Hf as [Hid Hold].
    split; [|lia]. unfold eqOptStr in Hid.
    destruct (lastFmName m); [|done]. cbn in *.
    apply String.eqb_eq in Hid. by rewrite Hid, Hlow.
Qed.

Lemma written_mapping_is_found_witness :
  let cache' :=
    setMapping {| dUnifiedId := "iu"; dSpotifyId := Some "3HqSLMAZ";
                  dSpotifyName := Some "IU"; dLastFmName := Some "IU" |}
               1000 [] in
  ∃ m, fst (getByLastFmName lowerAscii "iu" 2000 cache') = Some m
       ∧ lowerAscii <$> lastFmName m = Some "iu".
Proof.
  cbv zeta.
  destruct (proj2 (proj2 (written_mapping_is_found lowerAscii []
                            {| dUnifiedId := "iu";
                               dSpotifyId := Some "3HqSLMAZ";
                               dSpotifyName := Some "IU";
                               dLastFmName := Some "IU" |} 1000 2000
                            ltac:(unfold TTL; lia)))
              "IU" "iu" eq_refl ltac:(discriminate) eq_refl)
    as (m & Hf & Hn & _).
  exists m. split; [exact Hf | exact Hn].
Defined.

(** *** [cleanup] and [getStats] *)

Lemma tableGet_filter (P : ArtistMapping → bool) key (cache : Table) :
  keysDistinct cache →
  tableGet key (List.filter (fun km => P (snd km)) cache)
  = match tableGet key cache with
    | Some m => if P m then Some m else None
    | None => None
    end.
Proof.
  unfold keysDistinct.
  induction cache as [|[k m] rest IH]; cbn; [done|].
  intros Hnd. apply NoDup_cons in Hnd as [Hk Hnd].
  destruct (String.eqb k key) eqn:Ek.
  - apply String.eqb_eq in Ek as ->.
    destruct (P m); cbn.
    + by rewrite String.eqb_refl.
    + rewrite (IH Hnd).
      apply ArtistMappingCacheSpec.tableGet_None in Hk. by rewrite Hk.
  - destruct (P m); cbn; [rewrite Ek|]; by apply IH.
Qed.

Lemma filter_length_split {A} (f : A → bool) (l : list A) :
  length l
  = (length (List.filter f l) + length (List.filter (λ x, negb (f x)) l))%nat.
Proof.
  induction l as [|x l IH]; cbn; [done|].
  destruct (f x); cbn; lia.
Qed.

Lemma filter_filter_same {A} (f : A → bool) (l : list A) :
  List.filter f (List.filter f l) = List.filter f l.
Proof.
  induction l as [|x l IH]; cbn; [done|].
  destruct (f x) eqn:Ef; cbn; [rewrite Ef|]; by rewrite ?IH.
Qed.

Lemma filter_filter_none {A} (f : A → bool) (l : list A) :
  List.filter f (List.filter (λ x, negb (f x)) l) = [].
Proof.
  induction l as [|x l IH]; cbn; [done|].
  destruct (f x) eqn:Ef; cbn; [|rewrite Ef]; done.
Qed.

(** X12.  [cleanup] removes exactly the mappings [getStats] counts as
    expired: the size it reports is the number of expired mappings plus the
    number [cleanup] leaves; after [cleanup] none is counted as expired and
    a second [cleanup] changes nothing.  On a table with distinct keys,
    [getByUnifiedId] answers after [cleanup] what it answered before, and
    has nothing left to delete. *)
Theorem mapping_cleanup_removes_expired (cache : Table) now :
  statSize (getStats now cache) = length cache
  ∧ statSize (getStats now cache)
    = (statExpired (getStats now cache) + length (cleanup now cache))%nat
  ∧ statExpired (getStats now (cleanup now cache)) = 0%nat
  ∧ cleanup now (cleanup now cache) = cleanup now cache
  ∧ (keysDistinct cache →
     ∀ id,
       fst (getByUnifiedId id now (cleanup now cache))
       = fst (getByUnifiedId id now cache)
       ∧ snd (getByUnifiedId id now (cleanup now cache))
         = cleanup now cache).
Proof.
  split; [done|]. split; [|split; [|split]].
  - cbn. unfold cleanup. apply filter_length_split.
  - cbn. unfold cleanup. by rewrite filter_filter_none.
  - unfold cleanup. apply filter_filter_same.
  - intros Hnd id. unfold getByUnifiedId, cleanup.
    rewrite (tableGet_filter (λ m, negb (now - lastUpdated m >? TTL)))
      by done.
    destruct (tableGet id cache) as [m|]; [|done].
    destruct (now - lastUpdated m >? TTL) eqn:Hx; cbn; [done|].
    by rewrite Hx.
Qed.

(** X13.  [setMapping] reads the table without looking at the age of what
    it finds: the fields of a mapping that has expired but has not been
    deleted yet are merged into the new mapping, which is current again.
    If [getByUnifiedId] has been called first, as the service does, it has
    deleted the expired mapping and the same [setMapping] keeps nothing of
    it: only the supplied, non-empty fields are left. *)
Theorem expired_fields_survive_unless_read (cache : Table) data old now :
  tableGet (dUnifiedId data) cache = Some old →
  now - lastUpdated old > TTL →
  fst (getByUnifiedId (dUnifiedId data) now (setMapping data now cache))
  = Some {| unifiedId := dUnifiedId data;
            spotifyId := orStr (dSpotifyId data) (spotifyId old);
            spotifyName := orStr (dSpotifyName data) (spotifyName old);
            lastFmName := orStr (dLastFmName data) (lastFmName old);
            lastUpdated := now |}
  ∧ fst (getByUnifiedId (dUnifiedId data) now cache) = None
  ∧ fst (getByUnifiedId (dUnifiedId data) now
           (setMapping data now
              (snd (getByUnifiedId (dUnifiedId data) now cache))))
    = Some {| unifiedId := dUnifiedId data;
              spotifyId := orStr (dSpotifyId data) None;
              spotifyName := orStr (dSpotifyName data) None;
              lastFmName := orStr (dLastFmName data) None;
              lastUpdated := now |}.
Proof.
  intros Hg Hold. pose proof TTL_nonneg.
  assert (Hread : getByUnifiedId (dUnifiedId data) now cache
                  = (None, tableDelete (dUnifiedId data) cache)).
  { unfold getByUnifiedId. rewrite Hg.
    by replace (now - lastUpdated old >? TTL) with true by (symmetry; lia). }
  split; [|split].
  - unfold getByUnifiedId.
    rewrite ArtistMappingCacheSpec.setMapping_lookup, Hg. cbn.
    by replace (now - now >? TTL) with false by (symmetry; lia).
  - by rewrite Hread.
  - rewrite Hread. cbn [snd]. unfold getByUnifiedId.
    rewrite ArtistMappingCacheSpec.setMapping_lookup,
      ArtistMappingCacheSpec.tableGet_tableDelete. cbn.
    by replace (now - now >? TTL) with false by (symmetry; lia).
Qed.

Lemma expired_fields_survive_unless_read_witness :
  let old := {| spotifyId := Some "3HqSLMAZ"; spotifyName := Some "IU";
                lastFmName := None; unifiedId := "iu"; lastUpdated := 0 |} in
  let data := {| dUnifiedId := "iu"; dSpotifyId := None;
                 dSpotifyName := None; dLastFmName := Some "IU" |} in
  let now := TTL + 1000 in
  (spotifyId <$> fst (getByUnifiedId "iu" now
                        (setMapping data now [("iu", old)])))
  = Some (Some "3HqSLMAZ")
  ∧ (spotifyId <$> fst (getByUnifiedId "iu" now
                          (setMapping data now
                             (snd (getByUnifiedId "iu" now [("iu", old)])))))
    = Some None.
Proof.
  cbv zeta.
  destruct (expired_fields_survive_unless_read
              [("iu", {| spotifyId := Some "3HqSLMAZ";
                         spotifyName := Some "IU"; lastFmName := None;
                         unifiedId := "iu"; lastUpdated := 0 |})]
              {| dUnifiedId := "iu"; dSpotifyId := None;
                 dSpotifyName := None; dLastFmName := Some "IU" |}
              {| spotifyId := Some "3HqSLMAZ"; spotifyName := Some "IU";
                 lastFmName := None; unifiedId := "iu"; lastUpdated := 0 |}
              (TTL + 1000) eq_refl ltac:(cbn; lia)) as (H1 & _ & H3).
  cbn [dUnifiedId] in H1, H3. rewrite H1, H3. split; reflexivity.
Defined.

End ArtistMappingCacheMore.

(** ** Artist ids *)

Module UnifiedIdSpec.
Import UnifiedId.

Section CodeUnits.
Context {C : Type} `{EqDecision C}.
Variable isSpace : C → bool.
Variables dash space : C.
Variable toLowerCase : list C → list C.

Lemma replaceRuns_no_space (Hdash : isSpace dash = false) (s : list C) :
  ∀ b, Forall (λ c, isSpace c = false) (replaceRuns isSpace dash b s).
Proof.
  induction s as [|c s IH]; intros b; cbn; [constructor|].
  destruct (isSpace c) eqn:Ec.
  - destruct b; [apply IH|]. constructor; [done | apply IH].
  - constructor; [done | apply IH].
Qed.

Lemma replaceRuns_fixed (s : list C) :
  Forall (λ c, isSpace c = false) s →
  ∀ b, replaceRuns isSpace dash b s = s.
Proof.
  induction 1 as [|c s Hc Hs IH]; intros b; cbn; [done|].
  rewrite Hc. by rewrite IH.
Qed.

Lemma idToName_replaceRuns (s : list C) :
  dash ∉ s →
  ∀ b, singleSpaced isSpace space b s →
       idToName dash space (replaceRuns isSpace dash b s) = s.
Proof.
  induction s as [|c s IH]; intros Hd b Hs; cbn; [done|].
  apply not_elem_of_cons in Hd as [Hc Hd]. cbn in Hs.
  destruct (isSpace c) eqn:Ec.
  - destruct Hs as (-> & -> & Hs). cbn.
    rewrite decide_True by done. f_equal. by apply IH.
  - cbn. rewrite decide_False by done. f_equal. by apply IH.
Qed.

Lemma idToName_no_dash (id : list C) :
  dash ≠ space → dash ∉ idToName dash space id.
Proof.
  intros Hne. unfold idToName. intros Hin.
  apply list_elem_of_fmap in Hin as (c & Hc & _).
  destruct (decide (c = dash)); congruence.
Qed.

(** X14.  An id made by [createUnifiedId] contains no white space, and
    making an id out of it again (up to letter case) gives the same id: the
    replacement of white space is a normal form. *)
Theorem createUnifiedId_has_no_white_space (artistName : list C) :
  isSpace dash = false →
  Forall (λ c, isSpace c = false)
         (createUnifiedId isSpace dash toLowerCase artistName)
  ∧ replaceRuns isSpace dash false
      (createUnifiedId isSpace dash toLowerCase artistName)
    = createUnifiedId isSpace dash toLowerCase artistName.
Proof.
  intros Hdash. unfold createUnifiedId.
  pose proof (replaceRuns_no_space Hdash (toLowerCase artistName) false) as H.
  split; [exact H|]. by apply replaceRuns_fixed.
Qed.

(** X15.  The [replace(/-/g, ' ')] of the route handlers undoes
    [createUnifiedId] on a name that is already in lower case, has no "-"
    and whose words are separated by single " ".  It never yields a name
    that contains "-": for a name with a hyphen the route works with a
    different name than the one the id was made from. *)
Theorem id_round_trip :
  dash ≠ space →
  (∀ artistName,
     toLowerCase artistName = artistName →
     dash ∉ artistName →
     singleSpaced isSpace space false artistName →
     idToName dash space
       (createUnifiedId isSpace dash toLowerCase artistName)
     = artistName)
  ∧ (∀ id, dash ∉ idToName dash space id)
  ∧ (∀ artistName,
       dash ∈ artistName →
       idToName dash space
         (createUnifiedId isSpace dash toLowerCase artistName)
       ≠ artistName).
Proof.
  intros Hne. split; [|split].
  - intros name Hlow Hd Hs. unfold createUnifiedId. rewrite Hlow.
    by apply idToName_replaceRuns.
  - intros id. by apply idToName_no_dash.
  - intros name Hin Heq. rewrite <- Heq in Hin.
    by apply (idToName_no_dash _ Hne) in Hin.
Qed.

End CodeUnits.

Lemma createUnifiedId_has_no_white_space_witness :
  let name := String.list_ascii_of_string "Stray   Kids" in
  let id := createUnifiedId asciiSpace (Ascii.ascii_of_nat 45)
              (map ArtistMappingCache.asciiLower) name in
  id = String.list_ascii_of_string "stray-kids"
  ∧ Forall (λ c, asciiSpace c = false) id.
Proof.
  cbv zeta. split; [vm_compute; reflexivity|].
  exact (proj1 (createUnifiedId_has_no_white_space asciiSpace (Ascii.ascii_of_nat 45)
                  (map ArtistMappingCache.asciiLower)
                  (String.list_ascii_of_string "Stray   Kids") eq_refl)).
Defined.

Lemma id_round_trip_witness :
  idToName (Ascii.ascii_of_nat 45) (Ascii.ascii_of_nat 32)
    (createUnifiedId asciiSpace (Ascii.ascii_of_nat 45) (map ArtistMappingCache.asciiLower)
       (String.list_ascii_of_string "stray kids"))
  = String.list_ascii_of_string "stray kids"
  ∧ idToName (Ascii.ascii_of_nat 45) (Ascii.ascii_of_nat 32)
      (createUnifiedId asciiSpace (Ascii.ascii_of_nat 45) (map ArtistMappingCache.asciiLower)
         (String.list_ascii_of_string "j-hope"))
    ≠ String.list_ascii_of_string "j-hope".
Proof.
  destruct (id_round_trip asciiSpace (Ascii.ascii_of_nat 45) (Ascii.ascii_of_nat 32)
              (map ArtistMappingCache.asciiLower) ltac:(discriminate))
    as (Hrt & _ & Hhy).
  split.
  - apply Hrt.
    + vm_compute. reflexivity.
    + vm_compute. intros Hin.
      repeat (apply elem_of_cons in Hin as [Hin|Hin]; [discriminate|]).
      by apply elem_of_nil in Hin.
    + vm_compute. tauto.
  - apply Hhy. vm_compute. apply elem_of_cons. right.
    apply elem_of_cons. by left.
Defined.

End UnifiedIdSpec.

(** ** The simple server-side cache *)

Module SimpleCacheSpec.
Import SimpleCache.

Section Generic.
Context {V : Type}.
Implicit Types (cache : gmap string (CacheItem V)).

(** X16.  [get] returns what [set] stored under the key and never looks
    at the clock: once the time to live (600 seconds when none is given) has
    passed, [has] answers [false] and deletes the item, but until [has] or
    [cleanup] has run [get] still returns the value.  [set] touches no
    other key. *)
Theorem get_serves_until_evicted key (v : option V) ttlSeconds written now
    cache :
  let cache1 := set key v ttlSeconds written cache in
  let expiry := written + default 600 ttlSeconds * 1000 in
  get key cache1 = v
  ∧ (∀ key', key' ≠ key → get key' cache1 = get key' cache)
  ∧ (now <= expiry → has key now cache1 = (true, cache1))
  ∧ (now > expiry →
     fst (has key now cache1) = false
     ∧ get key (snd (has key now cache1)) = None
     ∧ ∀ key', key' ≠ key →
         get key' (snd (has key now cache1)) = get key' cache).
Proof.
  cbv zeta. unfold get, has, set. rewrite !lookup_insert_eq. cbn.
  split; [done|]. split.
  { intros key' Hne. by rewrite lookup_insert_ne. }
  split.
  - intros Hle.
    by replace (now >? written + default 600 ttlSeconds * 1000) with false
      by (symmetry; lia).
  - intros Hgt.
    replace (now >? written + default 600 ttlSeconds * 1000) with true
      by (symmetry; lia).
    cbn. rewrite lookup_delete_eq. split; [done|]. split; [done|].
    intros key' Hne. by rewrite lookup_delete_ne, lookup_insert_ne.
Qed.

(** X17.  [get] cannot tell a stored [null] from a key that was never
    stored: it returns [null] for both, although [has] tells them apart.
    A caller that stores [null] to remember that there was nothing to find,
    and looks it up with [get], finds a miss. *)
Theorem stored_null_is_a_miss key ttlSeconds written now cache :
  let cache1 := set key None ttlSeconds written cache in
  get key cache1 = None
  ∧ get key cache1 = get key (snd (deleteKey key cache))
  ∧ fst (has key now (snd (deleteKey key cache))) = false
  ∧ (now <= written + default 600 ttlSeconds * 1000 →
     fst (has key now cache1) = true).
Proof.
  cbv zeta. unfold get, has, set, deleteKey. cbn.
  rewrite !lookup_insert_eq, !lookup_delete_eq. cbn.
  split; [done|]. split; [done|]. split; [done|].
  intros Hle.
  by replace (now >? written + default 600 ttlSeconds * 1000) with false
    by (symmetry; lia).
Qed.

(** X18.  [cleanup] removes exactly the items whose time to live has
    passed and returns how many there were; what [get] returns for the
    other keys does not change; on the map it leaves, [has] answers [true]
    exactly for the keys present and deletes nothing. *)
Theorem simple_cleanup_removes_expired now cache :
  let removed := fst (cleanup now cache) in
  let cache' := snd (cleanup now cache) in
  size cache = (size cache' + removed)%nat
  ∧ (∀ key item,
       cache' !! key = Some item ↔
       cache !! key = Some item ∧ now <= timestamp item)
  ∧ (∀ key, is_Some (cache' !! key) → get key cache' = get key cache)
  ∧ (∀ key,
       has key now cache'
       = (bool_decide (is_Some (cache' !! key)), cache')).
Proof.
  cbv zeta. unfold cleanup. cbn [fst snd].
  assert (Hlook : ∀ key item,
            filter (fun kv => ¬ (now > timestamp (snd kv))) cache !! key
            = Some item ↔
            cache !! key = Some item ∧ now <= timestamp item).
  { intros key item. rewrite map_lookup_filter_Some. cbn.
    split; intros [? ?]; (split; [done | lia]). }
  split; [|split; [exact Hlook|split]].
  - rewrite <- (map_filter_union_complement
                  (fun kv => ¬ (now > timestamp (snd kv))) cache) at 1.
    rewrite map_size_disj_union by apply map_disjoint_filter_complement.
    f_equal. f_equal. apply map_filter_ext. intros k e _. cbn. lia.
  - intros key [item Hitem]. unfold get. rewrite Hitem.
    apply Hlook in Hitem as [-> _]. done.
  - intros key. unfold has.
    destruct (filter _ cache !! key) as [item|] eqn:Hk.
    + apply Hlook in Hk as [_ Hle].
      replace (now >? timestamp item) with false by (symmetry; lia).
      by rewrite bool_decide_eq_true_2.
    + rewrite bool_decide_eq_false_2; [done|]. by intros [? ?].
Qed.

End Generic.
End SimpleCacheSpec.

(** ** The client-side cache *)

Module ClientCacheSpec.
Import OrderedMap ClientCache.

Section Generic.
Context {V : Type}.
Implicit Types (c : ClientCache V) (m : list (string * CacheItem V)).

Lemma omGet_omSet key item m : omGet key (omSet key item m) = Some item.
Proof.
  induction m as [|[k a] rest IH]; cbn.
  - by rewrite String.eqb_refl.
  - destruct (String.eqb k key) eqn:Ek; cbn; rewrite Ek; auto.
Qed.

Lemma omGet_omDelete key m : omGet key (omDelete key m) = None.
Proof.
  unfold omDelete. induction m as [|[k a] rest IH]; cbn; [done|].
  destruct (String.eqb k key) eqn:Ek; cbn; [done|]. by rewrite Ek.
Qed.

Lemma omGet_None key m : omGet key m = None ↔ key ∉ map fst m.
Proof.
  induction m as [|[k a] rest IH]; cbn.
  - split; [intros _; apply not_elem_of_nil | done].
  - rewrite not_elem_of_cons. destruct (String.eqb k key) eqn:Ek.
    + apply String.eqb_eq in Ek as ->. split; [done | tauto].
    + apply String.eqb_neq in Ek. rewrite IH. split; [auto | tauto].
Qed.

Lemma omSet_length key item m :
  length (omSet key item m)
  = match omGet key m with
    | Some _ => length m
    | None => S (length m)
    end.
Proof.
  induction m as [|[k a] rest IH]; cbn; [done|].
  destruct (String.eqb k key); cbn; [done|].
  rewrite IH. by destruct (omGet key rest).
Qed.

Lemma omSet_new key item m :
  omGet key m = None → omSet key item m = m ++ [(key, item)].
Proof.
  induction m as [|[k a] rest IH]; cbn; [done|].
  destruct (String.eqb k key); [done|]. intros H. by rewrite IH.
Qed.

Lemma omSet_keys_nonempty key item m :
  key ≠ "" → Forall (λ ki, fst ki ≠ "") m →
  Forall (λ ki, fst ki ≠ "") (omSet key item m).
Proof.
  intros Hk. induction 1 as [|[k a] rest Hka Hrest IH]; cbn.
  - by constructor.
  - destruct (String.eqb k key); constructor; done.
Qed.

Lemma omDelete_absent key m : key ∉ map fst m → omDelete key m = m.
Proof.
  unfold omDelete. induction m as [|[k a] rest IH]; cbn; [done|].
  intros Hin. apply not_elem_of_cons in Hin as [Hne Hin].
  apply not_eq_sym, String.eqb_neq in Hne. rewrite Hne. cbn.
  by rewrite IH.
Qed.

Lemma filter_length_le {A} (f : A → bool) (l : list A) :
  (length (List.filter f l) <= length l)%nat.
Proof.
  induction l as [|x l IH]; cbn; [done|]. destruct (f x); cbn; lia.
Qed.

Lemma filter_all {A} (f : A → bool) (l : list A) :
  Forall (λ x, f x = true) l → List.filter f l = l.
Proof.
  induction 1 as [|x l Hx Hl IH]; cbn; [done|]. by rewrite Hx, IH.
Qed.

Lemma filter_Forall {A} (P : A → Prop) (f : A → bool) (l : list A) :
  Forall P l → Forall P (List.filter f l).
Proof.
  induction 1 as [|x l Hx Hl IH]; cbn; [constructor|].
  destruct (f x); [by constructor | done].
Qed.

(** *** Capacity *)

(** After the block that makes room there is room, provided the oldest key
    is not the empty string. *)
Lemma makeRoom_room nowC c :
  1 <= maxSize c →
  Z.of_nat (length (cache c)) <= maxSize c →
  Forall (λ ki, fst ki ≠ "") (cache c) →
  Z.of_nat (length (cache (makeRoom nowC c))) < maxSize c
  ∧ Forall (λ ki, fst ki ≠ "") (cache (makeRoom nowC c))
  ∧ maxSize (makeRoom nowC c) = maxSize c
  ∧ defaultTTL (makeRoom nowC c) = defaultTTL c.
Proof.
  intros Hmax Hlen Hkeys. unfold makeRoom.
  destruct (Z.of_nat (length (cache c)) >=? maxSize c) eqn:Hfull;
    [|split; [lia | done]].
  pose proof (filter_length_le
                (fun ki : string * CacheItem V =>
                   negb (isExpired nowC (snd ki))) (cache c)) as Hfl.
  pose proof (filter_Forall _
                (fun ki : string * CacheItem V =>
                   negb (isExpired nowC (snd ki))) _ Hkeys) as Hfk.
  cbn [cleanup withItems cache maxSize].
  destruct (Z.of_nat (length (List.filter _ (cache c))) >=? maxSize c)
    eqn:Hfull'; [|split; [cbn; lia | done]].
  destruct (List.filter _ (cache c)) as [|[k0 a0] rest] eqn:Hf.
  { exfalso. cbn [length] in Hfull'. apply Z.geb_le in Hfull'. lia. }
  apply Forall_cons in Hfk as [Hk0 Hrest]. cbn in Hk0.
  pose proof Hk0 as Hk0b. apply String.eqb_neq in Hk0b. rewrite Hk0b.
  cbn [negb withItems cache].
  split; [|split; [|done]].
  - unfold omDelete. cbn. rewrite String.eqb_refl. cbn.
    pose proof (filter_length_le
                  (fun ka : string * CacheItem V =>
                     negb (String.eqb (fst ka) k0)) rest).
    cbn in Hfl. lia.
  - apply filter_Forall. by constructor.
Qed.

(** X19.  A cache that holds at most [maxSize] items (with [maxSize] at
    least one) still does after [set], as long as no key is the empty
    string; [set] changes neither [maxSize] nor the default time to
    live. *)
Theorem set_keeps_capacity key data' ttl' now nowC c :
  1 <= maxSize c →
  Z.of_nat (length (cache c)) <= maxSize c →
  Forall (λ ki, fst ki ≠ "") (cache c) →
  key ≠ "" →
  let c' := set key data' ttl' now nowC c in
  Z.of_nat (length (cache c')) <= maxSize c'
  ∧ Forall (λ ki, fst ki ≠ "") (cache c')
  ∧ maxSize c' = maxSize c
  ∧ defaultTTL c' = defaultTTL c.
Proof.
  intros Hmax Hlen Hkeys Hkey. cbv zeta.
  destruct (makeRoom_room nowC c Hmax Hlen Hkeys) as (Hroom & Hk & Hm & Hd).
  unfold set. cbn [withItems cache maxSize defaultTTL].
  split; [|split; [by apply omSet_keys_nonempty | done]].
  rewrite omSet_length, Hm. destruct (omGet key _); lia.
Qed.

(** X20.  The oldest key is evicted only if it is truthy.  When the cache
    is full, nothing in it has expired and its oldest key is the empty
    string, [set] of a new key evicts nothing and the cache grows by one:
    it then holds more than [maxSize] items. *)
Theorem empty_oldest_key_is_never_evicted key data' ttl' now nowC c item0
    rest :
  cache c = ("", item0) :: rest →
  Z.of_nat (length (cache c)) >= maxSize c →
  Forall (λ ki, isExpired nowC (snd ki) = false) (cache c) →
  omGet key (cache c) = None →
  let c' := set key data' ttl' now nowC c in
  cache c'
  = cache c ++ [(key, {| data := data'; timestamp := now;
                         ttl := orNum ttl' (defaultTTL c) |})]
  ∧ Z.of_nat (length (cache c')) > maxSize c'.
Proof.
  intros Hc Hfull Hfresh Hnew. cbv zeta.
  assert (Hroom : makeRoom nowC c = withItems (cache c) c).
  { unfold makeRoom.
    replace (Z.of_nat (length (cache c)) >=? maxSize c) with true
      by (symmetry; lia).
    unfold cleanup. rewrite filter_all.
    2:{ eapply Forall_impl; [exact Hfresh|]. cbn. by intros ? ->. }
    cbn [withItems cache maxSize].
    replace (Z.of_nat (length (cache c)) >=? maxSize c) with true
      by (symmetry; lia).
    by rewrite Hc. }
  unfold set. rewrite Hroom. cbn [withItems cache maxSize defaultTTL].
  rewrite (omSet_new _ _ _ Hnew). split; [done|].
  rewrite length_app. cbn. lia.
Qed.

(** X21.  Eviction is first in, first out.  When the cache is full,
    nothing in it has expired and its oldest key is not the empty string,
    [set] of a new key deletes exactly the oldest item and appends the new
    one; the evicted key is a miss afterwards. *)
Theorem full_cache_evicts_oldest key data' ttl' now nowC now' c k0 item0
    rest :
  cache c = (k0, item0) :: rest →
  k0 ≠ "" →
  NoDup (map fst (cache c)) →
  Z.of_nat (length (cache c)) >= maxSize c →
  Forall (λ ki, isExpired nowC (snd ki) = false) (cache c) →
  omGet key (cache c) = None →
  let c' := set key data' ttl' now nowC c in
  cache c'
  = rest ++ [(key, {| data := data'; timestamp := now;
                      ttl := orNum ttl' (defaultTTL c) |})]
  ∧ length (cache c') = length (cache c)
  ∧ get k0 now' c' = (None, c').
Proof.
  intros Hc Hk0 Hnd Hfull Hfresh Hnew. cbv zeta.
  rewrite Hc in Hnd. cbn in Hnd. apply NoDup_cons in Hnd as [Hk0r Hndr].
  assert (Hkey0 : key ≠ k0).
  { intros ->. rewrite Hc in Hnew. cbn in Hnew.
    by rewrite String.eqb_refl in Hnew. }
  assert (Hnewr : omGet key rest = None).
  { rewrite Hc in Hnew. cbn in Hnew.
    apply not_eq_sym, String.eqb_neq in Hkey0. by rewrite Hkey0 in Hnew. }
  assert (Hroom : makeRoom nowC c = withItems rest c).
  { unfold makeRoom.
    replace (Z.of_nat (length (cache c)) >=? maxSize c) with true
      by (symmetry; lia).
    unfold cleanup. rewrite filter_all.
    2:{ eapply Forall_impl; [exact Hfresh|]. cbn. by intros ? ->. }
    cbn [withItems cache maxSize].
    replace (Z.of_nat (length (cache c)) >=? maxSize c) with true
      by (symmetry; lia).
    rewrite Hc. apply String.eqb_neq in Hk0. rewrite Hk0. cbn [negb].
    unfold omDelete at 1. cbn. rewrite String.eqb_refl. cbn.
    fold (omDelete k0 rest). by rewrite (omDelete_absent _ _ Hk0r). }
  unfold set. rewrite Hroom. cbn [withItems cache maxSize defaultTTL].
  rewrite (omSet_new _ _ _ Hnewr).
  split; [done|]. split.
  { rewrite Hc, length_app. cbn. lia. }
  unfold get. cbn [cache withItems].
  assert (Hmiss : omGet k0 (rest ++ [(key, {| data := data';
                                               timestamp := now;
                                               ttl := orNum ttl' (defaultTTL c)
                                            |})]) = None).
  { apply omGet_None. rewrite map_app. cbn.
    intros Hin. apply elem_of_app in Hin as [Hin|Hin]; [done|].
    apply list_elem_of_singleton in Hin. congruence. }
  by rewrite Hmiss.
Qed.

(** *** Reading back *)

(** X22.  What [set] stored is what [get] returns for as long as the
    item is no older than its time to live, which is the [ttl] given or,
    when none is given or it is zero, the default of the cache; the cache is
    left as it is.  Once the item is older, [get] returns [null] and deletes
    it. *)
Theorem client_set_then_get key data' ttl' now nowC now' c :
  let c' := set key data' ttl' now nowC c in
  let life := orNum ttl' (defaultTTL c) in
  (orNum None (defaultTTL c) = defaultTTL c
   ∧ orNum (Some 0) (defaultTTL c) = defaultTTL c)
  ∧ (now' - now <= life → get key now' c' = (data', c'))
  ∧ (now' - now > life →
     fst (get key now' c') = None
     ∧ omGet key (cache (snd (get key now' c'))) = None).
Proof.
  cbv zeta. split; [done|].
  assert (Hl : omGet key (cache (set key data' ttl' now nowC c))
               = Some {| data := data'; timestamp := now;
                         ttl := orNum ttl' (defaultTTL c) |}).
  { unfold set. cbn [withItems cache]. apply omGet_omSet. }
  unfold get. rewrite Hl. unfold isExpired. cbn [timestamp ttl data].
  split.
  - intros Hle.
    by replace (now' - now >? orNum ttl' (defaultTTL c)) with false
      by (symmetry; lia).
  - intros Hgt.
    replace (now' - now >? orNum ttl' (defaultTTL c)) with true
      by (symmetry; lia).
    cbn. split; [done | apply omGet_omDelete].
Qed.

(** X23.  A stored [null] takes a place in the cache but is never served:
    [has] answers [false] for it and [getOrSet] finds a miss and goes on to
    invoke its fetcher again, while a stored value is returned by [getOrSet]
    without a fetch for as long as it has not expired. *)
Theorem getOrSet_caches_values_not_nulls key data' ttl' now nowC now' c :
  now' - now <= orNum ttl' (defaultTTL c) →
  let c' := snd (getOrSetStore key data' ttl' now nowC c) in
  fst (getOrSetStore key data' ttl' now nowC c) = data'
  ∧ is_Some (omGet key (cache c'))
  ∧ getOrSetLookup key now' c' = (data', c')
  ∧ fst (has key now' c') = bool_decide (is_Some data').
Proof.
  intros Hle. cbv zeta. unfold getOrSetStore, getOrSetLookup, has.
  cbn [fst snd].
  assert (Hl : omGet key (cache (set key data' ttl' now nowC c))
               = Some {| data := data'; timestamp := now;
                         ttl := orNum ttl' (defaultTTL c) |}).
  { unfold set. cbn [withItems cache]. apply omGet_omSet. }
  assert (Hg : get key now' (set key data' ttl' now nowC c)
               = (data', set key data' ttl' now nowC c)).
  { unfold get. rewrite Hl. unfold isExpired. cbn [timestamp ttl data].
    by replace (now' - now >? orNum ttl' (defaultTTL c)) with false
      by (symmetry; lia). }
  split; [done|]. split; [by rewrite Hl|]. split; [done|]. by rewrite Hg.
Qed.

End Generic.

Lemma set_keeps_capacity_witness :
  let c := set "a" (Some 1) None 0 0 (new Z None (Some 1)) in
  let c' := set "b" (Some 2) None 10 10 c in
  Z.of_nat (length (cache c)) <= maxSize c
  ∧ Z.of_nat (length (cache c')) <= maxSize c'.
Proof.
  cbv zeta. split; [vm_compute; discriminate|].
  refine (proj1 (set_keeps_capacity "b" (Some 2) None 10 10
                   (set "a" (Some 1) None 0 0 (new Z None (Some 1)))
                   _ _ _ _)).
  - vm_compute. discriminate.
  - vm_compute. discriminate.
  - repeat constructor. discriminate.
  - discriminate.
Defined.

Lemma empty_oldest_key_is_never_evicted_witness :
  let c := set "" (Some 1) None 0 0 (new Z None (Some 1)) in
  let c' := set "b" (Some 2) None 10 10 c in
  maxSize c' = 1 ∧ Z.of_nat (length (cache c')) > maxSize c'.
Proof.
  cbv zeta. split; [reflexivity|].
  refine (proj2 (empty_oldest_key_is_never_evicted "b" (Some 2) None 10 10
                   (set "" (Some 1) None 0 0 (new Z None (Some 1)))
                   {| data := Some 1; timestamp := 0; ttl := 300000 |} []
                   _ _ _ _)).
  - reflexivity.
  - vm_compute. discriminate.
  - repeat constructor.
  - reflexivity.
Defined.

Lemma full_cache_evicts_oldest_witness :
  let c := set "b" (Some 2) None 1 1
             (set "a" (Some 1) None 0 0 (new Z None (Some 2))) in
  let c' := set "c" (Some 3) None 10 10 c in
  map fst (cache c') = ["b"; "c"] ∧ fst (get "a" 11 c') = None.
Proof.
  cbv zeta.
  destruct (full_cache_evicts_oldest "c" (Some 3) None 10 10 11
              (set "b" (Some 2) None 1 1
                 (set "a" (Some 1) None 0 0 (new Z None (Some 2))))
              "a" {| data := Some 1; timestamp := 0; ttl := 300000 |}
              [("b", {| data := Some 2; timestamp := 1; ttl := 300000 |})])
    as (Hc & _ & Hg).
  - reflexivity.
  - discriminate.
  - vm_compute. repeat constructor; intros Hin;
      repeat (apply elem_of_cons in Hin as [Hin|Hin]; [discriminate|]);
      by apply elem_of_nil in Hin.
  - vm_compute. discriminate.
  - repeat constructor.
  - reflexivity.
  - split; [by rewrite Hc | by rewrite Hg].
Defined.

Lemma getOrSet_caches_values_not_nulls_witness :
  let c := new Z (Some 1000) None in
  getOrSetLookup "k" 500 (snd (getOrSetStore "k" None None 0 0 c))
  = (None, snd (getOrSetStore "k" None None 0 0 c))
  ∧ is_Some (omGet "k" (cache (snd (getOrSetStore "k" None None 0 0 c)))).
Proof.
  cbv zeta.
  destruct (getOrSet_caches_values_not_nulls "k" None None 0 0 500
              (new Z (Some 1000) None)) as (_ & Hs & Hl & _).
  - vm_compute. discriminate.
  - split; [exact Hl | exact Hs].
Defined.

End ClientCacheSpec.

(** ** More on the stale-while-revalidate cache *)

Module SWRCacheMore.
Import SWRCache.

Section Generic.
Context {T E : Type}.
Implicit Types (s : State T E) (o : Settled T E) (t : Task T E).

(** X7.  A value written with [set] is served by the next [get] as a
    fresh hit, without any fetch, as long as the call comes no later than
    the [freshTTL] of its content type after the write; [set] replaces the
    whole entry (the mark of a running revalidation included) and touches no
    other key. *)
Theorem set_then_get s key v contentType written contentType' revalidator now :
  now - written <= freshTTL (CONFIG contentType') →
  let s1 := set key v contentType written s in
  let s2 := get key contentType' revalidator now s1 in
  cache s1 !! key
  = Some {| data := v; createdAt := written; isRevalidating := false;
            contentType := contentType |}
  ∧ (∀ key', key' ≠ key → cache s1 !! key' = cache s !! key')
  ∧ returned s2 !! nextId s
    = Some (inl {| resData := v; isStale := false; source := FromCache |})
  ∧ fetches s2 = fetches s
  ∧ tasks s2 = tasks s
  ∧ cache s2 = cache s1.
Proof.
  intros Hage. cbv zeta.
  assert (Hc : cache (set key v contentType written s) !! key
               = Some {| data := v; createdAt := written; isRevalidating := false;
                         contentType := contentType |})
    by apply lookup_insert_eq.
  split; [done|]. split.
  { intros key' Hne. cbn. by rewrite lookup_insert_ne. }
  rewrite (SWRCacheSpec.get_fresh _ _ _ _ _ _ Hc Hage). cbn.
  split; [apply lookup_insert_eq | done].
Qed.

(** X8.  When the promise a background revalidation waits for is
    fulfilled, its two turns overwrite the entry of its key, whatever is
    stored there at that moment, with the fetched value, the clock reading
    of the second turn and no revalidation mark; nothing is returned to any
    caller; and a [get] that comes no later than [freshTTL] after that
    reading is served the new value as a fresh hit. *)
Theorem background_success s id t role contentType v n1 n2 :
  tasks s !! id = Some t →
  tCont t = BackgroundCont contentType →
  tPhase t = Fetching role →
  settledWith (tPromise t) s = Some (Fulfilled v) →
  let s' := resume id n2 (resume id n1 s) in
  cache s' !! tKey t
  = Some {| data := v; createdAt := n2; isRevalidating := false;
            contentType := contentType |}
  ∧ (∀ key, key ≠ tKey t → cache s' !! key = cache s !! key)
  ∧ returned s' = returned s
  ∧ tasks s' !! id = None
  ∧ ∀ contentType' revalidator now,
      now - n2 <= freshTTL (CONFIG contentType') →
      returned (get (tKey t) contentType' revalidator now s') !! nextId s'
      = Some (inl {| resData := v; isStale := false; source := FromCache |})
      ∧ fetches (get (tKey t) contentType' revalidator now s') = fetches s'.
Proof.
  intros Ht Hk Hph Hs. cbv zeta.
  rewrite (SWRCacheSpec.resume_fetching _ _ _ _ _ _ Ht Hph Hs).
  erewrite SWRCacheSpec.resume_background_fulfilled;
    [|cbn; apply lookup_insert_eq|cbn; exact Hk|reflexivity].
  cbn [cache returned tasks tKey nextId].
  split; [apply lookup_insert_eq|]. split.
  { intros key Hne. by rewrite lookup_insert_ne. }
  split; [done|]. split; [apply lookup_delete_eq|].
  intros ct' rev now Hage.
  match goal with |- context [get _ _ _ _ ?st] => set (s' := st) end.
  assert (Hc : cache s' !! tKey t
               = Some {| data := v; createdAt := n2; isRevalidating := false;
                         contentType := contentType |})
    by apply lookup_insert_eq.
  rewrite (SWRCacheSpec.get_fresh _ _ _ _ _ _ Hc Hage). cbn.
  split; [apply lookup_insert_eq | done].
Qed.

(** *** [cleanup] *)

(** X9.  [cleanup] deletes exactly the entries that are older than the
    [staleTTL] of the content type stored in them and returns how many
    there were: an entry is in the table afterwards if and only if it was
    there and is not that old, the sizes before and after differ by the
    number returned, and a second [cleanup] at the same instant deletes
    nothing. *)
Theorem swr_cleanup_removes_expired s now :
  (∀ key e,
     cache (cleanup now s) !! key = Some e ↔
     cache s !! key = Some e
     ∧ now - createdAt e <= staleTTL (CONFIG (SWRCache.contentType e)))
  ∧ size (cache s) = (size (cache (cleanup now s)) + cleanupCount now s)%nat
  ∧ cleanupCount now (cleanup now s) = 0%nat
  ∧ cleanup now (cleanup now s) = cleanup now s
  ∧ fetches (cleanup now s) = fetches s
  ∧ tasks (cleanup now s) = tasks s
  ∧ revalidationPromises (cleanup now s) = revalidationPromises s.
Proof.
  assert (Hlook : ∀ key e,
            cache (cleanup now s) !! key = Some e ↔
            cache s !! key = Some e
            ∧ now - createdAt e
              <= staleTTL (CONFIG (SWRCache.contentType e))).
  { intros key e. cbn. rewrite map_lookup_filter_Some. cbn.
    split; intros [? ?]; (split; [done | lia]). }
  split; [exact Hlook|]. split.
  { unfold cleanupCount. cbn.
    rewrite <- (map_filter_union_complement
                  (fun kv => ¬ (now - createdAt (snd kv)
                                > staleTTL (CONFIG (SWRCache.contentType (snd kv)))))
                  (cache s)) at 1.
    rewrite map_size_disj_union by apply map_disjoint_filter_complement.
    f_equal. f_equal. apply map_filter_ext. intros k e _. cbn. lia. }
  assert (Hidem : cache (cleanup now (cleanup now s)) = cache (cleanup now s)).
  { apply map_eq. intros key. apply option_eq. intros e.
    rewrite (Hlook key e).
    cbn. rewrite !map_lookup_filter_Some. cbn.
    split; [intros [[? ?] ?] | intros [? ?]]; repeat split; done || lia. }
  split.
  { unfold cleanupCount. apply map_size_empty_iff, map_empty.
    intros key. apply eq_None_not_Some. intros [e He].
    apply map_lookup_filter_Some in He as [He Hold]. cbn in Hold.
    apply map_lookup_filter_Some in He as [_ Hyoung]. cbn in Hyoung.
    done. }
  split; [|done].
  unfold cleanup in *. unfold withCache in *. cbn in *. by f_equal.
Qed.

(** *** Revalidation marks *)

(** A new suspended call under a number that is not in use keeps every
    mark backed. *)
Lemma marksBacked_new_task s (c : gmap string (CacheEntry T))
    (ts : gmap nat (Task T E)) id t :
  marksBacked s →
  tasks s !! id = None →
  ts = <[id := t]> (tasks s) →
  (∀ key e, c !! key = Some e → isRevalidating e = true →
            (tKey t = key ∧ ∃ ct, tCont t = BackgroundCont ct)
            ∨ (∃ e0, cache s !! key = Some e0 ∧ isRevalidating e0 = true)) →
  ∀ key e, c !! key = Some e → isRevalidating e = true →
           ∃ id' t' ct, ts !! id' = Some t' ∧ tKey t' = key
                        ∧ tCont t' = BackgroundCont ct.
Proof.
  intros Hmb Hfresh -> Hc key e He Hrev.
  destruct (Hc key e He Hrev) as [[Hk [ct Hct]]|(e0 & He0 & Hrev0)].
  - exists id, t, ct. split; [apply lookup_insert_eq | done].
  - destruct (Hmb key e0 He0 Hrev0) as (id' & t' & ct & Ht' & Hk' & Hc').
    exists id', t', ct. split; [|done].
    rewrite lookup_insert_ne; [done|]. intros <-. congruence.
Qed.

Lemma marksBacked_get key contentType revalidator now s :
  wf s → marksBacked s →
  marksBacked (get key contentType revalidator now s).
Proof.
  intros Hwf Hmb.
  assert (Hfresh : tasks s !! nextId s = None).
  { destruct (tasks s !! nextId s) as [t|] eqn:H; [|done].
    apply (wf_task_id _ Hwf) in H. lia. }
  assert (Hsame : ∀ key' e, cache s !! key' = Some e →
            isRevalidating e = true →
            ∃ e0, cache s !! key' = Some e0 ∧ isRevalidating e0 = true)
    by eauto.
  destruct (cache s !! key) as [entry|] eqn:Hc;
    destruct (revalidationPromises s !! key) as [p0|] eqn:Hm.
  - destruct (decide (now - createdAt entry
                      > staleTTL (CONFIG contentType))) as [Hx|Hx].
    { rewrite (SWRCacheSpec.get_expired_joins _ _ _ _ _ _ _ Hc Hx Hm).
      unfold marksBacked. cbn.
      eapply marksBacked_new_task; eauto. }
    destruct (decide (now - createdAt entry
                      <= freshTTL (CONFIG contentType))) as [Hf|Hf].
    { by rewrite (SWRCacheSpec.get_fresh _ _ _ _ _ _ Hc Hf). }
    assert (Hst : freshTTL (CONFIG contentType) < now - createdAt entry
                  <= staleTTL (CONFIG contentType)) by lia.
    destruct (isRevalidating entry) eqn:Hrev.
    + by rewrite (SWRCacheSpec.get_stale_revalidating _ _ _ _ _ _ Hc Hst Hrev).
    + rewrite (SWRCacheSpec.get_stale_joins _ _ _ _ _ _ _ Hc Hst Hrev Hm).
      unfold marksBacked. cbn.
      eapply marksBacked_new_task; eauto.
      intros key' e He Hr. cbn.
      destruct (decide (key' = key)) as [->|Hne]; [left; eauto|].
      right. rewrite lookup_alter_ne in He by done. eauto.
  - destruct (decide (now - createdAt entry
                      > staleTTL (CONFIG contentType))) as [Hx|Hx].
    { rewrite (SWRCacheSpec.get_expired_owns _ _ _ _ _ _ Hc Hx Hm).
      unfold marksBacked. cbn.
      eapply marksBacked_new_task; eauto. }
    destruct (decide (now - createdAt entry
                      <= freshTTL (CONFIG contentType))) as [Hf|Hf].
    { by rewrite (SWRCacheSpec.get_fresh _ _ _ _ _ _ Hc Hf). }
    assert (Hst : freshTTL (CONFIG contentType) < now - createdAt entry
                  <= staleTTL (CONFIG contentType)) by lia.
    destruct (isRevalidating entry) eqn:Hrev.
    + by rewrite (SWRCacheSpec.get_stale_revalidating _ _ _ _ _ _ Hc Hst Hrev).
    + rewrite (SWRCacheSpec.get_stale_owns _ _ _ _ _ _ Hc Hst Hrev Hm).
      unfold marksBacked. cbn.
      eapply marksBacked_new_task; eauto.
      intros key' e He Hr. cbn.
      destruct (decide (key' = key)) as [->|Hne]; [left; eauto|].
      right. rewrite lookup_alter_ne in He by done. eauto.
  - rewrite (SWRCacheSpec.get_miss_joins _ _ _ _ _ _ Hc Hm).
    unfold marksBacked. cbn. eapply marksBacked_new_task; eauto.
  - rewrite (SWRCacheSpec.get_miss_owns _ _ _ _ _ Hc Hm).
    unfold marksBacked. cbn. eapply marksBacked_new_task; eauto.
Qed.

Lemma marksBacked_resume id now s :
  marksBacked s → marksBacked (resume id now s).
Proof.
  intros Hmb. unfold resume.
  destruct (tasks s !! id) as [t|] eqn:Ht; [|done].
  destruct (tPhase t) as [role|o] eqn:Hph.
  - destruct (settledWith (tPromise t) s) as [o|]; [|done].
    intros key e He Hrev. cbn in He.
    destruct (Hmb key e He Hrev) as (id' & t' & ct & Ht' & Hk' & Hc').
    cbn. destruct (decide (id' = id)) as [->|Hne].
    + eexists id, _, ct. split; [apply lookup_insert_eq|]. cbn.
      split; congruence.
    + exists id', t', ct. by rewrite lookup_insert_ne.
  - assert (Hkeep : ∀ key e0,
              cache s !! key = Some e0 → isRevalidating e0 = true →
              key ≠ tKey t ∨ (∃ ct n0, tCont t = GetCont ct n0) →
              ∃ id' t' ct, delete id (tasks s) !! id' = Some t'
                           ∧ tKey t' = key ∧ tCont t' = BackgroundCont ct).
    { intros key e0 He0 Hrev0 Hdiff.
      destruct (Hmb key e0 He0 Hrev0) as (id' & t' & ct & Ht' & Hk' & Hc').
      exists id', t', ct. split; [|done].
      rewrite lookup_delete_ne; [done|]. intros <-.
      rewrite Ht in Ht'. injection Ht' as <-.
      destruct Hdiff as [Hd|(ct' & n0 & Hd)]; congruence. }
    unfold complete.
    destruct (tCont t) as [ct now0|ct] eqn:Hk, o;
      intros key e He Hrev; cbn in He |- *.
    + destruct (decide (key = tKey t)) as [->|Hne].
      * rewrite lookup_insert_eq in He. by injection He as <-.
      * rewrite lookup_insert_ne in He by done. eauto.
    + eapply Hkeep; eauto.
    + destruct (decide (key = tKey t)) as [->|Hne].
      * rewrite lookup_insert_eq in He. by injection He as <-.
      * rewrite lookup_insert_ne in He by done. eauto.
    + destruct (decide (key = tKey t)) as [->|Hne].
      * rewrite lookup_alter_eq in He.
        destruct (cache s !! tKey t); [|done]. by injection He as <-.
      * rewrite lookup_alter_ne in He by done. eauto.
Qed.

Lemma marksBacked_step s ev :
  wf s → marksBacked s → marksBacked (step s ev).
Proof.
  intros Hwf Hmb.
  destruct ev as [key ct rev now|key v ct now|now|p o|id now]; cbn [step].
  - by apply marksBacked_get.
  - intros key' e He Hrev. cbn in He |- *.
    destruct (decide (key' = key)) as [->|Hne].
    + rewrite lookup_insert_eq in He. by injection He as <-.
    + rewrite lookup_insert_ne in He by done. eauto.
  - intros key' e He Hrev. cbn in He |- *.
    apply map_lookup_filter_Some in He as [He _]. eauto.
  - destruct (SWRCacheSpec.settle_frame p o s) as (Hc & _ & Ht & _).
    intros key e He Hrev. rewrite Hc in He. rewrite Ht. eauto.
  - by apply marksBacked_resume.
Qed.

(** X10.  In every reachable state, an entry that is marked as
    revalidating has a background revalidation suspended for its key, whose
    last turn overwrites the entry or clears the mark: no mark is left
    behind that would keep [get] from ever revalidating the entry again. *)
Theorem marks_are_backed s :
  reachable s →
  ∀ key e,
    cache s !! key = Some e → isRevalidating e = true →
    ∃ id t contentType,
      tasks s !! id = Some t ∧ tKey t = key
      ∧ tCont t = BackgroundCont contentType
      ∧ ∀ o now,
          tPhase t = Fetched o →
          ∃ e', cache (resume id now s) !! key = Some e'
                ∧ isRevalidating e' = false.
Proof.
  intros [evs ->].
  assert (H : ∀ s0 : State T E, wf s0 → marksBacked s0 →
                                wf (run evs s0) ∧ marksBacked (run evs s0)).
  { induction evs as [|ev evs IH]; intros s0 Hwf Hmb; [done|].
    cbn. apply IH; [by apply SWRCacheSpec.wf_step|by apply marksBacked_step]. }
  destruct (H init SWRCacheSpec.wf_init) as [_ Hmb].
  { intros key e He. cbn in He. by rewrite lookup_empty in He. }
  intros key e He Hrev.
  destruct (Hmb key e He Hrev) as (id & t & ct & Ht & Hk & Hc).
  exists id, t, ct. split; [done|]. split; [done|]. split; [done|].
  intros o now Hph. destruct o as [v|err].
  - rewrite (SWRCacheSpec.resume_background_fulfilled _ _ _ _ _ _ Ht Hc Hph).
    cbn. rewrite Hk. eexists. split; [apply lookup_insert_eq | done].
  - rewrite (SWRCacheSpec.resume_background_rejected _ _ _ _ _ _ Ht Hc Hph).
    cbn. rewrite Hk, lookup_alter_eq, He. cbn. eexists. split; done.
Qed.

End Generic.

Lemma set_then_get_witness :
  let s1 : State string string := set "artist:x" "X" ArtistData 100 init in
  returned (get "artist:x" Tracks 1 1800100 s1) !! 0%nat
  = Some (inl {| resData := "X"; isStale := false; source := FromCache |})
  ∧ fetches (get "artist:x" Tracks 1 1800100 s1) = [].
Proof.
  cbv zeta.
  destruct (@set_then_get string string init "artist:x" "X" ArtistData 100
              Tracks 1%nat 1800100) as (_ & _ & Hr & Hf & _).
  - vm_compute. discriminate.
  - split; [exact Hr | exact Hf].
Defined.

Lemma background_success_witness :
  let s : State string string :=
    run [EvSet "artist:x" "X" ArtistData 0;
         EvGet "artist:x" ArtistData 1 3000000;
         EvSettle 0%nat (Fulfilled "X2")] init in
  let s' := resume 0%nat 3000002 (resume 0%nat 3000001 s) in
  cache s' !! "artist:x"
  = Some {| data := "X2"; createdAt := 3000002; isRevalidating := false;
            contentType := ArtistData |}
  ∧ returned s' = returned s.
Proof.
  cbv zeta.
  destruct (@background_success string string
              (run [EvSet "artist:x" "X" ArtistData 0;
                    EvGet "artist:x" ArtistData 1 3000000;
                    EvSettle 0%nat (Fulfilled "X2")] init)
              0%nat
              {| tKey := "artist:x"; tPromise := 0%nat;
                 tPhase := Fetching Owner;
                 tCont := BackgroundCont ArtistData |}
              Owner ArtistData "X2" 3000001 3000002)
    as (Hc & _ & Hr & _).
  - vm_compute. reflexivity.
  - reflexivity.
  - reflexivity.
  - vm_compute. reflexivity.
  - split; [exact Hc | exact Hr].
Defined.

Lemma marks_are_backed_witness :
  let s : State string string :=
    run [EvSet "artist:x" "X" ArtistData 0;
         EvGet "artist:x" ArtistData 1 3000000] init in
  reachable s
  ∧ ∃ id t contentType,
      tasks s !! id = Some t ∧ tKey t = "artist:x"
      ∧ tCont t = BackgroundCont contentType.
Proof.
  cbv zeta.
  assert (Hr : reachable
                 (run [EvSet "artist:x" "X" ArtistData 0;
                       EvGet "artist:x" ArtistData 1 3000000]
                      (@init string string))) by (by eexists).
  split; [exact Hr|].
  destruct (marks_are_backed _ Hr "artist:x"
              {| data := "X"; createdAt := 0; isRevalidating := true;
                 contentType := ArtistData |})
    as (id & t & ct & Ht & Hk & Hc & _).
  - vm_compute. reflexivity.
  - reflexivity.
  - exists id, t, ct. split; [exact Ht|]. split; [exact Hk | exact Hc].
Defined.

End SWRCacheMore.
